(** * Batch translation pipeline of the comic translator

    A shallow embedding of the parts of [pipeline.py],
    [modules/ocr/gpt_ocr.py] and [modules/translation/llm/gpt.py] that decide
    the behaviour of the batch run: the per-image loop, the translation batch
    and its flush, the post-translation loop, the archiving pass, and the two
    REST adapters.

    Python objects that the code creates once and then mutates through several
    names (the per-image [current_image_data] dictionaries) live in a heap and
    are named by references.  Calls into collaborators that are not part of
    these files (decoding, detection, OCR, inpainting, translation, archive
    packing, HTTP) are answered by an explicit [world] argument, so that every
    statement quantifies over all their behaviours, including the raised
    exceptions. *)

From Stdlib Require Import ZArith Ascii DecimalString Lia.
From stdpp Require Import base strings numbers option list.

Set Warnings "-register-all".

Open Scope string_scope.
Open Scope list_scope.

(** ** Python values and exceptions *)

Module Py.

(** A value produced by [response.json()]: the parsed JSON document as a
    Python object.  A JSON object is a [dict], kept as an association list
    with first-match lookup; numbers are integers. *)
Inductive json : Type :=
| JNull
| JBool (b : bool)
| JNum (n : Z)
| JStr (s : string)
| JArr (items : list json)
| JObj (members : list (string * json)).

(** The exception classes the modelled code can meet.  All of them derive
    from [Exception]; the three [requests] classes derive from
    [requests.exceptions.RequestException]. *)
Inductive exn_class : Type :=
| RuntimeError
| ValueError
| TypeError
| AttributeError
| KeyError
| IndexError
| FileNotFoundError
| OtherException
| RequestException
| HTTPError
| RequestsJSONDecodeError.

(** An HTTP response: status code, the text [raise_for_status] puts in its
    [HTTPError], and what [response.json()] does: return a document, or raise
    an exception of the given class with the given message. *)
Inductive json_outcome : Type :=
| JsonOk (doc : json)
| JsonFails (cls : exn_class) (msg : string).

Record response : Type := mkResponse {
  status_code : Z;
  status_text : string;
  json_of : json_outcome
}.

(** An exception object: class, [str(e)], and the [response] attribute that
    [requests] exceptions carry (possibly [None]). *)
Record exn : Type := mkExn {
  exn_class_of : exn_class;
  exn_msg : string;
  exn_response : option response
}.

Definition raise_exn (c : exn_class) (msg : string) : exn :=
  mkExn c msg None.

(** The result of running Python code: a value, or a raised exception. *)
Inductive result (A : Type) : Type :=
| Ok (a : A)
| Raise (e : exn).
Arguments Ok {A} a.
Arguments Raise {A} e.

Definition bind {A B} (r : result A) (k : A -> result B) : result B :=
  match r with
  | Ok a => k a
  | Raise e => Raise e
  end.

Notation "'let!' x := r 'in' k" := (bind r (fun x => k))
  (at level 10, x name, r at level 100, k at level 200).

(** [isinstance(e, requests.exceptions.RequestException)] *)
Definition is_request_exception (e : exn) : bool :=
  match exn_class_of e with
  | RequestException | HTTPError | RequestsJSONDecodeError => true
  | _ => false
  end.

(** *** Strings *)

Definition lower_ascii (c : ascii) : ascii :=
  let n := nat_of_ascii c in
  if (65 <=? n)%nat && (n <=? 90)%nat then ascii_of_nat (n + 32) else c.

(** [s.lower()] on the ASCII range. *)
Fixpoint lower (s : string) : string :=
  match s with
  | EmptyString => EmptyString
  | String c r => String (lower_ascii c) (lower r)
  end.

(** [needle in hay] for two strings. *)
Fixpoint contains (needle hay : string) : bool :=
  String.prefix needle hay ||
  match hay with
  | EmptyString => false
  | String _ r => contains needle r
  end.

(** [s.replace('\n', ' ')] *)
Fixpoint replace_newlines (s : string) : string :=
  match s with
  | EmptyString => EmptyString
  | String c r =>
      String (if Ascii.eqb c "010"%char then " "%char else c) (replace_newlines r)
  end.

(** *** Dictionaries *)

Fixpoint dict_lookup (key : string) (d : list (string * json)) : option json :=
  match d with
  | [] => None
  | (k, v) :: rest => if String.eqb key k then Some v else dict_lookup key rest
  end.

Definition is_str (key : string) (v : json) : bool :=
  match v with
  | JStr s => String.eqb key s
  | _ => false
  end.

(** *** Operators of the language, on parsed JSON *)

(** [key in v]: key membership for a dict, element membership for a list,
    substring test for a string, [TypeError] for anything else. *)
Definition py_in (key : string) (v : json) : result bool :=
  match v with
  | JObj d => Ok (bool_decide (is_Some (dict_lookup key d)))
  | JArr l => Ok (existsb (is_str key) l)
  | JStr s => Ok (contains key s)
  | _ => Raise (raise_exn TypeError "argument is not iterable")
  end.

(** [v[key]] for a string key. *)
Definition py_getitem (v : json) (key : string) : result json :=
  match v with
  | JObj d =>
      match dict_lookup key d with
      | Some x => Ok x
      | None => Raise (raise_exn KeyError key)
      end
  | JArr _ => Raise (raise_exn TypeError "list indices must be integers")
  | JStr _ => Raise (raise_exn TypeError "string indices must be integers")
  | _ => Raise (raise_exn TypeError "object is not subscriptable")
  end.

(** [v[0]] *)
Definition py_first (v : json) : result json :=
  match v with
  | JArr (x :: _) => Ok x
  | JArr [] => Raise (raise_exn IndexError "list index out of range")
  | JStr (String c _) => Ok (JStr (String c EmptyString))
  | JStr EmptyString => Raise (raise_exn IndexError "string index out of range")
  | JObj _ => Raise (raise_exn KeyError "0")
  | _ => Raise (raise_exn TypeError "object is not subscriptable")
  end.

(** [len(v)] *)
Definition py_len (v : json) : result nat :=
  match v with
  | JObj d => Ok (length d)
  | JArr l => Ok (length l)
  | JStr s => Ok (String.length s)
  | _ => Raise (raise_exn TypeError "object has no len()")
  end.

(** [type(v).__name__] *)
Definition type_name (v : json) : string :=
  match v with
  | JNull => "NoneType"
  | JBool _ => "bool"
  | JNum _ => "int"
  | JStr _ => "str"
  | JArr _ => "list"
  | JObj _ => "dict"
  end.

(** The text of the [AttributeError] for a missing attribute. *)
Definition no_attribute (v : json) (attribute : string) : exn :=
  raise_exn AttributeError
    ("'" +:+ type_name v +:+ "' object has no attribute '" +:+ attribute +:+ "'").

(** [v.get(key, default)] *)
Definition py_get (v : json) (key : string) (dflt : json) : result json :=
  match v with
  | JObj d => Ok (default dflt (dict_lookup key d))
  | _ => Raise (no_attribute v "get")
  end.

(** [v.lower()] *)
Definition py_lower (v : json) : result string :=
  match v with
  | JStr s => Ok (lower s)
  | _ => Raise (no_attribute v "lower")
  end.

(** [v == 429] *)
Definition py_eq_429 (v : json) : bool :=
  match v with
  | JNum n => (n =? 429)%Z
  | _ => false
  end.

End Py.


(** ** Reading a chat-completions response

    The two REST adapters contain the same code for the rate-limit test and
    for the ["choices"] block of a response document. *)

Module ChatCompletions.
Import Py.

(** [response.json()] *)
Definition response_json (r : response) : result json :=
  match json_of r with
  | JsonOk doc => Ok doc
  | JsonFails cls msg => Raise (raise_exn cls msg)
  end.

(** [error_code == 429 or "rate limit" in error_message.lower()] *)
Definition is_rate_limit (error_code error_message : json) : result bool :=
  if py_eq_429 error_code then Ok true
  else let! low := py_lower error_message in Ok (contains "rate limit" low).

(** The ["choices"] block: [Some v] when one of its two [return] statements
    is reached, [None] when control falls through to the later formats. *)
Definition from_choices (response_data : json) : result (option json) :=
  let! has_choices := py_in "choices" response_data in
  if has_choices then
    let! choices := py_getitem response_data "choices" in
    let! n := py_len choices in
    if (0 <? n)%nat then
      let! choice := py_first choices in
      let! has_message := py_in "message" choice in
      let! has_content :=
        (if has_message
         then let! message := py_getitem choice "message" in py_in "content" message
         else Ok false) in
      if has_content then
        let! message := py_getitem choice "message" in
        let! content := py_getitem message "content" in
        Ok (Some content)
      else
        let! has_text := py_in "text" choice in
        if has_text then
          let! text := py_getitem choice "text" in Ok (Some text)
        else Ok None
    else Ok None
  else Ok None.

End ChatCompletions.
(** ** [modules/translation/llm/gpt.py]: the translation REST adapter *)

Module GPTTranslation.
Import Py ChatCompletions.

(** [response.raise_for_status()]: an [HTTPError] carrying the response for
    the 4xx and 5xx codes. *)
Definition raise_for_status (r : response) : result unit :=
  if ((400 <=? status_code r) && (status_code r <? 600))%Z
  then Raise (mkExn HTTPError (status_text r) (Some r))
  else Ok tt.

(** [s.endswith(suffix)] *)
Definition endswith (s suffix : string) : bool :=
  let n := String.length s in
  let k := String.length suffix in
  (k <=? n)%nat && String.eqb (String.substring (n - k) k s) suffix.

(** The URL the request is posted to. *)
Definition api_url (api_base_url : string) : string :=
  if endswith api_base_url "/chat/completions"
  then api_base_url
  else api_base_url +:+ "/chat/completions".

Section Formatting.

(** [str(v)] as an f-string applies it to a parsed value, and [json.dumps]. *)
Variable py_str : json -> string.
Variable json_dumps : json -> string.

(** The branch taken when ["error" in response_data]: it always raises. *)
Definition raise_api_error (response_data : json) : result json :=
  let! error_info := py_getitem response_data "error" in
  let! error_message := py_get error_info "message" (JStr "Unknown API error") in
  let! error_code := py_get error_info "code" (JStr "unknown") in
  let! rate := is_rate_limit error_code error_message in
  if rate then
    let! metadata := py_get error_info "metadata" (JObj []) in
    let! provider := py_get metadata "provider_name" (JStr "API provider") in
    Raise (raise_exn RuntimeError
             ("Rate limit exceeded for " +:+ py_str provider +:+ ": "
              +:+ py_str error_message))
  else
    Raise (raise_exn RuntimeError
             ("API error (" +:+ py_str error_code +:+ "): "
              +:+ py_str error_message)).

(** Everything after [response_data = response.json()] inside the [try]. *)
Definition extract_translation (response_data : json) : result json :=
  let! has_error := py_in "error" response_data in
  if has_error then raise_api_error response_data
  else
    let! found := from_choices response_data in
    match found with
    | Some v => Ok v
    | None =>
        let! has_content := py_in "content" response_data in
        if has_content then py_getitem response_data "content"
        else
          let! has_response := py_in "response" response_data in
          if has_response then py_getitem response_data "response"
          else Raise (raise_exn ValueError
                 "Couldn't extract text from API response: response format not recognized")
    end.

(** The message built by the [except RequestException] handler.  Its inner
    [try] has a bare [except], which turns every failure into the status-code
    suffix. *)
Definition request_error_message (e : exn) : string :=
  let error_msg := "API request failed: " +:+ exn_msg e in
  match exn_response e with
  | None => error_msg
  | Some resp =>
      let inner : result string :=
        let! error_details := response_json resp in
        let! has_error := py_in "error" error_details in
        if has_error then
          let! error_info := py_getitem error_details "error" in
          let! error_message := py_get error_info "message" (JStr "Unknown error") in
          let! error_code := py_get error_info "code" (JNum (status_code resp)) in
          let! rate := is_rate_limit error_code error_message in
          if rate then
            let! metadata := py_get error_info "metadata" (JObj []) in
            let! provider := py_get metadata "provider_name" (JStr "API provider") in
            Ok ("Rate limit exceeded for " +:+ py_str provider +:+ ": "
                +:+ py_str error_message)
          else
            Ok ("API error (" +:+ py_str error_code +:+ "): "
                +:+ py_str error_message)
        else Ok (error_msg +:+ " - " +:+ json_dumps error_details) in
      match inner with
      | Ok msg => msg
      | Raise _ =>
          error_msg +:+ " - Status code: " +:+ py_str (JNum (status_code resp))
      end
  end.

(** [GPTTranslation._make_api_request].  [post url] is what
    [requests.post(url, headers=..., data=...)] does for this call. *)
Definition _make_api_request (api_base_url : string)
    (post : string -> result response) : result json :=
  let attempt :=
    let! response := post (api_url api_base_url) in
    let! _ := raise_for_status response in
    let! response_data := response_json response in
    extract_translation response_data in
  match attempt with
  | Ok v => Ok v
  | Raise e =>
      if is_request_exception e
      then Raise (raise_exn RuntimeError (request_error_message e))
      else Raise e
  end.

End Formatting.

(** The four places of a response document a return value can come from. *)
Inductive extracted_from (doc : json) (v : json) : Prop :=
| from_message_content choices choice message :
    py_getitem doc "choices" = Ok choices -> py_first choices = Ok choice ->
    py_getitem choice "message" = Ok message ->
    py_getitem message "content" = Ok v -> extracted_from doc v
| from_choice_text choices choice :
    py_getitem doc "choices" = Ok choices -> py_first choices = Ok choice ->
    py_getitem choice "text" = Ok v -> extracted_from doc v
| from_content : py_getitem doc "content" = Ok v -> extracted_from doc v
| from_response : py_getitem doc "response" = Ok v -> extracted_from doc v.

(** What the response to the request looks like in each failure the adapter
    is meant to report. *)
Definition http_error_status (r : response) : Prop :=
  (400 <= status_code r < 600)%Z.

Definition reports_api_error (r : response) (doc : json) : Prop :=
  ~ http_error_status r /\ json_of r = JsonOk doc /\ py_in "error" doc = Ok true.

Definition unrecognized_format (r : response) (doc : json) : Prop :=
  ~ http_error_status r /\ json_of r = JsonOk doc /\
  py_in "error" doc <> Ok true /\ forall v, ~ extracted_from doc v.

Inductive listed_failure (outcome : result response) : Prop :=
| fails_request e :
    outcome = Raise e -> is_request_exception e = true -> listed_failure outcome
| fails_status r :
    outcome = Ok r -> http_error_status r -> listed_failure outcome
| fails_api_error r doc :
    outcome = Ok r -> reports_api_error r doc -> listed_failure outcome
| fails_format r doc :
    outcome = Ok r -> unrecognized_format r doc -> listed_failure outcome.

(** An error object as the providers document it: [message], when present,
    is a string, and [metadata], when present, is an object. *)
Definition well_formed_error (info : list (string * json)) : Prop :=
  (forall m, dict_lookup "message" info = Some m -> exists s, m = JStr s) /\
  (forall m, dict_lookup "metadata" info = Some m -> exists d, m = JObj d).

End GPTTranslation.


(** ** Answers of the translation endpoint *)

Module GPTTranslationCases.
Import Py ChatCompletions GPTTranslation.

(** The four formats the adapter reads a result from, in the order it tries
    them.  Each is a JSON object without an [error] member. *)
Definition no_choice (members : list (string * json)) : Prop :=
  dict_lookup "choices" members = None \/
  dict_lookup "choices" members = Some (JArr []).

Inductive recognised (doc : json) (v : json) : Prop :=
| first_choice_content members choice more message :
    doc = JObj members -> dict_lookup "error" members = None ->
    dict_lookup "choices" members = Some (JArr (JObj choice :: more)) ->
    dict_lookup "message" choice = Some (JObj message) ->
    dict_lookup "content" message = Some v -> recognised doc v
| first_choice_text members choice more :
    doc = JObj members -> dict_lookup "error" members = None ->
    dict_lookup "choices" members = Some (JArr (JObj choice :: more)) ->
    dict_lookup "message" choice = None ->
    dict_lookup "text" choice = Some v -> recognised doc v
| top_content members :
    doc = JObj members -> dict_lookup "error" members = None ->
    no_choice members ->
    dict_lookup "content" members = Some v -> recognised doc v
| top_response members :
    doc = JObj members -> dict_lookup "error" members = None ->
    no_choice members ->
    dict_lookup "content" members = None ->
    dict_lookup "response" members = Some v -> recognised doc v.

(** The provider named by the metadata of an error object, with the default
    of the code. *)
Definition provider_of (info : list (string * json)) : json :=
  match default (JObj []) (dict_lookup "metadata" info) with
  | JObj metadata => default (JStr "API provider") (dict_lookup "provider_name" metadata)
  | _ => JStr "API provider"
  end.

End GPTTranslationCases.

(** ** Text blocks *)

(** [TextBlock]: the fields the modelled code reads or writes.  Boxes are
    [(x1, y1, x2, y2)]; [text] and [translation] hold Python objects. *)
Record TextBlock : Type := mkTextBlock {
  xyxy : Z * Z * Z * Z;
  bubble_xyxy : option (Z * Z * Z * Z);
  text : Py.json;
  translation : Py.json
}.

Definition set_text (blk : TextBlock) (t : Py.json) : TextBlock :=
  mkTextBlock (xyxy blk) (bubble_xyxy blk) t (translation blk).

(** ** [modules/ocr/gpt_ocr.py]: the OCR REST adapter *)

Module GPTOCR.
Import Py ChatCompletions.

(** The engine's attributes that [process_image] reads. *)
Record engine : Type := mkEngine {
  api_key : option string;
  expansion_percentage : Z
}.

(** [not self.api_key] *)
Definition key_missing (self : engine) : bool :=
  match api_key self with
  | None => true
  | Some k => String.eqb k ""
  end.

(** What surrounds the adapter while it processes one image: the box
    adjustment of [textblock.py], the crop-and-encode step
    ([img[y1:y2, x1:x2]], [cv2.imencode], [base64.b64encode]), and the
    answer to the request made for the [n]-th block. *)
Record world : Type := mkWorld {
  adjust_text_line_coordinates : Z * Z * Z * Z -> Z -> Z -> result (Z * Z * Z * Z);
  encode_crop : Z * Z * Z * Z -> result string;
  post : nat -> string -> result response
}.

Definition newline : string := String "010"%char EmptyString.

(** [text.replace('\n', ' ')] *)
Definition py_replace_newlines (v : json) : result json :=
  match v with
  | JStr s => Ok (JStr (replace_newlines s))
  | _ => Raise (no_attribute v "replace")
  end.

Section Formatting.

Variable py_str : json -> string.

(** [GPTOCR._extract_text_from_response] *)
Definition _extract_text_from_response (response_data : json) : result json :=
  let! has_error := py_in "error" response_data in
  if has_error then
    let! error_info := py_getitem response_data "error" in
    let! error_message := py_get error_info "message" (JStr "Unknown API error") in
    let! error_code := py_get error_info "code" (JStr "unknown") in
    let! rate := is_rate_limit error_code error_message in
    let! error_msg :=
      (if rate then
         let! metadata := py_get error_info "metadata" (JObj []) in
         let! provider := py_get metadata "provider_name" (JStr "API provider") in
         Ok ("Rate limit exceeded for " +:+ py_str provider +:+ ": "
             +:+ py_str error_message)
       else
         Ok ("API error (" +:+ py_str error_code +:+ "): "
             +:+ py_str error_message)) in
    Ok (JStr ("[OCR Error: " +:+ error_msg +:+ "]"))
  else
    let! found := from_choices response_data in
    match found with
    | Some v => Ok v
    | None =>
        let! has_content := py_in "content" response_data in
        if has_content then py_getitem response_data "content"
        else
          let! has_response := py_in "response" response_data in
          if has_response then py_getitem response_data "response"
          else Ok (JStr "[OCR Error: Unrecognized API response format]")
    end.

(** [GPTOCR._get_gpt_ocr]: the key test is outside the [try]; everything
    after it is inside, and its handler returns the empty string. *)
Definition _get_gpt_ocr (self : engine) (post : string -> result response)
    (base64_image : string) : result json :=
  if key_missing self then
    Raise (raise_exn ValueError "API key not initialized. Call initialize() first.")
  else
    let attempt :=
      let! response := post base64_image in
      if (status_code response =? 200)%Z then
        let! response_json := response_json response in
        let! text := _extract_text_from_response response_json in
        let! has_newline := py_in newline text in
        if has_newline then py_replace_newlines text else Ok text
      else Ok (JStr "") in
    match attempt with
    | Ok v => Ok v
    | Raise _ => Ok (JStr "")
    end.

(** The box used for a block. *)
Definition block_coords (self : engine) (w : world) (blk : TextBlock)
  : result (Z * Z * Z * Z) :=
  match bubble_xyxy blk with
  | Some c => Ok c
  | None =>
      adjust_text_line_coordinates w (xyxy blk)
        (expansion_percentage self) (expansion_percentage self)
  end.

(** The validity test; [shape] is [img.shape], height first. *)
Definition valid_coords (c : Z * Z * Z * Z) (shape : Z * Z) : bool :=
  let '(x1, y1, x2, y2) := c in
  ((x1 <? x2) && (y1 <? y2) && (0 <=? x1) && (0 <=? y1)
   && (x2 <=? snd shape) && (y2 <=? fst shape))%Z.

(** One iteration of the loop of [process_image], for the [n]-th block. *)
Definition process_block (self : engine) (w : world) (shape : Z * Z)
    (n : nat) (blk : TextBlock) : TextBlock :=
  let attempt :=
    let! c := block_coords self w blk in
    if valid_coords c shape then
      let! cv2_to_gpt := encode_crop w c in
      let! t := _get_gpt_ocr self (post w n) cv2_to_gpt in
      Ok (set_text blk t)
    else Ok blk in
  match attempt with
  | Ok b => b
  | Raise _ => set_text blk (JStr "")
  end.

Fixpoint process_blocks (self : engine) (w : world) (shape : Z * Z)
    (n : nat) (blk_list : list TextBlock) : list TextBlock :=
  match blk_list with
  | [] => []
  | blk :: rest =>
      process_block self w shape n blk :: process_blocks self w shape (S n) rest
  end.

(** [GPTOCR.process_image]: the blocks are updated in place and the same
    list is returned. *)
Definition process_image (self : engine) (w : world) (shape : Z * Z)
    (blk_list : list TextBlock) : list TextBlock :=
  process_blocks self w shape 0 blk_list.

End Formatting.

(** The ways the work on the [n]-th block can fail: the box cannot be
    computed, the crop cannot be encoded, the key is missing, the request
    raises, the status is not 200, or the body is not JSON. *)
Inductive block_fails (self : engine) (w : world) (shape : Z * Z)
    (n : nat) (blk : TextBlock) : Prop :=
| coords_raise e :
    block_coords self w blk = Raise e -> block_fails self w shape n blk
| encode_raises c e :
    block_coords self w blk = Ok c -> valid_coords c shape = true ->
    encode_crop w c = Raise e -> block_fails self w shape n blk
| key_not_set c image :
    block_coords self w blk = Ok c -> valid_coords c shape = true ->
    encode_crop w c = Ok image -> key_missing self = true ->
    block_fails self w shape n blk
| request_raises c image e :
    block_coords self w blk = Ok c -> valid_coords c shape = true ->
    encode_crop w c = Ok image -> post w n image = Raise e ->
    block_fails self w shape n blk
| status_not_200 c image r :
    block_coords self w blk = Ok c -> valid_coords c shape = true ->
    encode_crop w c = Ok image -> post w n image = Ok r ->
    status_code r <> 200%Z -> block_fails self w shape n blk
| body_not_json c image r cls msg :
    block_coords self w blk = Ok c -> valid_coords c shape = true ->
    encode_crop w c = Ok image -> post w n image = Ok r ->
    json_of r = JsonFails cls msg -> block_fails self w shape n blk.

(** The box of the block does not pass the validity test. *)
Definition bad_coordinates (self : engine) (w : world) (shape : Z * Z)
    (blk : TextBlock) : Prop :=
  exists c, block_coords self w blk = Ok c /\ valid_coords c shape = false.

End GPTOCR.

(** ** Answers of the OCR endpoint *)

Module GPTOCRCases.
Import Py ChatCompletions GPTOCR.

(** The request for the [n]-th block is made and answered with status 200
    and the document [doc]. *)
Definition answered (self : engine) (w : world) (shape : Z * Z) (n : nat)
    (blk : TextBlock) (doc : json) : Prop :=
  exists c image r,
    block_coords self w blk = Ok c /\ valid_coords c shape = true /\
    encode_crop w c = Ok image /\ key_missing self = false /\
    post w n image = Ok r /\ status_code r = 200%Z /\ json_of r = JsonOk doc.

(** The standard format: the first choice has a message whose content is the
    string [t]. *)
Definition openai_text (doc : json) (t : string) : Prop :=
  exists members choice more message,
    doc = JObj members /\ dict_lookup "error" members = None /\
    dict_lookup "choices" members = Some (JArr (JObj choice :: more)) /\
    dict_lookup "message" choice = Some (JObj message) /\
    dict_lookup "content" message = Some (JStr t).

(** The document reports an error in the documented form. *)
Definition reported_error (doc : json) : Prop :=
  exists members info,
    doc = JObj members /\ dict_lookup "error" members = Some (JObj info) /\
    GPTTranslation.well_formed_error info.

(** The document has an error member that is not in the documented form:
    it is not an object, or its message is not a string while its code is
    not 429. *)
Definition malformed_error (doc : json) : Prop :=
  exists members info,
    doc = JObj members /\ dict_lookup "error" members = Some info /\
    ((forall d, info <> JObj d) \/
     (exists d m,
        info = JObj d /\ dict_lookup "message" d = Some m /\
        (forall s, m <> JStr s) /\
        py_eq_429 (default (JStr "unknown") (dict_lookup "code" d)) = false)).

(** An object with none of the members the adapter looks for. *)
Definition unrecognized_object (doc : json) : Prop :=
  exists members,
    doc = JObj members /\ dict_lookup "error" members = None /\
    dict_lookup "choices" members = None /\
    dict_lookup "content" members = None /\
    dict_lookup "response" members = None.

End GPTOCRCases.

(** ** [pipeline.py]: the batch run *)

Module Pipeline.
Import Py.

(** A decoded image, named by its content. *)
Inductive Image : Type := Pixels (content : nat).

(** Where the outputs of one image go: the directory next to the image (or
    next to the archive it was extracted from), the archive's base name (empty
    for a loose file), and the base name and extension of the image. *)
Record out_loc : Type := mkLoc {
  directory : string;
  archive_bname : string;
  base_name : string;
  extension : string
}.

(** The sub-directories of [comic_translate_<timestamp>]. *)
Inductive out_kind : Type :=
| cleaned_images | raw_texts | translated_texts | translated_images.

(** What is written into a file of the run directory.  A [translated_images]
    file [<base_name>_translated<extension>] receives either the untouched
    original ([skip_save]) or the rendered page. *)
Inductive content : Type :=
| Original (image : Image)
| Cleaned (image : Image)
| Rendered (cleaned : Image) (blk_list : list TextBlock)
| RawText (blk_list : list TextBlock)
| TranslatedText (blk_list : list TextBlock).

(** Directories the archiving pass removes: the [translated_images]
    sub-directory of one archive, and the run directory itself. *)
Inductive tree : Type :=
| save_dir (archive_directory archive_bname : string)
| check_from (archive_directory : string).

(** The effects of the run that are visible from outside, in program order:
    Qt signals, files written, the skip log, calls of the translator and of
    the archive packer.  The prints and the updates of the page's own state
    ([image_history], [image_states], [blk_rendered]) are left out. *)
Inductive event : Type :=
| progress_update (index total step steps : nat) (major : bool)
| image_skipped (image_path stage message : string)
| image_processed (index : nat) (image : Image) (image_path : string)
| write_file (kind : out_kind) (loc : out_loc) (c : content)
| append_skip_log (directory image_path : string)
| translate_call (source target : string) (blk_list : list TextBlock)
    (image : Image) (extra_context : string)
| make_call (save_as_ext : string) (input_dir : tree)
    (output_dir output_base_name : string)
| rmtree (t : tree).

(** The places where the cancellation flag is read. *)
Inductive checkpoint : Type :=
| at_stage (index step : nat)
| after_main_loop
| after_post_loop
| at_archive (archive_index step : nat).

Record archive : Type := mkArchive {
  archive_path : string;
  extracted_images : list string
}.

(** What the run reads from [main_page] and its settings page. *)
Record main_page : Type := mkMainPage {
  image_files : list string;
  source_lang_of : string -> string;
  target_lang_of : string -> string;
  archive_info : list archive;
  export_inpainted_image : bool;
  export_raw_text : bool;
  export_translated_text : bool;
  save_as : list (string * string);
  extra_context : string
}.

(** The collaborators.  Each answer may depend on the position of the image
    (or archive) in the run.  [ocr_process] is [self.ocr.process] followed by
    [sort_blk_list], both inside the [try]; [inpaint] includes the conversion
    of its result; [prepare_render] is [format_translations] followed by
    [get_best_render_area]; [json_loads] is the validation of the two text
    dumps, whose only exception is [JSONDecodeError]; [is_cancelled] is the
    value of the worker's flag when it is read at a checkpoint.
    [run_dir_present dir] tells whether the run directory
    [<dir>/comic_translate_<timestamp>] exists when the run starts, and
    [skip_log_error dir] is the text of the [FileNotFoundError] that opening
    the skip log below it raises while it does not exist.  Calls that only
    configure a collaborator or report to the user interface
    ([self.ocr.initialize], the constructors, [get_config], [generate_mask],
    the signal emissions) and the writes that create their directory first
    are taken to return. *)
Record world : Type := mkWorld {
  dirname : string -> string;
  basename : string -> string;
  splitext : string -> string * string;
  imread : nat -> string -> option Image;
  detect : nat -> Image -> result (list TextBlock);
  ocr_process : nat -> string -> Image -> list TextBlock -> result (list TextBlock);
  inpaint : nat -> Image -> list TextBlock -> result Image;
  translate : nat -> string -> string -> list TextBlock -> Image -> string
              -> result (list TextBlock);
  json_loads : nat -> list TextBlock -> result unit;
  prepare_render : nat -> list TextBlock -> list TextBlock;
  make : nat -> string -> tree -> string -> string -> result unit;
  save_dir_exists : nat -> bool;
  is_directory_empty : nat -> bool;
  is_cancelled : checkpoint -> bool;
  run_dir_present : string -> bool;
  skip_log_error : string -> string
}.

(** [current_image_data]: one dictionary per image that reaches the batch. *)
Record image_data : Type := mkData {
  image_path : string;
  original_index : nat;
  image : Image;
  blk_list : list TextBlock;
  source_lang : string;
  target_lang : string;
  loc : out_loc;
  inpaint_input_img_rgb : Image;
  skipped : bool;
  error_message : string
}.

Definition set_blk_list (l : list TextBlock) (d : image_data) : image_data :=
  mkData (image_path d) (original_index d) (image d) l (source_lang d)
    (target_lang d) (loc d) (inpaint_input_img_rgb d) (skipped d)
    (error_message d).

Definition set_skipped (msg : string) (d : image_data) : image_data :=
  mkData (image_path d) (original_index d) (image d) (blk_list d)
    (source_lang d) (target_lang d) (loc d) (inpaint_input_img_rgb d) true msg.

(** The state of the run.  The dictionaries live in [heap]; the batch list
    and [image_batches_data] hold references (positions in [heap]) to them, so
    that an update through one name is seen through the other.
    [current_worker] tells whether [main_page.current_worker] is set. *)
Record state : Type := mkState {
  events : list event;
  heap : list image_data;
  translation_batches : list nat;
  image_batches_data : list (string * nat);
  current_worker : bool
}.

Definition initial (worker : bool) : state := mkState [] [] [] [] worker.

Definition emit (e : event) (st : state) : state :=
  mkState (events st ++ [e]) (heap st) (translation_batches st)
    (image_batches_data st) (current_worker st).

(** Several events in a row. *)
Definition emit_all (evs : list event) (st : state) : state :=
  mkState (events st ++ evs) (heap st) (translation_batches st)
    (image_batches_data st) (current_worker st).

Definition with_heap (h : list image_data) (st : state) : state :=
  mkState (events st) h (translation_batches st) (image_batches_data st)
    (current_worker st).

Definition with_batch (b : list nat) (st : state) : state :=
  mkState (events st) (heap st) b (image_batches_data st) (current_worker st).

(** [self.main_page.current_worker = None] *)
Definition drop_worker (st : state) : state :=
  mkState (events st) (heap st) (translation_batches st)
    (image_batches_data st) false.

(** [d[k] = v] on an insertion-ordered dictionary: an existing key keeps its
    place and gets the new value, a new key goes to the end. *)
Fixpoint dict_set {K V} (eqb : K -> K -> bool) (k : K) (v : V)
    (d : list (K * V)) : list (K * V) :=
  match d with
  | [] => [(k, v)]
  | (k', v') :: rest =>
      if eqb k k' then (k, v) :: rest else (k', v') :: dict_set eqb k v rest
  end.

Definition range_eqb (a b : nat * nat) : bool :=
  (fst a =? fst b)%nat && (snd a =? snd b)%nat.

(** The object a reference points to.  References held by the run always
    point into the heap; the default is never read. *)
Definition no_data : image_data :=
  mkData "" 0 (Pixels 0) [] "" "" (mkLoc "" "" "" "") (Pixels 0) false "".

Definition deref (h : list image_data) (ref : nat) : image_data :=
  default no_data (h !! ref).

(** The outcome of one loop iteration: go on with the next one (the
    iteration ended, possibly by [continue]), leave the loop ([break]), or an
    exception leaves [batch_process]. *)
Inductive control : Type :=
| Next (st : state)
| Break (st : state)
| Raised (e : exn) (st : state).

(** [self.main_page.current_worker and self.main_page.current_worker.is_cancelled] *)
Definition cancelled (w : world) (st : state) (ck : checkpoint) : bool :=
  current_worker st && is_cancelled w ck.

(** [skip_save]: the directory is created when it is missing, then the
    image is written. *)
Definition skip_save (l : out_loc) (img : Image) (st : state) : state :=
  emit (write_file translated_images l (Original img)) st.

(** Every file of the run is written into a sub-directory of the run
    directory, after [os.makedirs] of that sub-directory: a file written for
    the directory [dir] leaves the run directory of [dir] in place. *)
Definition makes_run_dir (dir : string) (e : event) : bool :=
  match e with
  | write_file _ l _ => String.eqb (directory l) dir
  | _ => false
  end.

Definition run_dir_exists (w : world) (st : state) (dir : string) : bool :=
  run_dir_present w dir || existsb (makes_run_dir dir) (events st).

(** [log_skipped_image]: [open(log_file, 'a')] creates the log file but not
    the run directory it lies in. *)
Definition log_skipped_image (w : world) (dir path : string) (st : state)
  : control :=
  if run_dir_exists w st dir
  then Next (emit (append_skip_log dir path) st)
  else Raised (mkExn FileNotFoundError (skip_log_error w dir) None) st.

(** Lines 169 to 178: the output location of an image. *)
Definition locate (w : world) (mp : main_page) (path : string) : out_loc :=
  let base := fst (splitext w (basename w path)) in
  let ext := snd (splitext w path) in
  match find (fun a => existsb (String.eqb path) (extracted_images a))
             (archive_info mp) with
  | Some a =>
      mkLoc (dirname w (archive_path a))
            (fst (splitext w (basename w (archive_path a)))) base ext
  | None => mkLoc (dirname w path) "" base ext
  end.

(** *** The translation batch *)

Definition batch_size : nat := 10.

(** The variables of the loop that merges the batch (lines 254 to 268).
    The translator is represented by the two languages it was built from. *)
Record merged : Type := mkMerged {
  combined_blk_list : list TextBlock;
  batch_indices_map : list ((nat * nat) * nat);
  current_combined_index : nat;
  translator : option (string * string)
}.

Definition nothing_merged : merged := mkMerged [] [] 0 None.

(** One iteration of [for data in translation_batches]. *)
Definition merge_one (h : list image_data) (m : merged) (ref : nat) : merged :=
  let data := deref h ref in
  let start_index := current_combined_index m in
  let img_blk_list := blk_list data in
  let end_index := current_combined_index m + length img_blk_list in
  mkMerged (combined_blk_list m ++ img_blk_list)
    (dict_set range_eqb (start_index, end_index) ref (batch_indices_map m))
    end_index
    (match translator m with
     | None => Some (source_lang data, target_lang data)
     | Some t => Some t
     end).

Definition merge_batch (h : list image_data) (batch : list nat) : merged :=
  fold_left (merge_one h) batch nothing_merged.

(** [l[start:end]] *)
Definition slice {A} (l : list A) (start stop : nat) : list A :=
  take (stop - start) (drop start l).

(** [for (start, end), original_data in batch_indices_map.items(): ...] *)
Definition distribute (translated : list TextBlock)
    (ranges : list ((nat * nat) * nat)) (h : list image_data) : list image_data :=
  fold_left
    (fun h entry =>
       alter (set_blk_list (slice translated (fst (fst entry)) (snd (fst entry))))
             (snd entry) h)
    ranges h.

(** [for data in translation_batches: data['skipped'] = True; ...] *)
Definition mark_skipped (msg : string) (batch : list nat)
    (h : list image_data) : list image_data :=
  fold_left (fun h ref => alter (set_skipped msg) ref h) batch h.

(** Lines 254 to 289: the flush of the batch after image [index]. *)
Definition flush (w : world) (mp : main_page) (total index : nat)
    (st : state) : control :=
  let m := merge_batch (heap st) (translation_batches st) in
  match combined_blk_list m, translator m with
  | _ :: _, Some (src, tgt) =>
      let st := emit (progress_update index total 6 10 false) st in
      if cancelled w st (at_stage index 6) then Break st
      else
        let representative_image :=
          image (deref (heap st) (hd 0 (translation_batches st))) in
        let st :=
          emit (translate_call src tgt (combined_blk_list m)
                  representative_image (extra_context mp)) st in
        match translate w index src tgt (combined_blk_list m)
                representative_image (extra_context mp) with
        | Ok translated =>
            Next (with_batch []
                    (with_heap (distribute translated (batch_indices_map m) (heap st)) st))
        | Raise e =>
            Next (with_batch []
                    (with_heap (mark_skipped (exn_msg e) (translation_batches st) (heap st)) st))
        end
  | _, _ => Next (with_batch [] st)
  end.

(** Every reference of the batch points into the heap. *)
Definition batch_refs_valid (st : state) : Prop :=
  Forall (fun ref => ref < length (heap st)) (translation_batches st).

(** Lines 241 to 250: a new dictionary, stored under the image path and
    appended to the batch. *)
Definition store_for_batch (d : image_data) (st : state) : state :=
  let ref := length (heap st) in
  mkState (events st) (heap st ++ [d]) (translation_batches st ++ [ref])
    (dict_set String.eqb (image_path d) ref (image_batches_data st))
    (current_worker st).

(** *** The main loop *)

(** One iteration of the loop over [image_files] (lines 160 to 289). *)
Definition process_one (w : world) (mp : main_page) (total index : nat)
    (path : string) (st : state) : control :=
  let st := emit (progress_update index total 0 10 true) st in
  let src := source_lang_of mp path in
  let tgt := target_lang_of mp path in
  let l := locate w mp path in
  match imread w index path with
  | None => log_skipped_image w (directory l) path st
  | Some img =>
      let st := emit (progress_update index total 1 10 false) st in
      if cancelled w st (at_stage index 1) then Break st else
      match detect w index img with
      | Raise e => Raised e st
      | Ok detected =>
          let st := emit (progress_update index total 2 10 false) st in
          if cancelled w st (at_stage index 2) then Break st else
          match detected with
          | [] =>
              log_skipped_image w (directory l) path
                (emit (image_skipped path "Text Blocks" "")
                   (skip_save l img st))
          | _ :: _ =>
              match ocr_process w index src img detected with
              | Raise e =>
                  log_skipped_image w (directory l) path
                    (emit (image_skipped path "OCR" (exn_msg e))
                       (skip_save l img st))
              | Ok blks =>
                  let st := emit (progress_update index total 3 10 false) st in
                  if cancelled w st (at_stage index 3) then Break st else
                  let st := emit (progress_update index total 4 10 false) st in
                  if cancelled w st (at_stage index 4) then Break st else
                  match inpaint w index img blks with
                  | Raise e => Raised e st
                  | Ok cleaned =>
                      let st := emit (image_processed index cleaned path) st in
                      let st :=
                        if export_inpainted_image mp
                        then emit (write_file cleaned_images l (Cleaned cleaned)) st
                        else st in
                      let st := emit (progress_update index total 5 10 false) st in
                      if cancelled w st (at_stage index 5) then Break st else
                      let st :=
                        store_for_batch
                          (mkData path index img blks src tgt l cleaned false "") st in
                      if (length (translation_batches st) =? batch_size)%nat
                         || (index =? total - 1)%nat
                      then flush w mp total index st
                      else Next st
                  end
              end
          end
      end
  end.

(** [for index, image_path in enumerate(...)], from position [index] on. *)
Fixpoint main_loop (w : world) (mp : main_page) (total index : nat)
    (paths : list string) (st : state) : control :=
  match paths with
  | [] => Next st
  | path :: rest =>
      match process_one w mp total index path st with
      | Next st' => main_loop w mp total (S index) rest st'
      | stop => stop
      end
  end.

(** *** The post-translation loop *)

(** One iteration of the loop over [image_batches_data.items()] (lines 298 to
    411). *)
Definition finalize_one (w : world) (mp : main_page) (total : nat)
    (entry : string * nat) (st : state) : control :=
  let path := fst entry in
  let processed_data := deref (heap st) (snd entry) in
  let index := original_index processed_data in
  let l := loc processed_data in
  if skipped processed_data then
    log_skipped_image w (directory l) path
      (emit (image_skipped path "Translator" (error_message processed_data))
         (skip_save l (image processed_data) st))
  else
    let blks := blk_list processed_data in
    match json_loads w index blks with
    | Raise e =>
        log_skipped_image w (directory l) path
          (emit (image_skipped path "Translator"
                   ("JSON Decode Error: " +:+ exn_msg e))
             (skip_save l (image processed_data) st))
    | Ok _ =>
        let st :=
          if export_raw_text mp
          then emit (write_file raw_texts l (RawText blks)) st else st in
        let st :=
          if export_translated_text mp
          then emit (write_file translated_texts l (TranslatedText blks)) st
          else st in
        let st := emit (progress_update index total 7 10 false) st in
        if cancelled w st (at_stage index 7) then Break st else
        let rendered := prepare_render w index blks in
        let st := emit (progress_update index total 8 10 false) st in
        if cancelled w st (at_stage index 8) then Break st else
        let st :=
          emit (write_file translated_images l
                  (Rendered (inpaint_input_img_rgb processed_data) rendered)) st in
        let st := emit (progress_update index total 9 10 false) st in
        if cancelled w st (at_stage index 9) then Break st else
        Next st
    end.

Fixpoint post_loop (w : world) (mp : main_page) (total : nat)
    (entries : list (string * nat)) (st : state) : control :=
  match entries with
  | [] => Next st
  | entry :: rest =>
      match finalize_one w mp total entry st with
      | Next st' => post_loop w mp total rest st'
      | stop => stop
      end
  end.

(** *** The archiving pass *)

Fixpoint lookup_ext (ext : string) (d : list (string * string)) : option string :=
  match d with
  | [] => None
  | (k, v) :: rest => if String.eqb ext k then Some v else lookup_ext ext rest
  end.

(** One iteration of the loop over [archive_info_list] (lines 422 to 460).
    The call of [make] is not inside a [try]. *)
Definition archive_one (w : world) (mp : main_page) (total archive_index : nat)
    (a : archive) (st : state) : control :=
  let archive_index_input := total + archive_index in
  let st := emit (progress_update archive_index_input total 1 3 true) st in
  if cancelled w st (at_archive archive_index 1) then Break (drop_worker st) else
  let archive_ext := snd (splitext w (archive_path a)) in
  let bname := fst (splitext w (basename w (archive_path a))) in
  let archive_directory := dirname w (archive_path a) in
  match lookup_ext (lower archive_ext) (save_as mp) with
  | None => Raised (raise_exn KeyError (lower archive_ext)) st
  | Some target =>
      let save_as_ext := "." +:+ target in
      let st := emit (progress_update archive_index_input total 2 3 true) st in
      if cancelled w st (at_archive archive_index 2) then Break (drop_worker st) else
      let st :=
        emit (make_call save_as_ext (save_dir archive_directory bname)
                archive_directory bname) st in
      match make w archive_index save_as_ext (save_dir archive_directory bname)
              archive_directory bname with
      | Raise e => Raised e st
      | Ok _ =>
          let st := emit (progress_update archive_index_input total 3 3 true) st in
          if cancelled w st (at_archive archive_index 3) then Break (drop_worker st) else
          let st :=
            if save_dir_exists w archive_index
            then emit (rmtree (save_dir archive_directory bname)) st else st in
          let st :=
            if is_directory_empty w archive_index
            then emit (rmtree (check_from archive_directory)) st else st in
          Next st
      end
  end.

Fixpoint archive_loop (w : world) (mp : main_page) (total archive_index : nat)
    (archives : list archive) (st : state) : control :=
  match archives with
  | [] => Next st
  | a :: rest =>
      match archive_one w mp total archive_index a st with
      | Next st' => archive_loop w mp total (S archive_index) rest st'
      | stop => stop
      end
  end.

(** *** [batch_process] *)

(** The state after a loop, and the exception that left it, if any. *)
Definition after_loop (c : control) : state * option exn :=
  match c with
  | Next st | Break st => (st, None)
  | Raised e st => (st, Some e)
  end.

(** The two tests after the loops (lines 292 and 414). *)
Definition post_processing (w : world) (mp : main_page) (total : nat)
    (st : state) : control :=
  if cancelled w st after_main_loop then Next (drop_worker st)
  else post_loop w mp total (image_batches_data st) st.

Definition after_post_processing (w : world) (st : state) : state :=
  if cancelled w st after_post_loop then drop_worker st else st.

(** [ComicTranslatePipeline.batch_process]: the final state, and the
    exception that ended the run, if one did. *)
Definition batch_process (w : world) (mp : main_page) (worker : bool)
  : state * option exn :=
  let total := length (image_files mp) in
  match main_loop w mp total 0 (image_files mp) (initial worker) with
  | Raised e st => (st, Some e)
  | Next st | Break st =>
      match post_processing w mp total st with
      | Raised e st => (st, Some e)
      | Next st | Break st =>
          after_loop
            (archive_loop w mp total 0 (archive_info mp) (after_post_processing w st))
      end
  end.

(** *** Index ranges *)

(** The ranges follow one another from [from] to [to]: each starts where the
    one before it stops, and none is reversed. *)
Fixpoint contiguous (from : nat) (ranges : list (nat * nat)) (to : nat) : Prop :=
  match ranges with
  | [] => from = to
  | r :: rest => fst r = from /\ fst r <= snd r /\ contiguous (snd r) rest to
  end.

Definition range_length (r : nat * nat) : nat := snd r - fst r.

(** What the merge loop maintains while it goes through [batch]. *)
Record merged_ok (h : list image_data) (batch : list nat) (m : merged) : Prop := {
  ok_combined :
    combined_blk_list m = concat ((fun ref => blk_list (deref h ref)) <$> batch);
  ok_index : current_combined_index m = length (combined_blk_list m);
  ok_contiguous :
    contiguous 0 (batch_indices_map m).*1 (length (combined_blk_list m));
  ok_entries :
    Forall (fun entry =>
              range_length (fst entry) = length (blk_list (deref h (snd entry))) /\
              slice (combined_blk_list m) (fst (fst entry)) (snd (fst entry))
              = blk_list (deref h (snd entry)))
           (batch_indices_map m);
  ok_order :
    Forall (fun ref => blk_list (deref h ref) <> []) batch ->
    (batch_indices_map m).*2 = batch
}.

(** *** Reading a trace *)

Definition is_translate_call (e : event) : bool :=
  match e with translate_call _ _ _ _ _ => true | _ => false end.

(** The calls of the translator, in order. *)
Definition translate_calls (evs : list event) : list event :=
  filter (fun e => is_translate_call e = true) evs.

Definition is_make_call (e : event) : bool :=
  match e with make_call _ _ _ _ => true | _ => false end.

Definition is_rmtree (e : event) : bool :=
  match e with rmtree _ => true | _ => false end.

Definition is_output (e : event) : bool :=
  match e with write_file translated_images _ _ => true | _ => false end.

(** The files written under [translated_images], in order. *)
Definition outputs (evs : list event) : list event :=
  filter (fun e => is_output e = true) evs.

(** The state a loop iteration or a loop ends in. *)
Definition state_of (c : control) : state :=
  match c with
  | Next st | Break st | Raised _ st => st
  end.

(** The number of images of the run that can be decoded. *)
Fixpoint readable (w : world) (index : nat) (paths : list string) : nat :=
  match paths with
  | [] => 0
  | path :: rest =>
      match imread w index path with
      | Some _ => 1 + readable w (S index) rest
      | None => readable w (S index) rest
      end
  end.

(** The images of the run that can be decoded, in order. *)
Fixpoint decodable (w : world) (index : nat) (paths : list string) : list string :=
  match paths with
  | [] => []
  | path :: rest =>
      match imread w index path with
      | Some _ => path :: decodable w (S index) rest
      | None => decodable w (S index) rest
      end
  end.

(** The file a write under [translated_images] goes to: the location fixes
    the directory and the name [<base_name>_translated<extension>]. *)
Definition output_loc (e : event) : option out_loc :=
  match e with
  | write_file translated_images l _ => Some l
  | _ => None
  end.

Definition output_locs (evs : list event) : list out_loc := omap output_loc evs.

(** The paths stored for the post-translation loop. *)
Definition stored_paths (st : state) : list string := (image_batches_data st).*1.

(** *** What a trace says about the images *)

Section Justified.
Variables (w : world) (mp : main_page).

(** The image at position [index] of the run is [path], and it decodes to
    [img]. *)
Definition decoded (index : nat) (path : string) (img : Image) : Prop :=
  image_files mp !! index = Some path /\ imread w index path = Some img.

(** A file under [translated_images] is the output of a decoded image: its
    untouched original, or a rendered page. *)
Definition output_justified (e : event) : Prop :=
  match e with
  | write_file translated_images l c =>
      exists index path img,
        decoded index path img /\ l = locate w mp path /\
        (c = Original img \/ exists cleaned blks, c = Rendered cleaned blks)
  | _ => True
  end.

(** A skip signal is backed by the original of that image, written as its
    translated output. *)
Definition skip_justified (evs : list event) (e : event) : Prop :=
  match e with
  | image_skipped path _ _ =>
      exists index img,
        decoded index path img /\
        write_file translated_images (locate w mp path) (Original img) ∈ evs
  | _ => True
  end.

Definition trace_ok (evs : list event) : Prop :=
  Forall output_justified evs /\ Forall (skip_justified evs) evs.

(** Events that are neither an output nor a skip signal. *)
Definition quiet (e : event) : bool :=
  match e with
  | write_file translated_images _ _ | image_skipped _ _ _ => false
  | _ => true
  end.

(** The fields of a record that say which image it belongs to. *)
Definition same_page (d d' : image_data) : Prop :=
  image_path d' = image_path d /\ original_index d' = original_index d /\
  image d' = image d /\ loc d' = loc d.

(** Every record of the heap belongs to a decoded image of the run. *)
Definition heap_ok (h : list image_data) : Prop :=
  forall ref d, h !! ref = Some d ->
    decoded (original_index d) (image_path d) (image d) /\
    loc d = locate w mp (image_path d).

(** Every entry of [image_batches_data] points to the record of its path. *)
Definition refs_ok (h : list image_data) (entries : list (string * nat)) : Prop :=
  forall entry, entry ∈ entries ->
    exists d, h !! snd entry = Some d /\ image_path d = fst entry.

Record state_ok (st : state) : Prop := {
  ok_trace : trace_ok (events st);
  ok_heap : heap_ok (heap st);
  ok_refs : refs_ok (heap st) (image_batches_data st)
}.

End Justified.

End Pipeline.

(** ** The shape of a trace, and what the archiving pass is expected to call *)

Module PipelineTrace.
Import Py Pipeline.

(** The three places of [batch_process] that report a skipped image do it in
    the same way: [skip_save], then the signal, then the log line. *)
Definition skip_report (l : out_loc) (img : Image) (path stage msg : string)
  : list event :=
  [write_file translated_images l (Original img);
   image_skipped path stage msg;
   append_skip_log (directory l) path].

(** How the trace of a run is built: from quiet events, from the skip
    reports of decoded images of the run, each with the original of its own
    image at its own output location, and (when [renders] is set) from
    rendered pages. *)
Inductive shaped (w : world) (mp : main_page) (renders : bool)
  : list event -> Prop :=
| shaped_nil : shaped w mp renders []
| shaped_quiet evs e :
    shaped w mp renders evs -> quiet e = true -> shaped w mp renders (evs ++ [e])
| shaped_skip evs index path img stage msg :
    shaped w mp renders evs -> decoded w mp index path img ->
    shaped w mp renders
      (evs ++ skip_report (locate w mp path) img path stage msg)
| shaped_render evs l cleaned blks :
    shaped w mp renders evs -> renders = true ->
    shaped w mp renders
      (evs ++ [write_file translated_images l (Rendered cleaned blks)]).

Definition shaped_state (w : world) (mp : main_page) (renders : bool)
    (st : state) : Prop :=
  shaped w mp renders (events st).

(** The one call of the translator for the batch [batch] of the heap [h]:
    the languages and the image of its first record, and the block lists of
    all its records. *)
Definition merged_call (mp : main_page) (h : list image_data) (batch : list nat)
  : event :=
  let first := deref h (hd 0 batch) in
  translate_call (source_lang first) (target_lang first)
    (concat ((fun ref => blk_list (deref h ref)) <$> batch))
    (image first) (extra_context mp).

(** The call of the packer for one archive, when its target format is
    known. *)
Definition archive_call (w : world) (mp : main_page) (a : archive) : list event :=
  match lookup_ext (lower (snd (splitext w (archive_path a)))) (save_as mp) with
  | Some target =>
      [make_call ("." +:+ target)
         (save_dir (dirname w (archive_path a))
                   (fst (splitext w (basename w (archive_path a)))))
         (dirname w (archive_path a))
         (fst (splitext w (basename w (archive_path a))))]
  | None => []
  end.

(** The packer can pack the archive at position [archive_index]. *)
Definition packable (w : world) (mp : main_page) (archive_index : nat)
    (a : archive) : Prop :=
  exists target,
    lookup_ext (lower (snd (splitext w (archive_path a)))) (save_as mp) = Some target /\
    make w archive_index ("." +:+ target)
      (save_dir (dirname w (archive_path a))
                (fst (splitext w (basename w (archive_path a)))))
      (dirname w (archive_path a))
      (fst (splitext w (basename w (archive_path a)))) = Ok tt.

Definition make_calls (evs : list event) : list event :=
  filter (fun e => is_make_call e = true) evs.

Definition is_rendered (e : event) : bool :=
  match e with
  | write_file translated_images _ (Rendered _ _) => true
  | _ => false
  end.

End PipelineTrace.

(** ** [comic.py]: the entry point of the application

    The console output of these functions is not part of the model; what
    they do to the environment, which translation they ask Qt for and what
    they start is. *)

Module Comic.
Import Py.

(** [s.split(sep)] for a separator of one character. *)
Fixpoint split_on (sep : ascii) (s : string) : list string :=
  match s with
  | EmptyString => [EmptyString]
  | String c r =>
      if Ascii.eqb c sep then EmptyString :: split_on sep r
      else match split_on sep r with
           | piece :: pieces => String c piece :: pieces
           | [] => [String c EmptyString]
           end
  end.

(** [sep.join(l)] *)
Fixpoint join_with (sep : ascii) (l : list string) : string :=
  match l with
  | [] => EmptyString
  | [x] => x
  | x :: rest => x +:+ String sep (join_with sep rest)
  end.

(** [d.get(key, default)] for a dictionary of strings. *)
Fixpoint str_get (key : string) (d : list (string * string)) (dflt : string) : string :=
  match d with
  | [] => dflt
  | (k, v) :: rest => if String.eqb key k then v else str_get key rest dflt
  end.

(** The character occurs in the string. *)
Fixpoint has_char (c : ascii) (s : string) : bool :=
  match s with
  | EmptyString => false
  | String a r => Ascii.eqb a c || has_char c r
  end.

(** *** [adjust_nvidia_paths] *)

Section Platform.

(** [os.pathsep], [os.path.join] and [os.path.isdir] of the platform. *)
Variable pathsep : ascii.
Variable path_join : string -> string -> string.
Variable isdir : string -> bool.

Definition TARGET_CUDA_VERSION : string := "12.1".

Definition target_cuda_base : string :=
  "C:\Program Files\NVIDIA GPU Computing Toolkit\CUDA\v" +:+ TARGET_CUDA_VERSION.

Definition target_cuda_paths : list (string * string) :=
  [("bin", path_join target_cuda_base "bin");
   ("libnvvp", path_join target_cuda_base "libnvvp")].

Definition nvidia_smi_path : string := "C:\Program Files\NVIDIA Corporation\NVSMI".

(** The loop over [target_cuda_paths.items()]. *)
Fixpoint collect_targets (current_path_list : list string)
    (targets : list (string * string)) (paths_to_prepend : list string)
  : list string :=
  match targets with
  | [] => paths_to_prepend
  | (_, path) :: rest =>
      collect_targets current_path_list rest
        (if isdir path then
           if bool_decide (path ∈ current_path_list) then paths_to_prepend
           else paths_to_prepend ++ [path]
         else paths_to_prepend)
  end.

(** The test a directory passes to be put in front of [PATH]. *)
Definition wanted (current_path_list : list string) (p : string) : bool :=
  isdir p && negb (bool_decide (p ∈ current_path_list)).

(** [paths_to_prepend] when line 56 is reached. *)
Definition paths_to_prepend (current_path : string) : list string :=
  let current_path_list := split_on pathsep current_path in
  let collected := collect_targets current_path_list target_cuda_paths [] in
  if isdir nvidia_smi_path && negb (bool_decide (nvidia_smi_path ∈ current_path_list))
  then collected ++ [nvidia_smi_path]
  else collected.

(** The directories the function looks for. *)
Definition candidates : list string :=
  target_cuda_paths.*2 ++ [nvidia_smi_path].

(** The entries of a [PATH] value. *)
Definition entries (environ_path : option string) : list string :=
  split_on pathsep (default EmptyString environ_path).

(** [adjust_nvidia_paths], on the [PATH] entry of [os.environ]: [None] when
    the variable is not set. *)
Definition adjust_nvidia_paths (environ_path : option string) : option string :=
  let current_path := default EmptyString environ_path in
  match paths_to_prepend current_path with
  | [] => environ_path
  | prepend => Some (join_with pathsep prepend +:+ String pathsep current_path)
  end.

End Platform.

(** *** The language of the user interface *)

Definition lang_map : list (string * string) :=
  [("en", "English"); ("ko", "한국어"); ("fr", "Français"); ("ja", "日本語");
   ("ru", "русский"); ("de", "Deutsch"); ("nl", "Nederlands"); ("es", "Español");
   ("it", "Italiano"); ("tr", "Türkçe"); ("ka", "ქართული")].

Definition language_codes : list (string * string) :=
  [("English", "en"); ("한국어", "ko"); ("Français", "fr"); ("日本語", "ja");
   ("简体中文", "zh_CN"); ("繁體中文", "zh_TW"); ("русский", "ru");
   ("Deutsch", "de"); ("Nederlands", "nl"); ("Español", "es");
   ("Italiano", "it"); ("Türkçe", "tr"); ("ქართული", "ka")].

(** [locale.split('_')[0]] *)
Definition lang_code_of (locale : string) : string :=
  match split_on "_"%char locale with
  | piece :: _ => piece
  | [] => EmptyString
  end.

(** [get_system_language], for the name [QLocale.system().name()] gives. *)
Definition get_system_language (locale : string) : string :=
  let special :=
    if String.prefix "zh_" locale then
      if bool_decide (locale ∈ ["zh_CN"; "zh_SG"]) then Some "简体中文"
      else if bool_decide (locale ∈ ["zh_TW"; "zh_HK"]) then Some "繁體中文"
      else None
    else None in
  match special with
  | Some language => language
  | None => str_get (lang_code_of locale) lang_map "English"
  end.

(** What [main] does, in order. *)
Inductive action : Type :=
| set_app_user_model_id (myappid : string)
| set_window_icon (resource : string)
| load_qm (resource : string)
| install_translator (resource : string)
| report_failed_translation (language : string)
| thread_load_project (project_file : string)
| show_window
| exec_event_loop.

(** [load_translation]; [load] is [QTranslator.load]. *)
Definition load_translation (load : string -> bool) (language : string) : list action :=
  let lang_code := str_get language language_codes "en" in
  let resource := ":/translations/ct_" +:+ lang_code +:+ ".qm" in
  if load resource then [load_qm resource; install_translator resource]
  else [load_qm resource; report_failed_translation language].

(** [main].  [stored] is the value of [language] in the settings, [exists]
    is [os.path.exists]. *)
Definition main (win32 : bool) (argv : list string) (stored : option string)
    (locale : string) (load : string -> bool) (exists_ : string -> bool)
  : list action :=
  (if win32 then [set_app_user_model_id "ComicLabs.ComicTranslate"] else [])
  ++ [set_window_icon ":/icons/window_icon.png"]
  ++ (let selected_language := default (get_system_language locale) stored in
      if String.eqb selected_language "English" then []
      else load_translation load selected_language)
  ++ (match argv with
      | _ :: project_file :: _ =>
          if exists_ project_file && GPTTranslation.endswith project_file ".ctpr"
          then [thread_load_project project_file] else []
      | _ => []
      end)
  ++ [show_window; exec_event_loop].

(** The translation resources [main] asks for. *)
Definition requested (trace : list action) : list string :=
  omap (fun a => match a with load_qm resource => Some resource | _ => None end) trace.

End Comic.

(** ** [pipeline.py]: the inpainter of the single-page tools

    [manual_inpaint] keeps the inpainter it built in two fields of the
    pipeline object; the batch run tests the same two fields with the same
    lines (217-222). *)

Module Workbench.
Import Py.

(** An inpainter object: the key of its class in [inpaint_map] and the
    device it was constructed for. *)
Record inpainter : Type := mkInpainter {
  made_of : string;
  device : string
}.

(** [self.inpainter_cache] and [self.cached_inpainter_key]. *)
Record caches : Type := mkCaches {
  inpainter_cache : option inpainter;
  cached_inpainter_key : option string
}.

(** [__init__] *)
Definition fresh : caches := mkCaches None None.

(** What the settings page and the viewer hold when the method is called. *)
Record request : Type := mkRequest {
  tool : string;
  gpu_enabled : bool;
  image : Pipeline.Image;
  mask : nat
}.

(** [registered key] tells whether [key] is in [inpaint_map]; [construct]
    is the constructor of the class, [run] the call of the inpainter followed
    by [cv2.convertScaleAbs]. *)
Record world : Type := mkWorld {
  registered : string -> bool;
  construct : string -> string -> result unit;
  run : inpainter -> Pipeline.Image -> nat -> result Pipeline.Image
}.

Inductive event : Type :=
| built (i : inpainter)
| ran (i : inpainter).

(** Lines 75-80 (and 217-222): the cache is refreshed when it is empty or
    was filled for another key. *)
Definition ensure_inpainter (w : world) (rq : request) (c : caches)
  : caches * list event * result inpainter :=
  let rebuild :=
    let device := if gpu_enabled rq then "cuda" else "cpu" in
    let inpainter_key := tool rq in
    if registered w inpainter_key then
      match construct w inpainter_key device with
      | Ok _ =>
          let made := mkInpainter inpainter_key device in
          (mkCaches (Some made) (Some inpainter_key), [built made], Ok made)
      | Raise e => (c, [], Raise e)
      end
    else (c, [], Raise (raise_exn KeyError inpainter_key)) in
  match inpainter_cache c with
  | None => rebuild
  | Some cached =>
      if bool_decide (cached_inpainter_key c = Some (tool rq))
      then (c, [], Ok cached)
      else rebuild
  end.

(** [manual_inpaint] *)
Definition manual_inpaint (w : world) (rq : request) (c : caches)
  : caches * list event * result Pipeline.Image :=
  match ensure_inpainter w rq c with
  | (c', evs, Ok i) => (c', evs ++ [ran i], run w i (image rq) (mask rq))
  | (c', evs, Raise e) => (c', evs, Raise e)
  end.

(** The method called once for each request, on the same pipeline object;
    an exception ends a call, not the life of the object. *)
Fixpoint session (w : world) (rqs : list request) (c : caches)
  : caches * list event :=
  match rqs with
  | [] => (c, [])
  | rq :: rest =>
      let '(c', evs, _) := manual_inpaint w rq c in
      let '(c'', evs') := session w rest c' in
      (c'', evs ++ evs')
  end.

(** The cache holds [i], filled for the key [k]. *)
Definition holds (c : caches) (k : string) (i : inpainter) : Prop :=
  inpainter_cache c = Some i /\ cached_inpainter_key c = Some k.

(** The events of a session in which at most one inpainter is built and
    every call goes to one and the same inpainter. *)
Definition one_inpainter (evs : list event) : Prop :=
  (exists i, Forall (fun e => e = ran i) evs) \/
  (exists i rest, evs = built i :: rest /\ Forall (fun e => e = ran i) rest).

Definition is_built (e : event) : bool :=
  match e with built _ => true | ran _ => false end.

End Workbench.

(** ** The two maintenance scripts

    [compile_ka_translation.py] and [update_translations_resource.py]; as
    for [comic.py], the console output is not part of the model. *)

Module Scripts.
Import Py.

(** *** [compile_ka_translation.py] *)

(** What [from PySide6.QtCore import QLibraryInfo] and
    [QLibraryInfo.path(QLibraryInfo.LibraryExecutables)] give: the import
    fails, the call raises, or the directory of the Qt tools. *)
Inductive qt_tools : Type :=
| import_error
| path_raises (e : exn)
| tools_at (dir : string).

(** [ka_ts_file] and [ka_qm_file] are [str] of the two paths; [run] is
    [subprocess.run] and gives the return code. *)
Record host : Type := mkHost {
  ka_ts_file : string;
  ka_qm_file : string;
  ts_exists : bool;
  qt : qt_tools;
  win32 : bool;
  path_exists : string -> bool;
  run : list string -> result Z
}.

(** Lines 23-31: the [lrelease] to call. *)
Definition choose_lrelease (h : host) : result string :=
  match qt h with
  | import_error => Ok "lrelease"
  | path_raises e => Raise e
  | tools_at dir =>
      let lrelease_path := dir +:+ "/lrelease" in
      let lrelease_path :=
        if negb (path_exists h lrelease_path) && win32 h
        then lrelease_path +:+ ".exe" else lrelease_path in
      if negb (path_exists h lrelease_path) then Ok "lrelease"
      else Ok lrelease_path
  end.

(** [main]: the commands it ran and its return value. *)
Definition compile_main (h : host) : list (list string) * Z :=
  if negb (ts_exists h) then ([], 1%Z)
  else
    match choose_lrelease h with
    | Raise _ => ([], 1%Z)
    | Ok lrelease_path =>
        let cmd := [lrelease_path; ka_ts_file h; "-qm"; ka_qm_file h] in
        match run h cmd with
        | Raise _ => ([cmd], 1%Z)
        | Ok returncode =>
            if negb (returncode =? 0)%Z then ([cmd], 1%Z) else ([cmd], 0%Z)
        end
    end.

(** *** [update_translations_resource.py] *)

(** A path below the directory of the script, as its components. *)
Definition path : Type := list string.

(** [s.rpartition('.')], when there is a dot: the part before the last dot
    and the part after it. *)
Fixpoint rpartition_dot (s : string) : option (string * string) :=
  match s with
  | EmptyString => None
  | String c r =>
      match rpartition_dot r with
      | Some (before, after) => Some (String c before, after)
      | None => if Ascii.eqb c "."%char then Some (EmptyString, r) else None
      end
  end.

(** The stem of a file name: the name without its last suffix.  A name that
    starts with its only dot, or ends with a dot, has no suffix. *)
Definition stem (name : string) : string :=
  match rpartition_dot name with
  | Some (EmptyString, _) => name
  | Some (_, EmptyString) => name
  | Some (before, _) => before
  | None => name
  end.

(** [p.with_suffix(suffix)], for a suffix that is valid. *)
Fixpoint with_suffix (p : path) (suffix : string) : path :=
  match p with
  | [] => []
  | [name] => [stem name +:+ suffix]
  | dir :: rest => dir :: with_suffix rest suffix
  end.

Definition translations_py : path := ["app"; "translations"; "ct_translations.py"].

Definition backup_file : path := with_suffix translations_py ".py.bak".

(** The text after the first occurrence of [prefix]. *)
Fixpoint find_after (prefix s : string) : option string :=
  if String.prefix prefix s
  then Some (String.substring (String.length prefix)
               (String.length s - String.length prefix) s)
  else match s with
       | EmptyString => None
       | String _ r => find_after prefix r
       end.

Definition quote : ascii := "034"%char.

(** The text before the first double quote, when there is one. *)
Fixpoint until_quote (s : string) : option string :=
  match s with
  | EmptyString => None
  | String c r =>
      if Ascii.eqb c quote then Some EmptyString
      else match until_quote r with
           | Some t => Some (String c t)
           | None => None
           end
  end.

(** [re.search(name_pattern, content, re.DOTALL)] and [group(1)].  The
    pattern is the literal prefix, a shortest run of any characters, and a
    double quote.  A first occurrence of the prefix that no double quote
    follows has no later occurrence either, since the prefix ends with one;
    so the leftmost match starts at the first occurrence of the prefix and
    its group ends before the next double quote. *)
Definition resource_names (content : string) : option string :=
  match find_after ("qt_resource_name = b" +:+ String quote EmptyString) content with
  | Some rest => until_quote rest
  | None => None
  end.

Record files : Type := mkFiles {
  exists_ : path -> bool;
  read_text : path -> result string;
  write_text : path -> string -> result unit
}.

(** [main]: the writes it started, and how it ended. *)
Definition update_main (fs : files) : list (path * string) * result Z :=
  if negb (exists_ fs translations_py) then ([], Ok 1%Z)
  else
    match read_text fs translations_py with
    | Raise e => ([], Raise e)
    | Ok content =>
        match resource_names content with
        | None => ([], Ok 1%Z)
        | Some current_names =>
            if contains "ct_ka.qm" current_names then ([], Ok 0%Z)
            else
              match write_text fs backup_file content with
              | Raise e => ([(backup_file, content)], Raise e)
              | Ok _ => ([(backup_file, content)], Ok 0%Z)
              end
        end
    end.

End Scripts.

(** ** Concrete runs

    The inputs and surroundings used to run the model: where a statement
    fails, and where a statement with premises applies. *)

Module Scenarios.
Import Py.

(** [str(v)] for the values that the concrete runs below format: strings,
    integers, [None] and booleans.  The runs format no list and no
    dictionary; the statements above hold for every rendering. *)
Definition plain_str (v : json) : string :=
  match v with
  | JStr s => s
  | JNum n => NilZero.string_of_int (Z.to_int n)
  | JNull => "None"
  | JBool true => "True"
  | JBool false => "False"
  | JArr _ => "[...]"
  | JObj _ => "{...}"
  end.

Definition rate_limited : response :=
  mkResponse 200 "OK"
    (JsonOk (JObj [("error",
       JObj [("code", JNum 429); ("message", JStr "Too many requests")])])).

Definition null_message : response :=
  mkResponse 200 "OK" (JsonOk (JObj [("error", JObj [("message", JNull)])])).

(** The same body under the status 400. *)
Definition null_message_400 : response :=
  mkResponse 400
    "400 Client Error: Bad Request for url: https://api.openai.com/v1/chat/completions"
    (JsonOk (JObj [("error", JObj [("message", JNull)])])).

(** A concrete engine and surroundings: the box adjustment returns the box,
    every crop encodes, every request is answered with a recognised text. *)
Definition demo_engine : GPTOCR.engine := GPTOCR.mkEngine (Some "sk-test") 0.

Definition demo_reply : response :=
  mkResponse 200 "OK"
    (JsonOk (JObj [("choices",
       JArr [JObj [("message", JObj [("content", JStr "konnichiwa")])]])])).

Definition demo_world : GPTOCR.world :=
  GPTOCR.mkWorld (fun box _ _ => Ok box) (fun _ => Ok "aW1n") (fun _ _ => Ok demo_reply).

Definition server_down : GPTOCR.world :=
  GPTOCR.mkWorld (fun box _ _ => Ok box) (fun _ => Ok "aW1n")
          (fun _ _ => Ok (mkResponse 503 "Service Unavailable" (JsonFails ValueError ""))).

Definition stale_block : TextBlock :=
  mkTextBlock (0, 0, 10, 10)%Z (Some (5, 5, 3, 3)%Z) (JStr "old") (JStr "").

Definition fresh_block : TextBlock :=
  mkTextBlock (0, 0, 10, 10)%Z None (JStr "old") (JStr "").

(** *** A studio for the batch run *)

(** A small [os.path]: the part of a path before and from the last
    occurrence of a character. *)
Fixpoint split_last (c : ascii) (s : string) : option (string * string) :=
  match s with
  | EmptyString => None
  | String a r =>
      match split_last c r with
      | Some (before, from) => Some (String a before, from)
      | None => if Ascii.eqb a c then Some (EmptyString, s) else None
      end
  end.

Definition splitext_of (p : string) : string * string :=
  match split_last "."%char p with
  | Some r => r
  | None => (p, "")
  end.

Definition basename_of (p : string) : string :=
  match split_last "/"%char p with
  | Some (_, String _ name) => name
  | _ => p
  end.

Definition dirname_of (p : string) : string :=
  match split_last "/"%char p with
  | Some (d, _) => d
  | None => ""
  end.

Definition speech (n : Z) : TextBlock :=
  mkTextBlock (0, 0, n, n)%Z None (JStr "serifu") (JStr "").

Definition say (t : string) (b : TextBlock) : TextBlock :=
  mkTextBlock (xyxy b) (bubble_xyxy b) (text b) (JStr t).

(** Pages decode unless their file name starts with [torn]; every decoded
    page has two bubbles; inpainting, validation and rendering succeed; no
    run directory exists when the run starts.  The OCR, the translator, the
    packer and the cancellation flag are chosen by the scenario. *)
Definition studio
    (ocr : nat -> list TextBlock -> result (list TextBlock))
    (translator : nat -> list TextBlock -> result (list TextBlock))
    (packer : nat -> result unit)
    (flag : Pipeline.checkpoint -> bool) : Pipeline.world :=
  Pipeline.mkWorld dirname_of basename_of splitext_of
    (fun index path =>
       if String.prefix "torn" (basename_of path) then None
       else Some (Pipeline.Pixels (S index)))
    (fun _ _ => Ok [speech 10; speech 20])
    (fun index _ _ blks => ocr index blks)
    (fun _ img _ => Ok img)
    (fun index _ _ blks _ _ => translator index blks)
    (fun _ _ => Ok tt)
    (fun _ blks => blks)
    (fun archive_index _ _ _ _ => packer archive_index)
    (fun _ => true)
    (fun _ => false)
    flag
    (fun _ => false)
    (fun dir => "[Errno 2] No such file or directory: '" +:+ dir
                +:+ "/comic_translate_Jan-01-2025_10-00-00AM/skipped_images.log'").

Definition reads : nat -> list TextBlock -> result (list TextBlock) :=
  fun _ blks => Ok blks.

Definition translates : nat -> list TextBlock -> result (list TextBlock) :=
  fun _ blks => Ok (say "hello" <$> blks).

Definition packs : nat -> result unit := fun _ => Ok tt.

Definition never : Pipeline.checkpoint -> bool := fun _ => false.

(** Everything works and nobody cancels. *)
Definition quiet_studio : Pipeline.world := studio reads translates packs never.

Definition book (files : list string) (archives : list Pipeline.archive)
  : Pipeline.main_page :=
  Pipeline.mkMainPage files (fun _ => "Japanese") (fun _ => "English") archives
    false false false [(".cbz", "cbz"); (".zip", "zip")] "".

(** The OCR engine fails on the page at position 1. *)
Definition ocr_down_on_second : Pipeline.world :=
  studio (fun index blks =>
            if (index =? 1)%nat then Raise (raise_exn OtherException "engine offline")
            else Ok blks)
         translates packs never.

(** The OCR engine fails on the page at position 0. *)
Definition ocr_down_on_first : Pipeline.world :=
  studio (fun index blks =>
            if (index =? 0)%nat then Raise (raise_exn OtherException "engine offline")
            else Ok blks)
         translates packs never.

(** The user cancels while the flush after page 0 announces the
    translation: the flag is set when it is read at step 6 of page 0, and at
    every later reading. *)
Definition cancel_before_translation : Pipeline.world :=
  studio reads translates packs
    (fun ck =>
       match ck with
       | Pipeline.at_stage index step => (0 <? index)%nat || (6 <=? step)%nat
       | _ => true
       end).

(** The user cancels after the first archive was packed: the flag is set
    when it is read at step 3 of the first archive, and at every later
    reading. *)
Definition cancel_after_packing : Pipeline.world :=
  studio reads translates packs
    (fun ck =>
       match ck with
       | Pipeline.at_archive archive_index step =>
           (0 <? archive_index)%nat || (3 <=? step)%nat
       | _ => false
       end).

(** The packer fails on the first archive. *)
Definition packer_fails_on_first : Pipeline.world :=
  studio reads translates
    (fun archive_index =>
       if (archive_index =? 0)%nat then Raise (raise_exn OtherException "disk full")
       else Ok tt)
    never.

(** The translator fails in the flush after the page at position 19. *)
Definition translator_fails_on_second_batch : Pipeline.world :=
  studio reads
    (fun index blks =>
       if (index =? 19)%nat then Raise (raise_exn RuntimeError "Rate limit exceeded")
       else Ok (say "hello" <$> blks))
    packs never.

(** The translator fails whenever it is called. *)
Definition translator_down : Pipeline.world :=
  studio reads (fun _ _ => Raise (raise_exn RuntimeError "Rate limit exceeded"))
    packs never.

Definition page (n : nat) : string :=
  "/books/" +:+ String (ascii_of_nat (97 + n)) ".png".

Definition two_volumes : list Pipeline.archive :=
  [Pipeline.mkArchive "/books/vol1.cbz" ["/tmp/vol1/a.png"];
   Pipeline.mkArchive "/books/vol2.cbz" ["/tmp/vol2/a.png"]].

(** The record of the page at position [n], with the given blocks. *)
Definition sheet (n : nat) (blks : list TextBlock) : Pipeline.image_data :=
  Pipeline.mkData (page n) n (Pipeline.Pixels (S n)) blks "Japanese" "English"
    (Pipeline.mkLoc "/books" "" (String (ascii_of_nat (97 + n)) "") ".png")
    (Pipeline.Pixels (S n)) false "".

Definition shelf : list Pipeline.image_data :=
  [sheet 0 [speech 10; speech 20]; sheet 1 [speech 30]].

(** Two pages wait in the batch. *)
Definition pending : Pipeline.state :=
  Pipeline.mkState [] shelf [0; 1] [(page 0, 0); (page 1, 1)] true.

End Scenarios.

(** ** More concrete runs *)

Module MoreScenarios.
Import Py Scenarios.

(** The detector fails on the page at position 1; everything else works. *)
Definition detector_down_on_second : Pipeline.world :=
  Pipeline.mkWorld dirname_of basename_of splitext_of
    (fun index _ => Some (Pipeline.Pixels (S index)))
    (fun index _ =>
       if (index =? 1)%nat then Raise (raise_exn RuntimeError "CUDA out of memory")
       else Ok [speech 10; speech 20])
    (fun _ _ _ blks => Ok blks)
    (fun _ img _ => Ok img)
    (fun _ _ _ blks _ _ => Ok (say "hello" <$> blks))
    (fun _ _ => Ok tt)
    (fun _ blks => blks)
    (fun _ _ _ _ _ => Ok tt)
    (fun _ => true)
    (fun _ => false)
    never
    (fun _ => false)
    (fun dir => "[Errno 2] No such file or directory: '" +:+ dir
                +:+ "/comic_translate_Jan-01-2025_10-00-00AM/skipped_images.log'").

(** An archive in a format the settings have no target for. *)
Definition rar_volume : Pipeline.archive :=
  Pipeline.mkArchive "/books/vol3.RAR" ["/tmp/vol3/a.png"].

(** The endpoint recognises two lines of text in every crop. *)
Definition two_line_reply : response :=
  mkResponse 200 "OK"
    (JsonOk (JObj [("choices",
       JArr [JObj [("message",
         JObj [("content", JStr ("first" +:+ GPTOCR.newline +:+ "second"))])]])])).

Definition two_line_world : GPTOCR.world :=
  GPTOCR.mkWorld (fun box _ _ => Ok box) (fun _ => Ok "aW1n")
    (fun _ _ => Ok two_line_reply).

(** The endpoint answers every request with a rate-limit error inside a 200
    answer. *)
Definition throttled_world : GPTOCR.world :=
  GPTOCR.mkWorld (fun box _ _ => Ok box) (fun _ => Ok "aW1n")
    (fun _ _ => Ok rate_limited).

(** The endpoint answers every request with an error member that is a plain
    string, inside a 200 answer. *)
Definition quota_reply : response :=
  mkResponse 200 "OK" (JsonOk (JObj [("error", JStr "quota exceeded")])).

Definition quota_world : GPTOCR.world :=
  GPTOCR.mkWorld (fun box _ _ => Ok box) (fun _ => Ok "aW1n")
    (fun _ _ => Ok quota_reply).

(** An HTTP 429 answer whose error object has no code. *)
Definition too_many_requests : response :=
  mkResponse 429 "429 Client Error: Too Many Requests"
    (JsonOk (JObj [("error",
       JObj [("message", JStr "slow down");
             ("metadata", JObj [("provider_name", JStr "OpenAI")])])])).

(** A 200 answer with an empty list of choices and a top-level content. *)
Definition content_reply : response :=
  mkResponse 200 "OK"
    (JsonOk (JObj [("choices", JArr []); ("content", JStr "hello");
                   ("response", JStr "ignored")])).

(** Every inpainter is registered and can be built; inpainting returns the
    page. *)
Definition workshop : Workbench.world :=
  Workbench.mkWorld (fun _ => true) (fun _ _ => Ok tt) (fun _ img _ => Ok img).

(** Two strokes with the same inpainter; the GPU is switched off in
    between. *)
Definition two_strokes : list Workbench.request :=
  [Workbench.mkRequest "LaMa" true (Pipeline.Pixels 1) 1;
   Workbench.mkRequest "LaMa" false (Pipeline.Pixels 1) 2].

(** A machine with the Qt tools installed, on which [lrelease] succeeds. *)
Definition build_host : Scripts.host :=
  Scripts.mkHost "/src/app/translations/ct_ka.ts" "/src/app/translations/ct_ka.qm"
    true (Scripts.tools_at "/usr/lib/qt6/bin") false
    (fun p => String.eqb p "/usr/lib/qt6/bin/lrelease") (fun _ => Ok 0%Z).

(** A resource file without the Georgian translation, on a disk that
    accepts every write. *)
Definition old_resource_text : string :=
  "# Resource object code" +:+ String "010"%char
    ("qt_resource_name = b" +:+ String Scripts.quote
       ("ct_en.qm" +:+ String Scripts.quote EmptyString)).

Definition old_disk : Scripts.files :=
  Scripts.mkFiles (fun _ => true) (fun _ => Ok old_resource_text) (fun _ _ => Ok tt).

End MoreScenarios.
(** ** Properties of the translation adapter *)

Module GPTTranslationFacts.
Import Py ChatCompletions GPTTranslation Scenarios.

(** Case analysis on the first call of a sequence, in a hypothesis about
    the whole sequence or in the goal. *)
Ltac bind_in H :=
  match type of H with
  | context [bind ?r _] =>
      let E := fresh "E" in destruct r eqn:E; cbn [bind] in H
  end.

Ltac if_in H :=
  match type of H with
  | context [if ?b then _ else _] => let E := fresh "E" in destruct b eqn:E
  end.

Ltac case_bind :=
  match goal with
  | |- context [bind ?r _] =>
      let E := fresh "E" in destruct r eqn:E; cbn [bind]
  end.

Ltac returns_in H := repeat first [discriminate H | bind_in H | if_in H].

Lemma raise_for_status_ok r :
  raise_for_status r = Ok tt <-> ~ http_error_status r.
Proof.
  unfold raise_for_status, http_error_status.
  destruct (400 <=? status_code r)%Z eqn:E1, (status_code r <? 600)%Z eqn:E2;
    cbn; split; intros H; try discriminate; try reflexivity; try lia;
    exfalso; apply H; lia.
Qed.

Lemma raise_for_status_error r :
  http_error_status r ->
  raise_for_status r = Raise (mkExn HTTPError (status_text r) (Some r)).
Proof.
  unfold raise_for_status, http_error_status. intros [H1 H2].
  apply Z.leb_le in H1. apply Z.ltb_lt in H2. now rewrite H1, H2.
Qed.

Section Formatting.
Variable py_str : json -> string.
Variable json_dumps : json -> string.

Lemma raise_api_error_never_returns doc v :
  raise_api_error py_str doc <> Ok v.
Proof.
  unfold raise_api_error. intros H. returns_in H.
Qed.

Lemma from_choices_extracted doc v :
  from_choices doc = Ok (Some v) -> extracted_from doc v.
Proof.
  unfold from_choices. intros H.
  returns_in H; injection H as ->.
  all: try (eapply from_choice_text; eauto; fail).
  all: try (eapply from_message_content; eauto; fail).
Qed.

Lemma extract_translation_returns doc v :
  extract_translation py_str doc = Ok v ->
  py_in "error" doc = Ok false /\ extracted_from doc v.
Proof.
  unfold extract_translation. intros H.
  bind_in H; [|discriminate]. destruct a.
  { now apply raise_api_error_never_returns in H. }
  split; [reflexivity|].
  bind_in H; [|discriminate]. destruct a as [w|].
  { injection H as ->. now apply from_choices_extracted. }
  bind_in H; [|discriminate]. destruct a.
  { now apply from_content. }
  bind_in H; [|discriminate]. destruct a; [|discriminate].
  now apply from_response.
Qed.

Lemma make_api_request_returns base post v :
  _make_api_request py_str json_dumps base post = Ok v ->
  exists r doc,
    post (api_url base) = Ok r /\ ~ http_error_status r /\
    json_of r = JsonOk doc /\ py_in "error" doc = Ok false /\
    extracted_from doc v.
Proof.
  unfold _make_api_request. intros H.
  destruct (post (api_url base)) as [r|e] eqn:Hpost; cbn [bind] in H.
  2:{ destruct (is_request_exception e); discriminate. }
  destruct (raise_for_status r) as [[]|e] eqn:Hst; cbn [bind] in H.
  2:{ destruct (is_request_exception e); discriminate. }
  unfold response_json in H.
  destruct (json_of r) as [doc|cls msg] eqn:Hjson; cbn [bind] in H.
  2:{ destruct (is_request_exception _); discriminate. }
  destruct (extract_translation py_str doc) as [w|e] eqn:Hex.
  2:{ destruct (is_request_exception e); discriminate. }
  injection H as ->. apply extract_translation_returns in Hex as [He Hv].
  exists r, doc. rewrite raise_for_status_ok in Hst. auto.
Qed.

Lemma make_api_request_request_exception base post e :
  post (api_url base) = Raise e -> is_request_exception e = true ->
  _make_api_request py_str json_dumps base post
  = Raise (raise_exn RuntimeError (request_error_message py_str json_dumps e)).
Proof.
  unfold _make_api_request. intros -> Hreq. cbn [bind]. now rewrite Hreq.
Qed.

Lemma make_api_request_http_error base post r :
  post (api_url base) = Ok r -> http_error_status r ->
  _make_api_request py_str json_dumps base post
  = Raise (raise_exn RuntimeError
             (request_error_message py_str json_dumps
                (mkExn HTTPError (status_text r) (Some r)))).
Proof.
  unfold _make_api_request. intros -> Hst. cbn [bind].
  now rewrite (raise_for_status_error _ Hst).
Qed.

Lemma raise_api_error_well_formed members info :
  dict_lookup "error" members = Some (JObj info) ->
  well_formed_error info ->
  exists msg, raise_api_error py_str (JObj members)
              = Raise (raise_exn RuntimeError msg).
Proof.
  intros Herr [Hmsg Hmeta]. unfold raise_api_error.
  cbn [py_getitem]. rewrite Herr. cbn [bind py_get].
  assert (Hprov : forall (k : json -> result json),
             (forall p, exists msg, k p = Raise (raise_exn RuntimeError msg)) ->
             exists msg,
               (let! metadata := Ok (default (JObj []) (dict_lookup "metadata" info)) in
                let! provider := py_get metadata "provider_name" (JStr "API provider") in
                k provider) = Raise (raise_exn RuntimeError msg)).
  { intros k Hk. cbn [bind].
    destruct (dict_lookup "metadata" info) as [m|] eqn:Hm; cbn [default].
    - destruct (Hmeta m eq_refl) as [d ->]. cbn [py_get bind]. apply Hk.
    - cbn [py_get bind]. apply Hk. }
  assert (Hlow : exists s, py_lower (default (JStr "Unknown API error")
                                       (dict_lookup "message" info)) = Ok s).
  { destruct (dict_lookup "message" info) as [m|] eqn:Hm; cbn [default].
    - destruct (Hmsg m eq_refl) as [s ->]. cbn. eauto.
    - cbn. eauto. }
  destruct Hlow as [low Hlow]. unfold is_rate_limit. rewrite Hlow.
  destruct (py_eq_429 _); cbn [bind].
  - apply Hprov. eauto.
  - destruct (contains "rate limit" low).
    + apply Hprov. eauto.
    + eauto.
Qed.

Lemma extract_translation_unrecognized members :
  dict_lookup "error" members = None ->
  dict_lookup "choices" members = None ->
  dict_lookup "content" members = None ->
  dict_lookup "response" members = None ->
  exists msg, extract_translation py_str (JObj members)
              = Raise (raise_exn ValueError msg).
Proof.
  intros He Hc Hn Hr. unfold extract_translation, from_choices.
  cbn [py_in]. rewrite He, Hc, Hn, Hr. cbn. eauto.
Qed.

(** What [_make_api_request] does in general.  It returns normally only
    with a value taken from the response document (the first choice's message
    content or text, or the top-level content or response member) of a
    response without error status and without an error member.  In every
    listed failure (a request exception, a 4xx or 5xx status, a document with
    an error member, a document nothing can be extracted from) it raises and
    returns nothing.  The raised exception is a [RuntimeError] for a request
    exception, for an error status, and for an error member that is an object
    with a string message and object metadata; it is a [ValueError] for an
    object document with none of the members error, choices, content and
    response. *)
Theorem make_api_request_raises_unless_extracted base post :
  let outcome := _make_api_request py_str json_dumps base post in
  (forall v, outcome = Ok v ->
     exists r doc,
       post (api_url base) = Ok r /\ ~ http_error_status r /\
       json_of r = JsonOk doc /\ py_in "error" doc = Ok false /\
       extracted_from doc v) /\
  (listed_failure (post (api_url base)) -> exists e, outcome = Raise e) /\
  (forall e, post (api_url base) = Raise e -> is_request_exception e = true ->
     exists msg, outcome = Raise (raise_exn RuntimeError msg)) /\
  (forall r, post (api_url base) = Ok r -> http_error_status r ->
     exists msg, outcome = Raise (raise_exn RuntimeError msg)) /\
  (forall r members info,
     post (api_url base) = Ok r -> ~ http_error_status r ->
     json_of r = JsonOk (JObj members) ->
     dict_lookup "error" members = Some (JObj info) -> well_formed_error info ->
     exists msg, outcome = Raise (raise_exn RuntimeError msg)) /\
  (forall r members,
     post (api_url base) = Ok r -> ~ http_error_status r ->
     json_of r = JsonOk (JObj members) ->
     dict_lookup "error" members = None ->
     dict_lookup "choices" members = None ->
     dict_lookup "content" members = None ->
     dict_lookup "response" members = None ->
     exists msg, outcome = Raise (raise_exn ValueError msg)).
Proof.
  intros outcome. split; [|split; [|split; [|split; [|split]]]].
  - intros v Hv. now apply make_api_request_returns.
  - intros Hfail. destruct outcome as [v|e] eqn:Hout; [|eauto]. exfalso.
    apply make_api_request_returns in Hout
      as (r & doc & Hpost & Hst & Hjson & Herr & Hex).
    destruct Hfail as [e Hp _|r' Hp Hs|r' doc' Hp (_ & Hj & He)
                      |r' doc' Hp (_ & Hj & _ & Hno)];
      rewrite Hpost in Hp; try discriminate; injection Hp as <-.
    + contradiction.
    + rewrite Hjson in Hj. injection Hj as <-. rewrite Herr in He. discriminate.
    + rewrite Hjson in Hj. injection Hj as <-. now apply (Hno v).
  - intros e Hp He. eexists. subst outcome.
    apply make_api_request_request_exception; eassumption.
  - intros r Hp Hs. eexists. subst outcome.
    apply make_api_request_http_error; eassumption.
  - intros r members info Hp Hs Hj Herr Hwf.
    destruct (raise_api_error_well_formed members info Herr Hwf) as [msg Hmsg].
    exists msg. subst outcome. unfold _make_api_request.
    rewrite Hp. cbn [bind]. apply raise_for_status_ok in Hs. rewrite Hs.
    cbn [bind]. unfold response_json. rewrite Hj. cbn [bind].
    unfold extract_translation. cbn [py_in]. rewrite Herr. cbn [bind].
    change (bool_decide (is_Some (Some (JObj info)))) with true.
    cbn iota. rewrite Hmsg. reflexivity.
  - intros r members Hp Hs Hj He Hc Hn Hr.
    destruct (extract_translation_unrecognized members He Hc Hn Hr) as [msg Hmsg].
    exists msg. subst outcome. unfold _make_api_request.
    rewrite Hp. cbn [bind]. apply raise_for_status_ok in Hs. rewrite Hs.
    cbn [bind]. unfold response_json. rewrite Hj. cbn [bind].
    rewrite Hmsg. reflexivity.
Qed.

End Formatting.

(** The statement above at a rate-limit report. *)
Lemma make_api_request_rate_limited :
  exists msg,
    _make_api_request plain_str plain_str "https://api.openai.com/v1"
      (fun _ => Ok rate_limited)
    = Raise (raise_exn RuntimeError msg).
Proof.
  refine (proj1 (proj2 (proj2 (proj2 (proj2
    (make_api_request_raises_unless_extracted plain_str plain_str
       "https://api.openai.com/v1" (fun _ => Ok rate_limited))))))
    rate_limited _ _ eq_refl _ eq_refl eq_refl _).
  - unfold http_error_status; cbn; lia.
  - split; intros m Hm; cbn in Hm; [|discriminate].
    injection Hm as <-. eauto.
Defined.

(** C10 fails on the code.  The provider answers with status 200 and an
    error object whose message is null.  Lines 115 to 126 set out to raise a
    [RuntimeError] for every error member, but the rate-limit test calls
    [error_message.lower()] on the null message: the [AttributeError] it
    raises is neither a [RuntimeError] nor a [ValueError], and the handler of
    [RequestException] does not catch it.  The handler of the HTTP errors
    makes the same test on the same object inside a bare [except], and
    reports the failure as a [RuntimeError]. *)
Theorem make_api_request_error_object_attribute_error :
  listed_failure (Ok null_message) /\
  _make_api_request plain_str plain_str "https://api.openai.com/v1"
    (fun _ => Ok null_message)
  = Raise (raise_exn AttributeError "'NoneType' object has no attribute 'lower'") /\
  ~ (exists e,
       _make_api_request plain_str plain_str "https://api.openai.com/v1"
         (fun _ => Ok null_message) = Raise e /\
       (exn_class_of e = RuntimeError \/ exn_class_of e = ValueError)) /\
  json_of null_message_400 = json_of null_message /\
  _make_api_request plain_str plain_str "https://api.openai.com/v1"
    (fun _ => Ok null_message_400)
  = Raise (raise_exn RuntimeError
             ("API request failed: " +:+ status_text null_message_400
              +:+ " - Status code: 400")).
Proof.
  split; [|split; [|split; [|split]]].
  - eapply fails_api_error; [reflexivity|].
    split; [unfold http_error_status; cbn; lia|]. split; reflexivity.
  - reflexivity.
  - intros (e & He & Hc). vm_compute in He. injection He as <-.
    destruct Hc as [Hc|Hc]; discriminate Hc.
  - reflexivity.
  - reflexivity.
Qed.

(** The same happens when the error member is a plain string. *)
Example make_api_request_error_string :
  _make_api_request plain_str plain_str "https://api.openai.com/v1"
    (fun _ => Ok (mkResponse 200 "OK"
                    (JsonOk (JObj [("error", JStr "quota exceeded")]))))
  = Raise (raise_exn AttributeError "'str' object has no attribute 'get'").
Proof. reflexivity. Qed.

Example make_api_request_success :
  _make_api_request plain_str plain_str "https://api.openai.com/v1"
    (fun _ => Ok (mkResponse 200 "OK"
       (JsonOk (JObj [("choices",
          JArr [JObj [("message", JObj [("content", JStr "hello")])]])]))))
  = Ok (JStr "hello").
Proof. reflexivity. Qed.

Example make_api_request_not_found :
  _make_api_request plain_str plain_str "https://api.openai.com/v1"
    (fun _ => Ok (mkResponse 404 "404 Client Error" (JsonFails ValueError "no JSON")))
  = Raise (raise_exn RuntimeError
             "API request failed: 404 Client Error - Status code: 404").
Proof. reflexivity. Qed.

End GPTTranslationFacts.

(** ** Properties of the OCR adapter *)

Module GPTOCRFacts.
Import Py ChatCompletions GPTOCR Scenarios.

Section Formatting.
Variable py_str : json -> string.

Lemma process_block_geometry self w shape n blk :
  let blk' := process_block py_str self w shape n blk in
  xyxy blk' = xyxy blk /\ bubble_xyxy blk' = bubble_xyxy blk /\
  translation blk' = translation blk.
Proof.
  unfold process_block.
  destruct (block_coords self w blk) as [c|e]; cbn [bind]; [|now cbn].
  destruct (valid_coords c shape); [|now cbn].
  destruct (encode_crop w c) as [image|e]; cbn [bind]; [|now cbn].
  destruct (_get_gpt_ocr py_str self (post w n) image); now cbn.
Qed.

Lemma process_block_failure self w shape n blk :
  block_fails self w shape n blk ->
  text (process_block py_str self w shape n blk) = JStr "".
Proof.
  unfold process_block.
  intros [e Hc|c e Hc Hv He|c image Hc Hv He Hk|c image e Hc Hv He Hp
         |c image r Hc Hv He Hp Hs|c image r cls msg Hc Hv He Hp Hj];
    rewrite Hc; cbn [bind]; try reflexivity; rewrite Hv, He; cbn [bind];
    try reflexivity.
  - unfold _get_gpt_ocr. now rewrite Hk.
  - unfold _get_gpt_ocr. destruct (key_missing self); [reflexivity|].
    now rewrite Hp.
  - unfold _get_gpt_ocr. destruct (key_missing self); [reflexivity|].
    rewrite Hp. cbn [bind]. apply Z.eqb_neq in Hs. now rewrite Hs.
  - unfold _get_gpt_ocr. destruct (key_missing self); [reflexivity|].
    rewrite Hp. cbn [bind]. destruct (status_code r =? 200)%Z; [|reflexivity].
    unfold response_json. now rewrite Hj.
Qed.

Lemma process_block_bad_coordinates self w shape n blk :
  bad_coordinates self w shape blk ->
  process_block py_str self w shape n blk = blk.
Proof.
  intros (c & Hc & Hv). unfold process_block. now rewrite Hc; cbn [bind]; rewrite Hv.
Qed.

Lemma process_blocks_lookup self w shape k blks i :
  process_blocks py_str self w shape k blks !! i
  = process_block py_str self w shape (k + i) <$> blks !! i.
Proof.
  revert k i. induction blks as [|b blks IH]; intros k i; [now destruct i|].
  destruct i as [|i]; cbn.
  - now rewrite Nat.add_0_r.
  - rewrite IH. now replace (S k + i) with (k + S i) by lia.
Qed.

Lemma process_blocks_length self w shape k blks :
  length (process_blocks py_str self w shape k blks) = length blks.
Proof. revert k. induction blks; intros k; cbn; [reflexivity|now rewrite IHblks]. Qed.

(** C9, amended.  [process_image] is total: whatever is raised while one
    block is processed is caught in that iteration, and the list comes back
    with the same length and the same geometry.  When the work on a block
    fails (its box cannot be computed, the crop cannot be encoded, the key is
    missing, the request raises, the status is not 200, the body is not JSON)
    the text of that block becomes the empty string.  A block whose box does
    not pass the validity test is left as it was: its text keeps its previous
    value. *)
Theorem process_image_isolates_block_failures self w shape blk_list :
  let out := process_image py_str self w shape blk_list in
  length out = length blk_list /\
  forall n blk, blk_list !! n = Some blk ->
    exists blk',
      out !! n = Some blk' /\
      xyxy blk' = xyxy blk /\ bubble_xyxy blk' = bubble_xyxy blk /\
      translation blk' = translation blk /\
      (block_fails self w shape n blk -> text blk' = JStr "") /\
      (bad_coordinates self w shape blk -> blk' = blk).
Proof.
  cbn zeta. unfold process_image. split; [apply process_blocks_length|].
  intros n blk Hn. exists (process_block py_str self w shape n blk).
  rewrite process_blocks_lookup, Hn. cbn.
  destruct (process_block_geometry self w shape n blk) as (Hx & Hb & Ht).
  repeat split; auto.
  - apply process_block_failure.
  - apply process_block_bad_coordinates.
Qed.

End Formatting.

Example process_image_reads_text :
  process_image plain_str demo_engine demo_world (100, 100)%Z
    [fresh_block]
  = [set_text fresh_block (JStr "konnichiwa")].
Proof. reflexivity. Qed.

(** The amended statement at a block whose request is answered with 503. *)
Lemma process_image_server_down :
  exists blk',
    process_image plain_str demo_engine server_down
      (100, 100)%Z [fresh_block] !! 0 = Some blk' /\
    text blk' = JStr "".
Proof.
  destruct (proj2 (process_image_isolates_block_failures
                     plain_str demo_engine server_down
                     (100, 100)%Z [fresh_block]) 0 fresh_block eq_refl)
    as (blk' & Hout & _ & _ & _ & Hfail & _).
  exists blk'. split; [exact Hout|]. apply Hfail.
  eapply status_not_200; try reflexivity. cbn. lia.
Defined.

(** C9 as stated fails for bad coordinates: a block whose bubble box is
    inverted fails the validity test, nothing is raised, and the text it
    carried before the call is still there afterwards. *)
Lemma process_image_bad_coordinates_keep_text :
  bad_coordinates demo_engine demo_world (100, 100)%Z stale_block /\
  process_image plain_str demo_engine demo_world (100, 100)%Z
    [stale_block] = [stale_block] /\
  text stale_block <> JStr "".
Proof.
  split; [|split].
  - exists (5, 5, 3, 3)%Z. split; reflexivity.
  - reflexivity.
  - discriminate.
Qed.

End GPTOCRFacts.

(** ** Properties of the translation batch *)

Module BatchFacts.
Import Py Pipeline Scenarios.

(** *** Dictionaries *)

Lemma range_eqb_eq a b : range_eqb a b = true <-> a = b.
Proof.
  destruct a as [a1 a2], b as [b1 b2]. unfold range_eqb. cbn.
  rewrite andb_true_iff, !Nat.eqb_eq. split; [intros []; congruence|].
  intros [= -> ->]. auto.
Qed.

Section Dict.
Context {K V : Type} (eqb : K -> K -> bool).
Hypothesis eqb_eq : forall a b, eqb a b = true <-> a = b.

Lemma dict_set_fresh (k : K) (v : V) d :
  k ∉ d.*1 -> dict_set eqb k v d = d ++ [(k, v)].
Proof using eqb_eq.
  induction d as [|[k' v'] d IH]; cbn; [reflexivity|]. intros Hk.
  apply not_elem_of_cons in Hk as [Hne Hk].
  destruct (eqb k k') eqn:E; [apply eqb_eq in E; contradiction|].
  now rewrite IH.
Qed.

Lemma dict_set_keys_present (k : K) (v : V) d :
  k ∈ d.*1 -> (dict_set eqb k v d).*1 = d.*1.
Proof using eqb_eq.
  induction d as [|[k' v'] d IH]; cbn; [now intros ?%elem_of_nil|].
  intros Hk. destruct (eqb k k') eqn:E.
  - apply eqb_eq in E. now subst.
  - cbn. f_equal. apply IH. apply elem_of_cons in Hk as [->|Hk]; [|exact Hk].
    assert (eqb k' k' = true) by now apply eqb_eq. congruence.
Qed.

Lemma dict_set_Forall (P : K * V -> Prop) (k : K) (v : V) d :
  Forall P d -> P (k, v) -> Forall P (dict_set eqb k v d).
Proof.
  induction 1 as [|[k' v'] d Hx Hd IH]; cbn; intros Hkv.
  - now constructor.
  - destruct (eqb k k'); constructor; auto.
Qed.

Lemma dict_set_elem (k : K) (v : V) d x :
  x ∈ dict_set eqb k v d -> x ∈ d \/ x = (k, v).
Proof.
  induction d as [|[k' v'] d IH]; cbn.
  - intros ->%list_elem_of_singleton. now right.
  - destruct (eqb k k').
    + intros [->|Hin]%elem_of_cons; [now right|]. left. now apply elem_of_cons; right.
    + intros [->|Hin]%elem_of_cons; [left; apply elem_of_cons; now left|].
      destruct (IH Hin) as [H|H]; [|now right]. left. apply elem_of_cons. now right.
Qed.

Lemma dict_set_length_fresh (k : K) (v : V) d :
  k ∉ d.*1 -> length (dict_set eqb k v d) = S (length d).
Proof using eqb_eq.
  intros Hk. rewrite dict_set_fresh by exact Hk. rewrite length_app. cbn. lia.
Qed.

End Dict.

(** *** Ranges *)

Lemma contiguous_snoc a rs b c :
  contiguous a rs b -> b <= c -> contiguous a (rs ++ [(b, c)]) c.
Proof.
  revert a. induction rs as [|r rs IH]; cbn; intros a.
  - intros -> Hle. auto.
  - intros (H1 & H2 & H3) Hle. auto.
Qed.

Lemma contiguous_bounds a rs b :
  contiguous a rs b ->
  a <= b /\ Forall (fun r => a <= fst r /\ snd r <= b) rs.
Proof.
  revert a. induction rs as [|r rs IH]; cbn; intros a.
  - intros ->. split; [lia|constructor].
  - intros (H1 & H2 & H3). destruct (IH _ H3) as [Hle Hall].
    split; [lia|]. constructor; [lia|].
    eapply Forall_impl; [exact Hall|]. cbn. intros x. lia.
Qed.

Lemma contiguous_sum a rs b :
  contiguous a rs b -> sum_list (range_length <$> rs) = b - a.
Proof.
  revert a. induction rs as [|r rs IH]; cbn; intros a.
  - intros ->. lia.
  - intros (H1 & H2 & H3). rewrite (IH _ H3). unfold range_length.
    apply contiguous_bounds in H3 as [H3 _]. lia.
Qed.

Lemma slice_app_le {A} (l k : list A) s e :
  e <= length l -> slice (l ++ k) s e = slice l s e.
Proof.
  intros He. unfold slice. rewrite drop_app, take_app_le; [reflexivity|].
  rewrite length_drop. lia.
Qed.

Lemma slice_suffix {A} (l k : list A) :
  slice (l ++ k) (length l) (length l + length k) = k.
Proof.
  unfold slice. rewrite drop_app_length.
  replace (length l + length k - length l) with (length k) by lia.
  apply take_ge. lia.
Qed.

(** *** The merge loop *)

Lemma merge_batch_snoc h batch ref :
  merge_batch h (batch ++ [ref]) = merge_one h (merge_batch h batch) ref.
Proof. unfold merge_batch. now rewrite fold_left_app. Qed.

Lemma merge_batch_ok h batch : merged_ok h batch (merge_batch h batch).
Proof.
  induction batch as [|ref batch IH] using rev_ind.
  { split; cbn; auto; constructor. }
  rewrite merge_batch_snoc. destruct IH as [Hc Hi Hg He Ho].
  set (m := merge_batch h batch) in *.
  set (blks := blk_list (deref h ref)).
  assert (Hcomb : combined_blk_list (merge_one h m ref) = combined_blk_list m ++ blks)
    by reflexivity.
  assert (Hbound := contiguous_bounds _ _ _ Hg). destruct Hbound as [_ Hbound].
  assert (Hfresh : blks <> [] ->
            (current_combined_index m, current_combined_index m + length blks)
            ∉ (batch_indices_map m).*1).
  { intros Hne Hin. rewrite Forall_forall in Hbound.
    apply Hbound in Hin. cbn in Hin. rewrite Hi in Hin.
    destruct blks; [congruence|]. cbn in Hin. lia. }
  split.
  - rewrite Hcomb, Hc, fmap_app, concat_app. cbn. now rewrite app_nil_r.
  - cbn. rewrite length_app, Hi. reflexivity.
  - rewrite Hcomb. cbn [merge_one batch_indices_map].
    fold blks.
    destruct (decide ((current_combined_index m,
                       current_combined_index m + length blks)
                      ∈ (batch_indices_map m).*1)) as [Hin|Hout].
    + rewrite (dict_set_keys_present _ range_eqb_eq) by exact Hin.
      assert (Hnil : blks = []).
      { destruct blks as [|b blks'] eqn:Eb; [reflexivity|].
        exfalso. apply Hfresh; [discriminate|exact Hin]. }
      rewrite Hnil, app_nil_r. exact Hg.
    + rewrite (dict_set_fresh _ range_eqb_eq) by exact Hout.
      rewrite fmap_app. cbn. rewrite length_app, Hi.
      apply contiguous_snoc; [exact Hg|lia].
  - cbn [merge_one batch_indices_map]. fold blks.
    apply dict_set_Forall.
    + rewrite Forall_forall in He. rewrite Forall_forall in Hbound.
      rewrite Forall_forall. intros entry Hin. destruct (He entry Hin) as [Hlen Hsl].
      split; [exact Hlen|]. rewrite Hcomb, slice_app_le; [exact Hsl|].
      apply (Hbound (fst entry)). now apply list_elem_of_fmap_2.
    + cbn. split.
      * unfold range_length, blks. cbn. lia.
      * rewrite Hi. apply slice_suffix.
  - intros [Hb Hr]%Forall_app. rewrite Forall_singleton in Hr.
    cbn [merge_one batch_indices_map]. fold blks.
    rewrite (dict_set_fresh _ range_eqb_eq) by (apply Hfresh; exact Hr).
    rewrite fmap_app, (Ho Hb). reflexivity.
Qed.

(** C1.  In every flush the ranges of [batch_indices_map] follow one another
    from 0 to the length of the combined list, without gap or overlap; the
    range of a record has the length of its block list and selects exactly
    those blocks in the combined list, which is the concatenation of the block
    lists in batch order; the lengths of the ranges add up to the length of
    the combined list.  When no block list is empty (the loop only stores
    images that have blocks) there is one range per record, in the order the
    records were appended. *)
Theorem batch_ranges_partition (h : list image_data) (batch : list nat) :
  let m := merge_batch h batch in
  combined_blk_list m = concat ((fun ref => blk_list (deref h ref)) <$> batch) /\
  contiguous 0 (batch_indices_map m).*1 (length (combined_blk_list m)) /\
  Forall (fun entry =>
            range_length (fst entry) = length (blk_list (deref h (snd entry))) /\
            slice (combined_blk_list m) (fst (fst entry)) (snd (fst entry))
            = blk_list (deref h (snd entry)))
         (batch_indices_map m) /\
  sum_list (range_length <$> (batch_indices_map m).*1)
  = length (combined_blk_list m) /\
  (Forall (fun ref => blk_list (deref h ref) <> []) batch ->
   (batch_indices_map m).*2 = batch).
Proof.
  intros m. destruct (merge_batch_ok h batch) as [Hc Hi Hg He Ho]. fold m in Hc, Hi, Hg, He, Ho.
  repeat split; auto.
  rewrite (contiguous_sum _ _ _ Hg). lia.
Qed.

(** The statement above for two pages with two blocks and one block. *)
Lemma batch_ranges_of_two_pages :
  (batch_indices_map (merge_batch shelf [0; 1])).*1 = [(0, 2); (2, 3)] /\
  (batch_indices_map (merge_batch shelf [0; 1])).*2 = [0; 1].
Proof.
  split; [reflexivity|].
  apply (proj2 (proj2 (proj2 (proj2 (batch_ranges_partition shelf [0; 1]))))).
  repeat constructor; discriminate.
Defined.

(** *** The flush *)

Lemma cancelled_emit w e st ck : cancelled w (emit e st) ck = cancelled w st ck.
Proof. reflexivity. Qed.

Lemma translator_kept h batch m t :
  translator m = Some t -> translator (fold_left (merge_one h) batch m) = Some t.
Proof.
  revert m. induction batch as [|ref batch IH]; cbn; intros m Hm; [exact Hm|].
  apply IH. cbn. now rewrite Hm.
Qed.

Lemma translator_of_first h ref rest :
  translator (merge_batch h (ref :: rest))
  = Some (source_lang (deref h ref), target_lang (deref h ref)).
Proof. unfold merge_batch. cbn [fold_left]. now apply translator_kept. Qed.

(** The flush of a batch whose combined list is not empty: the progress
    signal, the cancellation test, then the call and its two continuations. *)
Lemma flush_nonempty w mp total index st src tgt :
  let m := merge_batch (heap st) (translation_batches st) in
  let announced := emit (progress_update index total 6 10 false) st in
  let img := image (deref (heap st) (hd 0 (translation_batches st))) in
  let called :=
    emit (translate_call src tgt (combined_blk_list m) img (extra_context mp))
         announced in
  combined_blk_list m <> [] -> translator m = Some (src, tgt) ->
  flush w mp total index st =
  if cancelled w st (at_stage index 6) then Break announced
  else match translate w index src tgt (combined_blk_list m) img (extra_context mp) with
       | Ok translated =>
           Next (with_batch []
                   (with_heap (distribute translated (batch_indices_map m) (heap st))
                      called))
       | Raise e =>
           Next (with_batch []
                   (with_heap (mark_skipped (exn_msg e) (translation_batches st) (heap st))
                      called))
       end.
Proof.
  intros m announced img called Hne Ht. unfold flush. fold m. rewrite Ht.
  destruct (combined_blk_list m) as [|b bs] eqn:Hc; [contradiction|].
  rewrite cancelled_emit. reflexivity.
Qed.

Lemma flush_clears w mp total index st st' :
  flush w mp total index st = Next st' -> translation_batches st' = [].
Proof.
  unfold flush.
  destruct (combined_blk_list _) as [|b bs]; [now intros [= <-]|].
  destruct (translator _) as [[src tgt]|]; [|now intros [= <-]].
  destruct (cancelled _ _ _); [discriminate|].
  destruct (translate _ _ _ _ _ _ _); now intros [= <-].
Qed.

Lemma flush_not_cancelled w mp total index st :
  cancelled w st (at_stage index 6) = false ->
  exists st', flush w mp total index st = Next st'.
Proof.
  intros Hc. unfold flush.
  destruct (combined_blk_list _) as [|b bs]; [eauto|].
  destruct (translator _) as [[src tgt]|]; [|eauto].
  rewrite cancelled_emit, Hc.
  destruct (translate _ _ _ _ _ _ _); eauto.
Qed.

(** *** Marking a batch as skipped *)

Lemma deref_lookup (h : list image_data) ref d : h !! ref = Some d -> deref h ref = d.
Proof. unfold deref. now intros ->. Qed.

Lemma deref_alter f (h : list image_data) i j :
  deref (alter f i h) j
  = if decide (i = j /\ j < length h) then f (deref h j) else deref h j.
Proof.
  unfold deref. destruct (decide (i = j)) as [->|Hne].
  - rewrite list_lookup_alter_eq. destruct (h !! j) as [d|] eqn:Hj; cbn.
    + apply lookup_lt_Some in Hj. now rewrite decide_True.
    + apply lookup_ge_None in Hj. rewrite decide_False; [reflexivity|lia].
  - rewrite list_lookup_alter_ne by exact Hne. rewrite decide_False; tauto.
Qed.

Lemma set_skipped_idem msg d : set_skipped msg (set_skipped msg d) = set_skipped msg d.
Proof. reflexivity. Qed.

Lemma mark_skipped_length msg batch h :
  length (mark_skipped msg batch h) = length h.
Proof.
  unfold mark_skipped. revert h. induction batch as [|ref batch IH]; intros h; cbn;
    [reflexivity|]. now rewrite IH, length_alter.
Qed.

Lemma mark_skipped_outside msg batch h ref :
  ref ∉ batch -> mark_skipped msg batch h !! ref = h !! ref.
Proof.
  unfold mark_skipped. revert h.
  induction batch as [|r batch IH]; intros h Hout; cbn; [reflexivity|].
  apply not_elem_of_cons in Hout as [Hne Hout].
  rewrite IH by exact Hout. now apply list_lookup_alter_ne.
Qed.

Lemma mark_skipped_inside msg batch h ref :
  ref ∈ batch -> ref < length h ->
  deref (mark_skipped msg batch h) ref = set_skipped msg (deref h ref).
Proof.
  unfold mark_skipped. revert h.
  induction batch as [|r batch IH]; intros h Hin Hlt; [now apply elem_of_nil in Hin|].
  cbn [fold_left]. destruct (decide (ref ∈ batch)) as [Hb|Hb].
  - rewrite IH by (rewrite ?length_alter; auto).
    rewrite deref_alter. destruct (decide _); [apply set_skipped_idem|reflexivity].
  - apply elem_of_cons in Hin as [->|Hin]; [|contradiction].
    unfold deref at 1. fold (mark_skipped msg batch (alter (set_skipped msg) r h)).
    rewrite mark_skipped_outside by exact Hb. fold (deref (alter (set_skipped msg) r h) r).
    rewrite deref_alter, decide_True; auto.
Qed.

(** *** Handing the translations back *)

Lemma merge_batch_refs h batch entry :
  entry ∈ batch_indices_map (merge_batch h batch) -> snd entry ∈ batch.
Proof.
  induction batch as [|ref batch IH] using rev_ind; [now intros ?%elem_of_nil|].
  rewrite merge_batch_snoc. cbn [merge_one batch_indices_map].
  intros [Hold| ->]%dict_set_elem; apply elem_of_app.
  - left. now apply IH.
  - right. now apply list_elem_of_singleton.
Qed.

(** A successful flush writes only into the records of its own batch. *)
Lemma distribute_outside translated ranges h ref :
  (forall entry, entry ∈ ranges -> snd entry <> ref) ->
  distribute translated ranges h !! ref = h !! ref.
Proof.
  unfold distribute. revert h.
  induction ranges as [|r ranges IH]; intros h Hout; cbn [fold_left]; [reflexivity|].
  rewrite IH by (intros entry Hin; apply Hout; apply elem_of_cons; now right).
  apply list_lookup_alter_ne. apply Hout. apply elem_of_cons. now left.
Qed.

Lemma flush_success_outside w mp total index st st' ref :
  flush w mp total index st = Next st' ->
  ref ∉ translation_batches st ->
  heap st' !! ref = heap st !! ref.
Proof.
  unfold flush. intros Hflush Hout.
  destruct (combined_blk_list _) as [|b bs]; [now injection Hflush as <-|].
  destruct (translator _) as [[src tgt]|]; [|now injection Hflush as <-].
  destruct (cancelled _ _ _); [discriminate|].
  destruct (translate _ _ _ _ _ _ _); injection Hflush as <-; cbn.
  - apply distribute_outside. intros entry Hin <-.
    apply Hout. now apply merge_batch_refs with (h := heap st).
  - now apply mark_skipped_outside.
Qed.

(** The references of the batch are valid whenever the flush is entered:
    they are valid at the start, storing a record keeps them valid, and so
    does every iteration of the main loop. *)
Lemma batch_refs_valid_initial worker : batch_refs_valid (initial worker).
Proof. constructor. Qed.

Lemma batch_refs_valid_store d st :
  batch_refs_valid st -> batch_refs_valid (store_for_batch d st).
Proof.
  unfold batch_refs_valid, store_for_batch. cbn. intros Hv.
  apply Forall_app. split.
  - eapply Forall_impl; [exact Hv|]. cbn beta. intros ref Hlt.
    rewrite length_app. cbn [length]. lia.
  - apply Forall_singleton. rewrite length_app. cbn [length]. lia.
Qed.

Lemma distribute_length translated ranges h :
  length (distribute translated ranges h) = length h.
Proof.
  unfold distribute. revert h. induction ranges as [|r ranges IH]; intros h; cbn;
    [reflexivity|]. now rewrite IH, length_alter.
Qed.

Lemma batch_refs_valid_flush w mp total index st :
  batch_refs_valid st -> batch_refs_valid (state_of (flush w mp total index st)).
Proof.
  intros Hv. unfold flush.
  destruct (combined_blk_list _) as [|b bs]; [constructor|].
  destruct (translator _) as [[src tgt]|]; [|constructor].
  destruct (cancelled _ _ _); [exact Hv|].
  destruct (translate _ _ _ _ _ _ _); constructor.
Qed.

(** *** The skip log *)

Lemma run_dir_exists_emit w e st dir :
  run_dir_exists w (emit e st) dir = run_dir_exists w st dir || makes_run_dir dir e.
Proof.
  unfold run_dir_exists. cbn [events emit]. rewrite existsb_app. cbn.
  now rewrite orb_false_r, orb_assoc.
Qed.

Lemma run_dir_exists_skip_save w l img st :
  run_dir_exists w (skip_save l img st) (directory l) = true.
Proof.
  unfold skip_save. rewrite run_dir_exists_emit. cbn.
  rewrite String.eqb_refl. apply orb_true_r.
Qed.

(** After [skip_save] the run directory exists, and the log line is
    written. *)
Lemma log_after_skip_save w l img path e st :
  log_skipped_image w (directory l) path (emit e (skip_save l img st))
  = Next (emit (append_skip_log (directory l) path) (emit e (skip_save l img st))).
Proof.
  unfold log_skipped_image.
  now rewrite run_dir_exists_emit, run_dir_exists_skip_save.
Qed.

(** Closes a goal about the state after the log line, which differs from
    the state before it in its events only. *)
Ltac hold H :=
  first [exact H
        |unfold log_skipped_image; destruct (run_dir_exists _ _ _); exact H].

Lemma batch_refs_valid_process_one w mp total index path st :
  batch_refs_valid st ->
  batch_refs_valid (state_of (process_one w mp total index path st)).
Proof.
  intros Hv. unfold process_one.
  destruct (imread w index path) as [img|]; [|hold Hv].
  destruct (cancelled _ _ _); [hold Hv|].
  destruct (detect w index img) as [[|b bs]|e]; [| |hold Hv];
    (destruct (cancelled _ _ _); [hold Hv|]); [hold Hv|].
  destruct (ocr_process _ _ _ _ _) as [blks|e]; [|hold Hv].
  do 2 (destruct (cancelled _ _ _); [hold Hv|]).
  destruct (inpaint _ _ _ _) as [cleaned|e]; [|hold Hv].
  destruct (cancelled _ _ _); [destruct (export_inpainted_image mp); hold Hv|].
  match goal with |- context [store_for_batch ?d ?s] =>
    assert (Hs : batch_refs_valid (store_for_batch d s))
      by (apply batch_refs_valid_store; destruct (export_inpainted_image mp); hold Hv)
  end.
  destruct (_ || _); [now apply batch_refs_valid_flush|exact Hs].
Qed.

Lemma batch_refs_valid_main_loop w mp total paths index st :
  batch_refs_valid st ->
  batch_refs_valid (state_of (main_loop w mp total index paths st)).
Proof.
  revert index st. induction paths as [|path rest IH]; intros index st Hv;
    cbn [main_loop]; [exact Hv|].
  assert (Hone := batch_refs_valid_process_one w mp total index path st Hv).
  destruct (process_one w mp total index path st); try exact Hone. now apply IH.
Qed.

(** C2.  A flush that ends normally leaves the batch empty, whatever the
    call did, and a flush in which no cancellation is observed ends
    normally.  When the one call of the flush raises [e], every record of the
    batch has [skipped = True] and [error_message = str(e)] afterwards and
    keeps its other fields, and no other object of the heap changes: the
    records of the batches flushed before and the records stored later are
    other objects. *)
Theorem batch_failure_skips_batch_only w mp total index st :
  let m := merge_batch (heap st) (translation_batches st) in
  let img := image (deref (heap st) (hd 0 (translation_batches st))) in
  (forall st', flush w mp total index st = Next st' -> translation_batches st' = []) /\
  (cancelled w st (at_stage index 6) = false ->
   exists st', flush w mp total index st = Next st') /\
  (forall src tgt e,
     combined_blk_list m <> [] -> translator m = Some (src, tgt) ->
     cancelled w st (at_stage index 6) = false ->
     translate w index src tgt (combined_blk_list m) img (extra_context mp) = Raise e ->
     batch_refs_valid st ->
     exists st',
       flush w mp total index st = Next st' /\
       translation_batches st' = [] /\
       image_batches_data st' = image_batches_data st /\
       length (heap st') = length (heap st) /\
       (forall ref, ref ∈ translation_batches st ->
          let d := deref (heap st) ref in
          let d' := deref (heap st') ref in
          skipped d' = true /\ error_message d' = exn_msg e /\
          image_path d' = image_path d /\ original_index d' = original_index d /\
          image d' = image d /\ blk_list d' = blk_list d /\
          source_lang d' = source_lang d /\ target_lang d' = target_lang d /\
          loc d' = loc d /\ inpaint_input_img_rgb d' = inpaint_input_img_rgb d) /\
       (forall ref, ref ∉ translation_batches st -> heap st' !! ref = heap st !! ref)).
Proof.
  intros m img. split; [|split].
  - intros st'. apply flush_clears.
  - apply flush_not_cancelled.
  - intros src tgt e Hne Ht Hc Hcall Hvalid.
    eexists. split.
    { rewrite (flush_nonempty w mp total index st src tgt Hne Ht).
      rewrite Hc. fold m img. rewrite Hcall. reflexivity. }
    cbn. split; [reflexivity|]. split; [reflexivity|].
    split; [apply mark_skipped_length|]. split.
    + intros ref Hin.
      assert (Hmark : deref (mark_skipped (exn_msg e) (translation_batches st) (heap st)) ref
                      = set_skipped (exn_msg e) (deref (heap st) ref)).
      { apply mark_skipped_inside; [exact Hin|].
        unfold batch_refs_valid in Hvalid. rewrite Forall_forall in Hvalid.
        now apply Hvalid. }
      rewrite Hmark. cbn. repeat split.
    + intros ref Hout. now apply mark_skipped_outside.
Qed.

(** The statement above when the translator fails on the two waiting pages. *)
Lemma failed_batch_of_two_pages :
  exists st',
    flush translator_down (book [page 0; page 1] []) 2 1 pending = Next st' /\
    translation_batches st' = [] /\
    skipped <$> heap st' = [true; true] /\
    error_message <$> heap st' = ["Rate limit exceeded"; "Rate limit exceeded"] /\
    blk_list <$> heap st' = [[speech 10; speech 20]; [speech 30]].
Proof.
  destruct (proj2 (proj2 (batch_failure_skips_batch_only translator_down
                            (book [page 0; page 1] []) 2 1 pending))
              "Japanese" "English" (raise_exn RuntimeError "Rate limit exceeded")
              ltac:(discriminate) eq_refl eq_refl eq_refl
              ltac:(repeat constructor))
    as (st' & Hflush & Hbatch & _ & Hlen & Hin & _).
  exists st'. split; [exact Hflush|]. split; [exact Hbatch|].
  assert (H0 := Hin 0 ltac:(apply elem_of_cons; now left)).
  assert (H1 := Hin 1 ltac:(apply elem_of_cons; right; apply elem_of_cons; now left)).
  cbn zeta in H0, H1. unfold deref in H0, H1.
  destruct (heap st') as [|d0 [|d1 [|d2 h]]]; try discriminate Hlen.
  cbn in H0, H1.
  destruct H0 as (S0 & E0 & _ & _ & _ & B0 & _), H1 as (S1 & E1 & _ & _ & _ & B1 & _).
  cbn. now rewrite S0, S1, E0, E1, B0, B1.
Defined.

(** C5.  In the flush of a batch whose combined list is not empty, the
    translator is built from the languages of the first record.  When the
    flush is carried out (no cancellation is observed at its step 6), exactly
    one call is made, with the concatenation of the block lists of all the
    records of the batch and with the decoded image of the first record.
    When the cancellation flag is found set at step 6, the loop is left
    before the call: no call is made and the batch stays as it is. *)
Theorem flush_calls_translator_once w mp total index st first rest :
  let m := merge_batch (heap st) (translation_batches st) in
  let data := deref (heap st) first in
  let call :=
    translate_call (source_lang data) (target_lang data)
      (concat ((fun ref => blk_list (deref (heap st) ref)) <$> translation_batches st))
      (image data) (extra_context mp) in
  translation_batches st = first :: rest ->
  combined_blk_list m <> [] ->
  (cancelled w st (at_stage index 6) = false ->
   exists st',
     flush w mp total index st = Next st' /\
     translate_calls (events st') = translate_calls (events st) ++ [call]) /\
  (cancelled w st (at_stage index 6) = true ->
   exists st',
     flush w mp total index st = Break st' /\
     translate_calls (events st') = translate_calls (events st) /\
     translation_batches st' = translation_batches st /\
     heap st' = heap st).
Proof.
  intros m data call Hb Hne.
  assert (Ht : translator m = Some (source_lang data, target_lang data)).
  { subst m. rewrite Hb. apply translator_of_first. }
  assert (Hcomb : combined_blk_list m
                  = concat ((fun ref => blk_list (deref (heap st) ref))
                              <$> translation_batches st))
    by apply (merge_batch_ok (heap st) (translation_batches st)).
  pose proof (flush_nonempty w mp total index st _ _ Hne Ht) as Hflush.
  cbn zeta in Hflush. fold m in Hflush. rewrite Hb in Hflush. cbn [hd] in Hflush.
  fold data in Hflush. rewrite Hcomb, <- Hb in Hflush. fold call in Hflush.
  split; intros Hc; rewrite Hc in Hflush.
  - destruct (translate _ _ _ _ _ _ _); eexists; (split; [exact Hflush|]);
      cbn; unfold translate_calls; rewrite !filter_app; cbn;
      now rewrite app_nil_r.
  - eexists. split; [exact Hflush|]. cbn. unfold translate_calls.
    rewrite filter_app. cbn. now rewrite app_nil_r.
Qed.

(** The statement above for the two waiting pages. *)
Lemma one_call_for_two_pages :
  exists st',
    flush quiet_studio (book [page 0; page 1] []) 2 1 pending = Next st' /\
    translate_calls (events st')
    = [translate_call "Japanese" "English" [speech 10; speech 20; speech 30]
         (Pixels 1) ""].
Proof.
  exact (proj1 (flush_calls_translator_once quiet_studio (book [page 0; page 1] [])
                  2 1 pending 0 [1] eq_refl ltac:(discriminate)) eq_refl).
Defined.

(** A run cancelled at step 6 of its only page: the progress signal of the
    flush is sent with a combined list of two blocks, the flag is then found
    set, and the run is left with the page still waiting and the translator
    not called. *)
Lemma cancelled_flush_makes_no_call :
  let run := batch_process cancel_before_translation (book [page 0] []) true in
  translation_batches (fst run) = [0] /\
  combined_blk_list (merge_batch (heap (fst run)) (translation_batches (fst run)))
  = [speech 10; speech 20] /\
  last (events (fst run)) = Some (progress_update 0 1 6 10 false) /\
  translate_calls (events (fst run)) = [].
Proof. vm_compute. repeat split; reflexivity. Qed.

End BatchFacts.

(** ** Properties of the main loop and of the archiving pass *)

Module LoopFacts.
Import Py Pipeline Scenarios BatchFacts.

Lemma emit_all_emit_all evs1 evs2 st :
  emit_all evs2 (emit_all evs1 st) = emit_all (evs1 ++ evs2) st.
Proof. unfold emit_all. cbn. now rewrite <- app_assoc. Qed.

Lemma emit_as_emit_all e st : emit e st = emit_all [e] st.
Proof. reflexivity. Qed.

Lemma cancelled_emit_all w evs st ck :
  cancelled w (emit_all evs st) ck = cancelled w st ck.
Proof. reflexivity. Qed.

(** Rewrites a chain of [emit]s into one [emit_all]. *)
Ltac gather :=
  rewrite ?log_after_skip_save; unfold skip_save;
  rewrite ?emit_as_emit_all; rewrite ?emit_all_emit_all; cbn [app];
  rewrite ?cancelled_emit_all.

(** C6.  When the OCR stage raises for an image, the iteration ends
    normally: the untouched original is written as the translated output,
    the skip signal names the stage "OCR" and carries the message of the
    exception, the path is appended to the skip log, nothing is stored for
    translation, and the loop goes on with the next image. *)
Theorem ocr_failure_skips_image w mp total index path rest st img detected e :
  let l := locate w mp path in
  let st' :=
    emit_all [progress_update index total 0 10 true;
              progress_update index total 1 10 false;
              progress_update index total 2 10 false;
              write_file translated_images l (Original img);
              image_skipped path "OCR" (exn_msg e);
              append_skip_log (directory l) path] st in
  imread w index path = Some img ->
  cancelled w st (at_stage index 1) = false ->
  detect w index img = Ok detected ->
  cancelled w st (at_stage index 2) = false ->
  detected <> [] ->
  ocr_process w index (source_lang_of mp path) img detected = Raise e ->
  process_one w mp total index path st = Next st' /\
  main_loop w mp total index (path :: rest) st
  = main_loop w mp total (S index) rest st'.
Proof.
  intros l st' Hread Hc1 Hdet Hc2 Hne Hocr.
  assert (Hone : process_one w mp total index path st = Next st').
  { unfold process_one. rewrite Hread, cancelled_emit, cancelled_emit, Hc1, Hdet.
    rewrite !cancelled_emit, Hc2.
    destruct detected as [|b bs]; [contradiction|]. rewrite Hocr.
    fold l. gather. reflexivity. }
  split; [exact Hone|]. cbn [main_loop]. now rewrite Hone.
Qed.

(** The statement above in a run of three pages whose second page makes the
    OCR engine fail. *)
Lemma ocr_failure_on_second_page :
  process_one ocr_down_on_second (book [page 0; page 1; page 2] []) 3 1 (page 1)
    (initial true)
  = Next (emit_all [progress_update 1 3 0 10 true;
                    progress_update 1 3 1 10 false;
                    progress_update 1 3 2 10 false;
                    write_file translated_images (mkLoc "/books" "" "b" ".png")
                      (Original (Pixels 2));
                    image_skipped (page 1) "OCR" "engine offline";
                    append_skip_log "/books" (page 1)] (initial true)).
Proof.
  exact (proj1 (ocr_failure_skips_image ocr_down_on_second
                  (book [page 0; page 1; page 2] []) 3 1 (page 1)
                  [page 2] (initial true) (Pixels 2) [speech 10; speech 20]
                  (raise_exn OtherException "engine offline")
                  eq_refl eq_refl eq_refl eq_refl ltac:(discriminate) eq_refl)).
Defined.

(** C3 fails on the code.  Two pages: the first reaches the batch, the
    OCR stage raises for the second, which is skipped.  The size test and
    the last-image test sit at the end of the iteration, which the [continue]
    of the second page never reaches: the run ends without an exception, the
    batch is never flushed, the translator is never called, and the first page
    is rendered with its untranslated blocks.  Without the second page the
    same first page is translated. *)
Theorem trailing_skip_leaves_batch_unflushed :
  let run := batch_process ocr_down_on_second (book [page 0; page 1] []) true in
  let alone := batch_process ocr_down_on_second (book [page 0] []) true in
  let l n := mkLoc "/books" "" (String (ascii_of_nat (97 + n)) "") ".png" in
  snd run = None /\
  translate_calls (events (fst run)) = [] /\
  translation_batches (fst run) = [0] /\
  image_path (deref (heap (fst run)) 0) = page 0 /\
  skipped (deref (heap (fst run)) 0) = false /\
  outputs (events (fst run))
  = [write_file translated_images (l 1) (Original (Pixels 2));
     write_file translated_images (l 0) (Rendered (Pixels 1) [speech 10; speech 20])] /\
  length (translate_calls (events (fst alone))) = 1 /\
  outputs (events (fst alone))
  = [write_file translated_images (l 0)
       (Rendered (Pixels 1) [say "hello" (speech 10); say "hello" (speech 20)])].
Proof. vm_compute. repeat split; reflexivity. Qed.

(** The isolation of a failing batch in a run of 25 pages whose second call
    of the translator raises: three calls are made, and exactly the pages at
    positions 10 to 19 are skipped. *)
Example second_batch_fails_alone :
  let run := batch_process translator_fails_on_second_batch
               (book (page <$> seq 0 25) []) true in
  length (translate_calls (events (fst run))) = 3 /\
  (skipped <$> heap (fst run))
  = replicate 10 false ++ replicate 10 true ++ replicate 5 false /\
  (error_message <$> take 10 (drop 10 (heap (fst run))))
  = replicate 10 "Rate limit exceeded".
Proof. vm_compute. repeat split; reflexivity. Qed.

(** *** The archiving pass *)

(** One iteration of the archiving pass, when the target format is known and
    the packer returns: the flag is read on entry, before the call of the
    packer, and between that call and the cleanup. *)
Lemma archive_one_packed w mp total archive_index a st target :
  let dir := dirname w (archive_path a) in
  let bname := fst (splitext w (basename w (archive_path a))) in
  let p k := progress_update (total + archive_index) total k 3 true in
  let call := make_call ("." +:+ target) (save_dir dir bname) dir bname in
  let cleanup :=
    (if save_dir_exists w archive_index then [rmtree (save_dir dir bname)] else [])
    ++ (if is_directory_empty w archive_index then [rmtree (check_from dir)] else []) in
  lookup_ext (lower (snd (splitext w (archive_path a)))) (save_as mp) = Some target ->
  make w archive_index ("." +:+ target) (save_dir dir bname) dir bname = Ok tt ->
  archive_one w mp total archive_index a st =
  if cancelled w st (at_archive archive_index 1)
  then Break (drop_worker (emit_all [p 1] st))
  else if cancelled w st (at_archive archive_index 2)
  then Break (drop_worker (emit_all [p 1; p 2] st))
  else if cancelled w st (at_archive archive_index 3)
  then Break (drop_worker (emit_all [p 1; p 2; call; p 3] st))
  else Next (emit_all ([p 1; p 2; call; p 3] ++ cleanup) st).
Proof.
  intros dir bname p call cleanup Hext Hmake. unfold archive_one.
  rewrite Hext. fold dir bname. rewrite Hmake. gather.
  destruct (cancelled w st (at_archive archive_index 1)); [reflexivity|].
  destruct (cancelled w st (at_archive archive_index 2)); [reflexivity|].
  destruct (cancelled w st (at_archive archive_index 3)); [reflexivity|].
  subst cleanup. destruct (save_dir_exists w archive_index),
    (is_directory_empty w archive_index); gather; reflexivity.
Qed.

Lemma archive_one_failed w mp total archive_index a st target e :
  let dir := dirname w (archive_path a) in
  let bname := fst (splitext w (basename w (archive_path a))) in
  let p k := progress_update (total + archive_index) total k 3 true in
  let call := make_call ("." +:+ target) (save_dir dir bname) dir bname in
  lookup_ext (lower (snd (splitext w (archive_path a)))) (save_as mp) = Some target ->
  cancelled w st (at_archive archive_index 1) = false ->
  cancelled w st (at_archive archive_index 2) = false ->
  make w archive_index ("." +:+ target) (save_dir dir bname) dir bname = Raise e ->
  archive_one w mp total archive_index a st = Raised e (emit_all [p 1; p 2; call] st).
Proof.
  intros dir bname p call Hext Hc1 Hc2 Hmake. unfold archive_one.
  rewrite Hext. fold dir bname. rewrite Hmake. gather.
  now rewrite Hc1, Hc2.
Qed.

(** C7, amended.  The archives are handled one after the other, and the call
    of the packer is not guarded: when it raises for an archive, the
    exception leaves the pass at once, after the call and before any cleanup,
    and the archives after it are not attempted.  When it returns and no
    cancellation is observed, the pass cleans up and goes on with the next
    archive. *)
Theorem packing_failure_ends_pass w mp total archive_index a rest st target :
  let dir := dirname w (archive_path a) in
  let bname := fst (splitext w (basename w (archive_path a))) in
  let p k := progress_update (total + archive_index) total k 3 true in
  let call := make_call ("." +:+ target) (save_dir dir bname) dir bname in
  let cleanup :=
    (if save_dir_exists w archive_index then [rmtree (save_dir dir bname)] else [])
    ++ (if is_directory_empty w archive_index then [rmtree (check_from dir)] else []) in
  lookup_ext (lower (snd (splitext w (archive_path a)))) (save_as mp) = Some target ->
  cancelled w st (at_archive archive_index 1) = false ->
  cancelled w st (at_archive archive_index 2) = false ->
  (forall e,
     make w archive_index ("." +:+ target) (save_dir dir bname) dir bname = Raise e ->
     archive_loop w mp total archive_index (a :: rest) st
     = Raised e (emit_all [p 1; p 2; call] st)) /\
  (make w archive_index ("." +:+ target) (save_dir dir bname) dir bname = Ok tt ->
   cancelled w st (at_archive archive_index 3) = false ->
   archive_loop w mp total archive_index (a :: rest) st
   = archive_loop w mp total (S archive_index) rest
       (emit_all ([p 1; p 2; call; p 3] ++ cleanup) st)).
Proof.
  intros dir bname p call cleanup Hext Hc1 Hc2. split.
  - intros e Hmake. cbn [archive_loop].
    now rewrite (archive_one_failed w mp total archive_index a st target e Hext Hc1 Hc2 Hmake).
  - intros Hmake Hc3. cbn [archive_loop].
    rewrite (archive_one_packed w mp total archive_index a st target Hext Hmake).
    now rewrite Hc1, Hc2, Hc3.
Qed.

(** The statement above in a run with two archives whose first one cannot be
    packed. *)
Lemma packing_failure_on_first_volume :
  archive_loop packer_fails_on_first (book ["/tmp/vol1/a.png"] two_volumes) 1 0
    two_volumes (initial true)
  = Raised (raise_exn OtherException "disk full")
      (emit_all [progress_update 1 1 1 3 true; progress_update 1 1 2 3 true;
                 make_call ".cbz" (save_dir "/books" "vol1") "/books" "vol1"]
         (initial true)).
Proof.
  exact (proj1 (packing_failure_ends_pass packer_fails_on_first
                  (book ["/tmp/vol1/a.png"] two_volumes) 1 0
                  (mkArchive "/books/vol1.cbz" ["/tmp/vol1/a.png"])
                  [mkArchive "/books/vol2.cbz" ["/tmp/vol2/a.png"]] (initial true)
                  "cbz" eq_refl eq_refl eq_refl)
               (raise_exn OtherException "disk full") eq_refl).
Defined.

(** C7 as stated fails: the packer raises for the first of two archives; the
    exception ends [batch_process], and the packer is never called for the
    second archive, which it would have packed. *)
Lemma failed_archive_blocks_the_next :
  let run := batch_process packer_fails_on_first
               (book ["/tmp/vol1/a.png"] two_volumes) true in
  snd run = Some (raise_exn OtherException "disk full") /\
  filter (fun e => is_make_call e = true) (events (fst run))
  = [make_call ".cbz" (save_dir "/books" "vol1") "/books" "vol1"] /\
  make packer_fails_on_first 1 ".cbz" (save_dir "/books" "vol2") "/books" "vol2"
  = Ok tt.
Proof. vm_compute. repeat split; reflexivity. Qed.

(** C8, amended.  In the iteration of one archive the cancellation flag is
    read three times: on entry, before the packer is called, and after the
    packer returned but before the temporary directory is removed.  Observed
    at one of the first two, it stops the pass before the archive is created;
    observed at the third, it stops the pass with the archive created and the
    cleanup not done.  An iteration in which it is not observed creates the
    archive, cleans up, and the pass goes on. *)
Theorem archive_cancellation_points w mp total archive_index a rest st target :
  let dir := dirname w (archive_path a) in
  let bname := fst (splitext w (basename w (archive_path a))) in
  let p k := progress_update (total + archive_index) total k 3 true in
  let call := make_call ("." +:+ target) (save_dir dir bname) dir bname in
  let cleanup :=
    (if save_dir_exists w archive_index then [rmtree (save_dir dir bname)] else [])
    ++ (if is_directory_empty w archive_index then [rmtree (check_from dir)] else []) in
  let c k := cancelled w st (at_archive archive_index k) in
  let pass := archive_loop w mp total archive_index (a :: rest) st in
  lookup_ext (lower (snd (splitext w (archive_path a)))) (save_as mp) = Some target ->
  make w archive_index ("." +:+ target) (save_dir dir bname) dir bname = Ok tt ->
  (c 1 = true -> pass = Break (drop_worker (emit_all [p 1] st))) /\
  (c 1 = false -> c 2 = true ->
   pass = Break (drop_worker (emit_all [p 1; p 2] st))) /\
  (c 1 = false -> c 2 = false -> c 3 = true ->
   pass = Break (drop_worker (emit_all [p 1; p 2; call; p 3] st))) /\
  (c 1 = false -> c 2 = false -> c 3 = false ->
   pass = archive_loop w mp total (S archive_index) rest
            (emit_all ([p 1; p 2; call; p 3] ++ cleanup) st)).
Proof.
  intros dir bname p call cleanup c pass Hext Hmake. subst pass c.
  cbn [archive_loop].
  rewrite (archive_one_packed w mp total archive_index a st target Hext Hmake).
  repeat split; intros; repeat match goal with H : cancelled _ _ _ = _ |- _ =>
    rewrite H; clear H end; reflexivity.
Qed.

(** The statement above when the user cancels right after the first archive
    was packed. *)
Lemma cancelled_after_packing_first_volume :
  archive_loop cancel_after_packing (book ["/tmp/vol1/a.png"] two_volumes) 1 0
    two_volumes (initial true)
  = Break (drop_worker
             (emit_all [progress_update 1 1 1 3 true; progress_update 1 1 2 3 true;
                        make_call ".cbz" (save_dir "/books" "vol1") "/books" "vol1";
                        progress_update 1 1 3 3 true] (initial true))).
Proof.
  exact (proj1 (proj2 (proj2 (archive_cancellation_points cancel_after_packing
                  (book ["/tmp/vol1/a.png"] two_volumes) 1 0
                  (mkArchive "/books/vol1.cbz" ["/tmp/vol1/a.png"])
                  [mkArchive "/books/vol2.cbz" ["/tmp/vol2/a.png"]] (initial true)
                  "cbz" eq_refl eq_refl))) eq_refl eq_refl eq_refl).
Defined.

(** C8 as stated fails: the flag is observed between the call of the packer
    and the cleanup of the first archive.  The pass stops there: the archive
    has been created, its temporary directory exists and is not removed. *)
Lemma cancellation_honored_mid_archive :
  let run := batch_process cancel_after_packing
               (book ["/tmp/vol1/a.png"] two_volumes) true in
  snd run = None /\
  filter (fun e => is_make_call e = true) (events (fst run))
  = [make_call ".cbz" (save_dir "/books" "vol1") "/books" "vol1"] /\
  save_dir_exists cancel_after_packing 0 = true /\
  filter (fun e => is_rmtree e = true) (events (fst run)) = [] /\
  last (events (fst run)) = Some (progress_update 1 1 3 3 true).
Proof. vm_compute. repeat split; reflexivity. Qed.

End LoopFacts.

(** ** Outputs of a run *)

Module OutputFacts.
Import Py Pipeline Scenarios BatchFacts LoopFacts.

Section Run.
Variables (w : world) (mp : main_page).

(** *** Traces *)

Lemma skip_justified_mono evs evs' e :
  skip_justified w mp evs e -> skip_justified w mp (evs ++ evs') e.
Proof.
  destruct e; cbn; auto. intros (index & img & Hd & Hin).
  exists index, img. split; [exact Hd|]. apply elem_of_app. now left.
Qed.

Lemma trace_ok_nil : trace_ok w mp [].
Proof. split; constructor. Qed.

Lemma trace_ok_quiet evs e : quiet e = true -> trace_ok w mp evs -> trace_ok w mp (evs ++ [e]).
Proof.
  intros Hq [Ho Hs]. split.
  - apply Forall_app. split; [exact Ho|]. apply Forall_singleton.
    destruct e as [| | |k l c| | | |]; cbn; auto. destruct k; cbn in *; auto; discriminate.
  - apply Forall_app. split.
    + eapply Forall_impl; [exact Hs|]. intros x. apply skip_justified_mono.
    + apply Forall_singleton. destruct e; cbn; auto; discriminate.
Qed.

Lemma trace_ok_skip evs index path img stage msg :
  decoded w mp index path img -> trace_ok w mp evs ->
  trace_ok w mp ((evs ++ [write_file translated_images (locate w mp path) (Original img)])
            ++ [image_skipped path stage msg]).
Proof.
  intros Hd [Ho Hs]. split.
  - apply Forall_app. split; [apply Forall_app; split; [exact Ho|]|].
    + apply Forall_singleton. cbn. exists index, path, img. auto.
    + apply Forall_singleton. exact I.
  - apply Forall_app. split; [apply Forall_app; split|].
    + eapply Forall_impl; [exact Hs|]. intros x Hx.
      rewrite <- app_assoc. now apply skip_justified_mono.
    + apply Forall_singleton. exact I.
    + apply Forall_singleton. cbn. exists index, img. split; [exact Hd|].
      apply elem_of_app. left. apply elem_of_app. right. apply list_elem_of_singleton.
      reflexivity.
Qed.

Lemma trace_ok_render evs index path img cleaned blks :
  decoded w mp index path img -> trace_ok w mp evs ->
  trace_ok w mp (evs ++ [write_file translated_images (locate w mp path)
                      (Rendered cleaned blks)]).
Proof.
  intros Hd [Ho Hs]. split.
  - apply Forall_app. split; [exact Ho|]. apply Forall_singleton. cbn.
    exists index, path, img. split; [exact Hd|]. split; [reflexivity|]. right. eauto.
  - apply Forall_app. split.
    + eapply Forall_impl; [exact Hs|]. intros x. apply skip_justified_mono.
    + apply Forall_singleton. exact I.
Qed.

(** *** States *)

Lemma state_ok_initial worker : state_ok w mp (initial worker).
Proof.
  split; cbn.
  - apply trace_ok_nil.
  - intros ref d Hd. now rewrite lookup_nil in Hd.
  - intros entry Hin. now apply elem_of_nil in Hin.
Qed.

Lemma state_ok_emit e st : quiet e = true -> state_ok w mp st -> state_ok w mp (emit e st).
Proof.
  intros Hq [Ht Hh Hr]. split; cbn; auto. now apply trace_ok_quiet.
Qed.

Lemma state_ok_drop_worker st : state_ok w mp st -> state_ok w mp (drop_worker st).
Proof. intros [Ht Hh Hr]. split; cbn; auto. Qed.

Lemma state_ok_skip st index path img stage msg :
  decoded w mp index path img -> state_ok w mp st ->
  state_ok w mp (state_of
              (log_skipped_image w (directory (locate w mp path)) path
                 (emit (image_skipped path stage msg)
                    (skip_save (locate w mp path) img st)))).
Proof.
  intros Hd [Ht Hh Hr]. rewrite log_after_skip_save. split; cbn; auto.
  apply trace_ok_quiet; [reflexivity|]. now apply trace_ok_skip with (index := index).
Qed.

Lemma state_ok_log st dir path :
  state_ok w mp st -> state_ok w mp (state_of (log_skipped_image w dir path st)).
Proof.
  intros Hok. unfold log_skipped_image.
  destruct (run_dir_exists w st dir); [now apply state_ok_emit|exact Hok].
Qed.

Lemma state_ok_render st index path img cleaned blks :
  decoded w mp index path img -> state_ok w mp st ->
  state_ok w mp (emit (write_file translated_images (locate w mp path)
                    (Rendered cleaned blks)) st).
Proof.
  intros Hd [Ht Hh Hr]. split; cbn; auto.
  now apply trace_ok_render with (index := index) (img := img).
Qed.

(** *** Updates of the heap *)

Lemma pages_alter f (h : list image_data) entries i :
  (forall d, same_page d (f d)) ->
  heap_ok w mp h /\ refs_ok h entries ->
  heap_ok w mp (alter f i h) /\ refs_ok (alter f i h) entries.
Proof.
  intros Hf [Hh Hr]. split.
  - intros ref d'. rewrite list_lookup_alter. case_decide as Hi.
    + subst. destruct (h !! ref) as [d|] eqn:Hd; [|discriminate].
      cbn. intros [= <-]. destruct (Hf d) as (H1 & H2 & H3 & H4).
      rewrite H1, H2, H3, H4. now apply (Hh ref).
    + apply Hh.
  - intros entry Hin. destruct (Hr entry Hin) as (d & Hd & Hp).
    rewrite list_lookup_alter. case_decide as Hi.
    + subst. rewrite Hd. cbn. exists (f d). split; [reflexivity|].
      destruct (Hf d) as (H1 & _). now rewrite H1.
    + eauto.
Qed.

Lemma pages_fold {X} (g : X -> image_data -> image_data) (r : X -> nat)
    (l : list X) (h : list image_data) entries :
  (forall x d, same_page d (g x d)) ->
  heap_ok w mp h /\ refs_ok h entries ->
  let h' := fold_left (fun h x => alter (g x) (r x) h) l h in
  heap_ok w mp h' /\ refs_ok h' entries.
Proof.
  intros Hg. revert h. induction l as [|x l IH]; intros h Hok; cbn; [exact Hok|].
  apply IH. apply pages_alter; [apply Hg|exact Hok].
Qed.

Lemma pages_distribute translated ranges h entries :
  heap_ok w mp h /\ refs_ok h entries ->
  heap_ok w mp (distribute translated ranges h)
  /\ refs_ok (distribute translated ranges h) entries.
Proof.
  unfold distribute.
  apply (pages_fold
           (fun entry => set_blk_list (slice translated (fst (fst entry)) (snd (fst entry))))
           snd).
  intros x d. repeat split.
Qed.

Lemma pages_mark_skipped msg batch h entries :
  heap_ok w mp h /\ refs_ok h entries ->
  heap_ok w mp (mark_skipped msg batch h) /\ refs_ok (mark_skipped msg batch h) entries.
Proof.
  unfold mark_skipped.
  apply (pages_fold (fun _ => set_skipped msg) (fun ref => ref)).
  intros x d. repeat split.
Qed.

Lemma state_ok_store st index path img blks src tgt cleaned :
  decoded w mp index path img -> state_ok w mp st ->
  state_ok w mp (store_for_batch
              (mkData path index img blks src tgt (locate w mp path) cleaned false "")
              st).
Proof.
  intros Hd [Ht Hh Hr]. split; cbn; [exact Ht| |].
  - intros ref d [Hold|[Hge Hnew]]%lookup_app_Some; [now apply (Hh ref)|].
    apply list_lookup_singleton_Some in Hnew as [_ <-]. cbn. auto.
  - intros entry [Hold| ->]%dict_set_elem.
    + destruct (Hr entry Hold) as (d & Hl & Hp). exists d. split; [|exact Hp].
      apply lookup_app_Some. now left.
    + cbn. exists (mkData path index img blks src tgt (locate w mp path) cleaned false "").
      split; [|reflexivity].
      apply lookup_app_Some. right. split; [lia|]. now rewrite Nat.sub_diag.
Qed.

Lemma state_ok_flush total index st :
  state_ok w mp st -> state_ok w mp (state_of (flush w mp total index st)).
Proof.
  intros Hok. unfold flush.
  destruct (combined_blk_list _) as [|b bs];
    [destruct Hok; now split|].
  destruct (translator _) as [[src tgt]|]; [|destruct Hok; now split].
  destruct (cancelled _ _ _); [now apply state_ok_emit|].
  assert (Hok' : state_ok w mp
            (emit (translate_call src tgt (b :: bs)
                     (image (deref (heap (emit (progress_update index total 6 10 false) st))
                                   (hd 0 (translation_batches
                                            (emit (progress_update index total 6 10 false) st)))))
                     (extra_context mp))
               (emit (progress_update index total 6 10 false) st)))
    by (apply state_ok_emit; [reflexivity|]; now apply state_ok_emit).
  destruct Hok' as [Ht Hh Hr].
  destruct (translate _ _ _ _ _ _ _) as [translated|e]; cbn [state_of].
  - destruct (pages_distribute translated
                (batch_indices_map (merge_batch (heap st) (translation_batches st)))
                _ _ (conj Hh Hr)) as [Hh' Hr'].
    split; cbn; auto.
  - destruct (pages_mark_skipped (exn_msg e) (translation_batches st) _ _ (conj Hh Hr))
      as [Hh' Hr'].
    split; cbn; auto.
Qed.

(** *** The loops keep the trace justified *)

(** Goes back through the quiet events emitted since a justified state. *)
Ltac peel H := repeat first [exact H | apply state_ok_emit; [reflexivity|]].

Lemma state_ok_process_one total index path st :
  image_files mp !! index = Some path ->
  state_ok w mp st -> state_ok w mp (state_of (process_one w mp total index path st)).
Proof.
  intros Hfile Hok. unfold process_one.
  assert (H0 : state_ok w mp (emit (progress_update index total 0 10 true) st))
    by now apply state_ok_emit.
  destruct (imread w index path) as [img|] eqn:Hread;
    [|now apply state_ok_log].
  assert (Hd : decoded w mp index path img) by now split.
  assert (H1 : state_ok w mp (emit (progress_update index total 1 10 false)
                          (emit (progress_update index total 0 10 true) st)))
    by now apply state_ok_emit.
  destruct (cancelled _ _ _); [exact H1|].
  destruct (detect w index img) as [detected|e]; [|exact H1].
  match goal with |- context [emit (progress_update index total 2 10 false) ?s] =>
    assert (H2 : state_ok w mp (emit (progress_update index total 2 10 false) s))
      by now apply state_ok_emit end.
  destruct (cancelled _ _ _); [exact H2|].
  destruct detected as [|b bs]; [now apply state_ok_skip with (index := index)|].
  destruct (ocr_process _ _ _ _ _) as [blks|e];
    [|now apply state_ok_skip with (index := index)].
  match goal with |- context [emit (progress_update index total 3 10 false) ?s] =>
    assert (H3 : state_ok w mp (emit (progress_update index total 3 10 false) s))
      by now apply state_ok_emit end.
  destruct (cancelled _ _ _); [exact H3|].
  match goal with |- context [emit (progress_update index total 4 10 false) ?s] =>
    assert (H4 : state_ok w mp (emit (progress_update index total 4 10 false) s))
      by now apply state_ok_emit end.
  destruct (cancelled _ _ _); [exact H4|].
  destruct (inpaint _ _ _ _) as [cleaned|e]; [|exact H4].
  match goal with |- context [emit (progress_update index total 5 10 false) ?s] =>
    assert (H5 : state_ok w mp (emit (progress_update index total 5 10 false) s))
  end.
  { apply state_ok_emit; [reflexivity|].
    destruct (export_inpainted_image mp); peel H4. }
  destruct (cancelled _ _ _); [exact H5|].
  match goal with |- context [store_for_batch ?d ?s] =>
    assert (H6 : state_ok w mp (store_for_batch d s))
      by now apply state_ok_store with (index := index) end.
  destruct (_ || _); [now apply state_ok_flush|exact H6].
Qed.

Lemma state_ok_main_loop total paths index st :
  (forall i path, paths !! i = Some path -> image_files mp !! (index + i) = Some path) ->
  state_ok w mp st -> state_ok w mp (state_of (main_loop w mp total index paths st)).
Proof.
  revert index st. induction paths as [|path rest IH]; intros index st Hfiles Hok;
    cbn [main_loop]; [exact Hok|].
  assert (Hone := state_ok_process_one total index path st).
  rewrite <- (Nat.add_0_r index) in Hone at 1.
  specialize (Hone (Hfiles 0 path eq_refl) Hok).
  destruct (process_one w mp total index path st) as [st'|st'|e st']; try exact Hone.
  apply IH; [|exact Hone].
  intros i p Hp. replace (S index + i) with (index + S i) by lia. now apply Hfiles.
Qed.

Lemma finalize_one_keeps total entry st :
  let st' := state_of (finalize_one w mp total entry st) in
  heap st' = heap st /\ image_batches_data st' = image_batches_data st.
Proof.
  unfold finalize_one.
  destruct (skipped _); [rewrite log_after_skip_save; now cbn|].
  destruct (json_loads _ _ _); [|rewrite log_after_skip_save; now cbn].
  destruct (export_raw_text mp), (export_translated_text mp);
    repeat (destruct (cancelled _ _ _); [now cbn|]); now cbn.
Qed.

Lemma state_ok_finalize_one total entry st :
  entry ∈ image_batches_data st ->
  state_ok w mp st -> state_ok w mp (state_of (finalize_one w mp total entry st)).
Proof.
  intros Hin Hok.
  destruct (ok_refs w mp st Hok entry Hin) as (d & Hd & Hpath).
  destruct (ok_heap w mp st Hok _ _ Hd) as [Hdec Hloc].
  unfold finalize_one. rewrite (deref_lookup _ _ _ Hd). cbn zeta.
  rewrite Hloc, <- Hpath.
  destruct (skipped d); [now apply state_ok_skip with (index := original_index d)|].
  destruct (json_loads _ _ _);
    [|now apply state_ok_skip with (index := original_index d)].
  match goal with |- context [emit (progress_update _ total 7 10 false) ?s] =>
    assert (H7 : state_ok w mp (emit (progress_update (original_index d) total 7 10 false) s))
  end.
  { apply state_ok_emit; [reflexivity|].
    destruct (export_raw_text mp), (export_translated_text mp); peel Hok. }
  destruct (cancelled _ _ _); [exact H7|].
  match goal with |- context [emit (progress_update _ total 8 10 false) ?s] =>
    assert (H8 : state_ok w mp (emit (progress_update (original_index d) total 8 10 false) s))
      by now apply state_ok_emit end.
  destruct (cancelled _ _ _); [exact H8|].
  match goal with |- context [emit (progress_update _ total 9 10 false) ?s] =>
    assert (H9 : state_ok w mp (emit (progress_update (original_index d) total 9 10 false) s))
  end.
  { apply state_ok_emit; [reflexivity|].
    now apply state_ok_render with (index := original_index d) (img := image d). }
  destruct (cancelled _ _ _); exact H9.
Qed.

Lemma state_ok_post_loop total entries st :
  (forall entry, entry ∈ entries -> entry ∈ image_batches_data st) ->
  state_ok w mp st -> state_ok w mp (state_of (post_loop w mp total entries st)).
Proof.
  revert st. induction entries as [|entry rest IH]; intros st Hsub Hok;
    cbn [post_loop]; [exact Hok|].
  assert (Hone := state_ok_finalize_one total entry st
                    (Hsub entry ltac:(apply elem_of_cons; now left)) Hok).
  destruct (finalize_one_keeps total entry st) as [_ Hkeep].
  destruct (finalize_one w mp total entry st) as [st'|st'|e st']; try exact Hone.
  apply IH; [|exact Hone]. cbn in Hkeep. rewrite Hkeep.
  intros x Hx. apply Hsub. apply elem_of_cons. now right.
Qed.

Lemma state_ok_archive_one total archive_index a st :
  state_ok w mp st -> state_ok w mp (state_of (archive_one w mp total archive_index a st)).
Proof.
  intros Hok. unfold archive_one.
  assert (H1 : state_ok w mp (emit (progress_update (total + archive_index) total 1 3 true) st))
    by now apply state_ok_emit.
  destruct (cancelled _ _ _); [now apply state_ok_drop_worker|].
  destruct (lookup_ext _ _) as [target|]; [|exact H1].
  match goal with |- context [emit (progress_update _ total 2 3 true) ?s] =>
    assert (H2 : state_ok w mp (emit (progress_update (total + archive_index) total 2 3 true) s))
      by now apply state_ok_emit end.
  destruct (cancelled _ _ _); [now apply state_ok_drop_worker|].
  match goal with |- context [emit (make_call ?a1 ?a2 ?a3 ?a4) ?s] =>
    assert (Hm : state_ok w mp (emit (make_call a1 a2 a3 a4) s))
      by now apply state_ok_emit end.
  destruct (make _ _ _ _ _ _); [|exact Hm].
  match goal with |- context [emit (progress_update _ total 3 3 true) ?s] =>
    assert (H3 : state_ok w mp (emit (progress_update (total + archive_index) total 3 3 true) s))
      by now apply state_ok_emit end.
  destruct (cancelled _ _ _); [now apply state_ok_drop_worker|].
  destruct (save_dir_exists w archive_index), (is_directory_empty w archive_index);
    cbn [state_of]; peel H3.
Qed.

Lemma state_ok_archive_loop total archives archive_index st :
  state_ok w mp st ->
  state_ok w mp (state_of (archive_loop w mp total archive_index archives st)).
Proof.
  revert archive_index st.
  induction archives as [|a rest IH]; intros archive_index st Hok;
    cbn [archive_loop]; [exact Hok|].
  assert (Hone := state_ok_archive_one total archive_index a st Hok).
  destruct (archive_one w mp total archive_index a st) as [st'|st'|e st'];
    try exact Hone.
  now apply IH.
Qed.

Lemma state_of_after_loop c : fst (after_loop c) = state_of c.
Proof. now destruct c. Qed.

Lemma state_ok_batch_process worker :
  state_ok w mp (fst (batch_process w mp worker)).
Proof.
  unfold batch_process.
  assert (Hmain := state_ok_main_loop (length (image_files mp)) (image_files mp) 0
                     (initial worker) (fun i path H => H) (state_ok_initial worker)).
  assert (Hpost : forall st, state_ok w mp st ->
            state_ok w mp (state_of (post_processing w mp (length (image_files mp)) st))).
  { intros st Hok. unfold post_processing.
    destruct (cancelled _ _ _); [now apply state_ok_drop_worker|].
    now apply state_ok_post_loop. }
  assert (Harch : forall st, state_ok w mp st ->
            state_ok w mp (fst (after_loop
              (archive_loop w mp (length (image_files mp)) 0 (archive_info mp)
                 (after_post_processing w st))))).
  { intros st Hok. rewrite state_of_after_loop. apply state_ok_archive_loop.
    unfold after_post_processing. destruct (cancelled _ _ _); [|exact Hok].
    now apply state_ok_drop_worker. }
  destruct (main_loop _ _ _ _ _ _) as [st|st|e st]; cbn [state_of] in Hmain;
    [| |exact Hmain].
  - specialize (Hpost st Hmain).
    destruct (post_processing _ _ _ st) as [st'|st'|e st']; cbn [state_of] in Hpost;
      [now apply Harch|now apply Harch|exact Hpost].
  - specialize (Hpost st Hmain).
    destruct (post_processing _ _ _ st) as [st'|st'|e st']; cbn [state_of] in Hpost;
      [now apply Harch|now apply Harch|exact Hpost].
Qed.

(** *** The files of a run that nobody cancels *)

Lemma output_locs_emit e st :
  output_locs (events (emit e st))
  = output_locs (events st) ++ (match output_loc e with Some l => [l] | None => [] end).
Proof.
  unfold output_locs. cbn [events emit]. rewrite omap_app.
  cbn. now destruct (output_loc e).
Qed.

Lemma output_locs_length evs : length (output_locs evs) = length (outputs evs).
Proof.
  unfold output_locs, outputs. induction evs as [|e evs IH]; [reflexivity|].
  cbn [omap list_omap filter list_filter].
  destruct e as [| | |k l c| | | |]; cbn; try exact IH.
  destruct k; cbn; try exact IH. now rewrite IH.
Qed.

Lemma decodable_length index paths :
  length (decodable w index paths) = readable w index paths.
Proof.
  revert index. induction paths as [|path rest IH]; intros index; cbn; [reflexivity|].
  destruct (imread w index path); cbn; now rewrite IH.
Qed.

Lemma decodable_cons index path rest :
  decodable w index (path :: rest)
  = decodable w index [path] ++ decodable w (S index) rest.
Proof. cbn. now destruct (imread w index path). Qed.

Lemma decodable_subset index paths p : p ∈ decodable w index paths -> p ∈ paths.
Proof.
  revert index. induction paths as [|path rest IH]; intros index; cbn; [auto|].
  destruct (imread w index path).
  - intros [->|Hin]%elem_of_cons; [apply list_elem_of_here|].
    apply list_elem_of_further. now apply (IH (S index)).
  - intros Hin. apply list_elem_of_further. now apply (IH (S index)).
Qed.

Lemma decodable_distinct (f : string -> out_loc) index paths :
  NoDup (f <$> paths) -> NoDup (f <$> decodable w index paths).
Proof.
  revert index. induction paths as [|path rest IH]; intros index; cbn; [auto|].
  intros [Hnotin Hnd]%NoDup_cons. destruct (imread w index path); [|now apply IH].
  cbn. apply NoDup_cons. split; [|now apply IH].
  intros (p & Hp & Hin)%list_elem_of_fmap. apply Hnotin.
  apply list_elem_of_fmap. exists p. split; [exact Hp|].
  now apply decodable_subset in Hin.
Qed.

Section Calm.
Hypothesis calm : forall ck, is_cancelled w ck = false.

Lemma cancelled_calm st ck : cancelled w st ck = false.
Proof using calm. unfold cancelled. rewrite calm. apply andb_false_r. Qed.

Lemma flush_calm total index st :
  exists st',
    flush w mp total index st = Next st' /\
    output_locs (events st') = output_locs (events st) /\
    image_batches_data st' = image_batches_data st.
Proof using calm.
  unfold flush.
  destruct (combined_blk_list _) as [|b bs]; [eexists; split; [reflexivity|now cbn]|].
  destruct (translator _) as [[src tgt]|]; [|eexists; split; [reflexivity|now cbn]].
  rewrite cancelled_calm.
  destruct (translate _ _ _ _ _ _ _); eexists; (split; [reflexivity|]);
    cbn; unfold output_locs; rewrite !omap_app; cbn;
    rewrite !app_nil_r; auto.
Qed.

(** One iteration of the main loop either writes the output of the image, or
    stores the image for the post-translation loop, or (when the image cannot
    be decoded) does neither. *)
Lemma process_one_calm total index path st :
  path ∉ stored_paths st ->
  match process_one w mp total index path st with
  | Next st' =>
      output_locs (events st') ++ (locate w mp <$> stored_paths st')
      ≡ₚ (output_locs (events st) ++ (locate w mp <$> stored_paths st))
         ++ (locate w mp <$> decodable w index [path]) /\
      (forall p, p ∈ stored_paths st' -> p = path \/ p ∈ stored_paths st)
  | Break _ => False
  | Raised _ _ => True
  end.
Proof using calm.
  intros Hfresh. unfold process_one. cbn [decodable].
  destruct (imread w index path) as [img|].
  2:{ unfold log_skipped_image. destruct (run_dir_exists _ _ _); [|exact I].
      rewrite !output_locs_emit. cbn. rewrite !app_nil_r. auto. }
  assert (Hskip : forall stage msg,
            match log_skipped_image w (directory (locate w mp path)) path
                    (emit (image_skipped path stage msg)
                       (skip_save (locate w mp path) img
                          (emit (progress_update index total 2 10 false)
                             (emit (progress_update index total 1 10 false)
                                (emit (progress_update index total 0 10 true) st)))))
            with
            | Next st' =>
                output_locs (events st') ++ (locate w mp <$> stored_paths st')
                ≡ₚ (output_locs (events st) ++ (locate w mp <$> stored_paths st))
                   ++ (locate w mp <$> [path]) /\
                (forall p, p ∈ stored_paths st' -> p = path \/ p ∈ stored_paths st)
            | Break _ => False
            | Raised _ _ => True
            end).
  { intros stage msg. rewrite log_after_skip_save. unfold skip_save.
    rewrite !output_locs_emit. cbn. rewrite !app_nil_r. split; [|auto].
    rewrite <- !app_assoc. apply Permutation_app_head, Permutation_app_comm. }
  rewrite cancelled_calm. destruct (detect w index img) as [detected|e]; [|exact I].
  rewrite cancelled_calm. destruct detected as [|b bs]; [apply Hskip|].
  destruct (ocr_process _ _ _ _ _) as [blks|e]; [|apply Hskip].
  rewrite !cancelled_calm. destruct (inpaint _ _ _ _) as [cleaned|e]; [|exact I].
  rewrite cancelled_calm.
  match goal with |- context [store_for_batch ?d ?s] =>
    set (stored := store_for_batch d s) end.
  assert (Hlocs : output_locs (events stored) = output_locs (events st)).
  { subst stored. unfold store_for_batch. cbn [events].
    destruct (export_inpainted_image mp); rewrite !output_locs_emit; cbn;
      now rewrite !app_nil_r. }
  assert (Hentries : stored_paths stored = stored_paths st ++ [path]).
  { subst stored. unfold store_for_batch, stored_paths. cbn [image_batches_data].
    destruct (export_inpainted_image mp); cbn [image_batches_data emit heap];
      rewrite (dict_set_fresh _ String.eqb_eq) by exact Hfresh;
      now rewrite fmap_app. }
  assert (Hstored :
            output_locs (events stored) ++ (locate w mp <$> stored_paths stored)
            ≡ₚ (output_locs (events st) ++ (locate w mp <$> stored_paths st))
               ++ (locate w mp <$> [path]) /\
            (forall p, p ∈ stored_paths stored -> p = path \/ p ∈ stored_paths st)).
  { rewrite Hlocs, Hentries, fmap_app, app_assoc. split; [reflexivity|].
    intros p [Hp|Hp%list_elem_of_singleton]%elem_of_app; auto. }
  destruct (_ || _); [|exact Hstored].
  destruct (flush_calm total index stored) as (st' & -> & Hc & He).
  unfold stored_paths in *. now rewrite Hc, He.
Qed.

Lemma main_loop_calm total paths index st :
  NoDup paths ->
  (forall p, p ∈ paths -> p ∉ stored_paths st) ->
  match main_loop w mp total index paths st with
  | Next st' =>
      output_locs (events st') ++ (locate w mp <$> stored_paths st')
      ≡ₚ (output_locs (events st) ++ (locate w mp <$> stored_paths st))
         ++ (locate w mp <$> decodable w index paths)
  | Break _ => False
  | Raised _ _ => True
  end.
Proof using calm.
  revert index st. induction paths as [|path rest IH]; intros index st Hnd Hfresh;
    cbn [main_loop]; [cbn; now rewrite app_nil_r|].
  apply NoDup_cons in Hnd as [Hnotin Hnd].
  assert (Hone := process_one_calm total index path st
                    (Hfresh path ltac:(apply elem_of_cons; now left))).
  destruct (process_one w mp total index path st) as [st'|st'|e st']; try exact Hone.
  destruct Hone as [Hperm Hkeys].
  assert (Hrest := IH (S index) st' Hnd).
  destruct (main_loop w mp total (S index) rest st') as [st''|st''|e st''];
    [|apply Hrest|exact I].
  - rewrite Hrest.
    + rewrite (decodable_cons index path rest), Hperm, fmap_app.
      now rewrite <- !app_assoc.
    + intros p Hp Hin. destruct (Hkeys p Hin) as [->|Hold]; [contradiction|].
      apply (Hfresh p); [apply elem_of_cons; now right|exact Hold].
  - intros p Hp Hin. destruct (Hkeys p Hin) as [->|Hold]; [contradiction|].
    apply (Hfresh p); [apply elem_of_cons; now right|exact Hold].
Qed.

(** One iteration of the post-translation loop writes exactly one output, at
    the location of its image. *)
Lemma finalize_one_calm total entry st :
  entry ∈ image_batches_data st -> state_ok w mp st ->
  exists st',
    finalize_one w mp total entry st = Next st' /\
    output_locs (events st') = output_locs (events st) ++ [locate w mp (fst entry)].
Proof using calm.
  intros Hin Hok.
  destruct (ok_refs w mp st Hok entry Hin) as (d & Hd & Hpath).
  destruct (ok_heap w mp st Hok _ _ Hd) as [_ Hloc].
  unfold finalize_one.
  rewrite (deref_lookup _ _ _ Hd). cbn zeta. rewrite Hloc, Hpath.
  destruct (skipped d).
  { rewrite log_after_skip_save. eexists. split; [reflexivity|]. unfold skip_save.
    rewrite !output_locs_emit. cbn. now rewrite !app_nil_r. }
  destruct (json_loads _ _ _).
  2:{ rewrite log_after_skip_save. eexists. split; [reflexivity|]. unfold skip_save.
      rewrite !output_locs_emit. cbn. now rewrite !app_nil_r. }
  rewrite !cancelled_calm. eexists. split; [reflexivity|].
  rewrite !output_locs_emit. cbn. rewrite !app_nil_r.
  destruct (export_raw_text mp), (export_translated_text mp);
    rewrite ?output_locs_emit; cbn; now rewrite ?app_nil_r.
Qed.

Lemma post_loop_calm total entries st :
  (forall entry, entry ∈ entries -> entry ∈ image_batches_data st) ->
  state_ok w mp st ->
  exists st',
    post_loop w mp total entries st = Next st' /\
    output_locs (events st')
    = output_locs (events st) ++ (locate w mp <$> entries.*1).
Proof using calm.
  revert st. induction entries as [|entry rest IH]; intros st Hsub Hok;
    cbn [post_loop].
  - exists st. split; [reflexivity|]. cbn. now rewrite app_nil_r.
  - assert (Hin : entry ∈ image_batches_data st)
      by (apply Hsub, elem_of_cons; now left).
    assert (Hok1 := state_ok_finalize_one total entry st Hin Hok).
    destruct (finalize_one_keeps total entry st) as [_ Hkeep].
    destruct (finalize_one_calm total entry st Hin Hok) as (st1 & Hone & H1).
    rewrite Hone in Hok1, Hkeep |- *. cbn [state_of] in Hok1, Hkeep.
    destruct (IH st1) as (st2 & -> & H2); [|exact Hok1|].
    { intros x Hx. rewrite Hkeep. apply Hsub, elem_of_cons. now right. }
    exists st2. split; [reflexivity|].
    rewrite H2, H1. cbn. now rewrite <- app_assoc.
Qed.

End Calm.

Lemma archive_one_locs total archive_index a st :
  output_locs (events (state_of (archive_one w mp total archive_index a st)))
  = output_locs (events st).
Proof.
  unfold archive_one.
  destruct (cancelled _ _ _);
    [cbn [state_of drop_worker events]; rewrite output_locs_emit; cbn;
     now rewrite app_nil_r|].
  destruct (lookup_ext _ _);
    [|cbn [state_of]; rewrite output_locs_emit; cbn; now rewrite app_nil_r].
  destruct (cancelled _ _ _);
    [cbn [state_of drop_worker events]; rewrite !output_locs_emit; cbn;
     now rewrite !app_nil_r|].
  destruct (make _ _ _ _ _ _);
    [|cbn [state_of]; rewrite !output_locs_emit; cbn; now rewrite !app_nil_r].
  destruct (cancelled _ _ _);
    [cbn [state_of drop_worker events]; rewrite !output_locs_emit; cbn;
     now rewrite !app_nil_r|].
  destruct (save_dir_exists w archive_index), (is_directory_empty w archive_index);
    cbn [state_of]; rewrite !output_locs_emit; cbn; now rewrite !app_nil_r.
Qed.

Lemma archive_loop_locs total archives archive_index st :
  output_locs (events (state_of (archive_loop w mp total archive_index archives st)))
  = output_locs (events st).
Proof.
  revert archive_index st.
  induction archives as [|a rest IH]; intros archive_index st; cbn [archive_loop];
    [reflexivity|].
  assert (Hone := archive_one_locs total archive_index a st).
  destruct (archive_one w mp total archive_index a st) as [st'|st'|e st'];
    cbn [state_of] in Hone |- *; try exact Hone.
  now rewrite IH.
Qed.

(** In a run that nobody cancels and no exception ends, the files written
    under [translated_images] are the output files of the images that can be
    decoded. *)
Lemma batch_process_locs worker st :
  (forall ck, is_cancelled w ck = false) ->
  NoDup (image_files mp) ->
  batch_process w mp worker = (st, None) ->
  output_locs (events st) ≡ₚ locate w mp <$> decodable w 0 (image_files mp).
Proof.
  intros calm Hnd. unfold batch_process.
  assert (Hmain := main_loop_calm calm (length (image_files mp)) (image_files mp) 0
                     (initial worker) Hnd
                     (fun p _ Hin => proj1 (elem_of_nil p) Hin)).
  assert (Hok := state_ok_main_loop (length (image_files mp)) (image_files mp) 0
                   (initial worker) (fun i path H => H) (state_ok_initial worker)).
  destruct (main_loop _ _ _ _ _ _) as [st1|st1|e st1]; [|contradiction|discriminate].
  cbn in Hmain, Hok. unfold post_processing. rewrite cancelled_calm by exact calm.
  destruct (post_loop_calm calm (length (image_files mp)) (image_batches_data st1) st1
              (fun _ H => H) Hok)
    as (st2 & -> & H2).
  unfold after_post_processing. rewrite cancelled_calm by exact calm.
  intros Hrun.
  assert (Hst : st = state_of (archive_loop w mp (length (image_files mp)) 0
                                 (archive_info mp) st2)).
  { rewrite <- state_of_after_loop. now rewrite Hrun. }
  rewrite Hst, archive_loop_locs, H2. exact Hmain.
Qed.

(** C4, amended.  Whenever the skip signal is sent for an image, the image
    was decoded and its untouched original has been written as its file under
    [translated_images]; and every file written there belongs to a decoded
    image of the run.  For an image that cannot be decoded nothing is written
    under [translated_images]: where the run directory exists, its iteration
    sends the first progress signal, appends the path to the skip log, and
    does nothing else.  So a run that nobody cancels, that no exception ends,
    and whose images have distinct output files, writes exactly the output
    files of the images that can be decoded, each once: as many files as
    there are such images. *)
Theorem skipped_images_keep_their_original worker :
  let run := batch_process w mp worker in
  let evs := events (fst run) in
  (forall path stage msg,
     image_skipped path stage msg ∈ evs ->
     exists index img,
       decoded w mp index path img /\
       write_file translated_images (locate w mp path) (Original img) ∈ evs) /\
  (forall l c,
     write_file translated_images l c ∈ evs ->
     exists index path img,
       decoded w mp index path img /\ l = locate w mp path /\
       (c = Original img \/ exists cleaned blks, c = Rendered cleaned blks)) /\
  (forall total index path st,
     imread w index path = None ->
     let dir := directory (locate w mp path) in
     output_locs (events (state_of (process_one w mp total index path st)))
     = output_locs (events st) /\
     (run_dir_exists w st dir = true ->
      process_one w mp total index path st
      = Next (emit_all [progress_update index total 0 10 true;
                        append_skip_log dir path] st))) /\
  ((forall ck, is_cancelled w ck = false) ->
   NoDup (locate w mp <$> image_files mp) ->
   snd run = None ->
   (output_locs evs ≡ₚ locate w mp <$> decodable w 0 (image_files mp)) /\
   NoDup (output_locs evs) /\
   length (outputs evs) = readable w 0 (image_files mp)).
Proof.
  intros run evs.
  destruct (state_ok_batch_process worker) as [[Ho Hs] _ _]. fold run evs in Ho, Hs.
  rewrite Forall_forall in Ho. rewrite Forall_forall in Hs.
  split; [|split; [|split]].
  - intros path stage msg Hin. exact (Hs _ Hin).
  - intros l c Hin. exact (Ho _ Hin).
  - intros total index path st Hread dir. unfold process_one. rewrite Hread.
    fold dir. unfold log_skipped_image. rewrite run_dir_exists_emit. cbn [makes_run_dir].
    rewrite orb_false_r. split.
    + destruct (run_dir_exists w st dir); cbn [state_of];
        rewrite !output_locs_emit; cbn; now rewrite !app_nil_r.
    + intros ->. now rewrite !emit_as_emit_all, emit_all_emit_all.
  - intros calm Hnd Hnone.
    assert (Hperm : output_locs evs ≡ₚ locate w mp <$> decodable w 0 (image_files mp)).
    { apply (batch_process_locs worker (fst run) calm).
      - exact (NoDup_fmap_1 _ _ Hnd).
      - subst run. destruct (batch_process w mp worker) as [st exc]. cbn in *.
        now subst. }
    split; [exact Hperm|]. split.
    + rewrite Hperm. now apply decodable_distinct.
    + rewrite <- output_locs_length, Hperm, length_fmap. apply decodable_length.
Qed.

End Run.

(** The statement above in a run of two images: the OCR engine fails on the
    first, whose original is written, and the second cannot be decoded.  One
    file for two images. *)
Lemma one_output_for_one_readable_page :
  let mp := book [page 0; "/books/torn.png"] [] in
  let evs := events (fst (batch_process ocr_down_on_first mp true)) in
  (output_locs evs
   ≡ₚ locate ocr_down_on_first mp <$> decodable ocr_down_on_first 0 (image_files mp)) /\
  NoDup (output_locs evs) /\
  length (outputs evs) = 1.
Proof.
  refine (proj2 (proj2 (proj2 (skipped_images_keep_their_original ocr_down_on_first
            (book [page 0; "/books/torn.png"] []) true))) _ _ _).
  - reflexivity.
  - apply NoDup_cons. split; [|apply NoDup_singleton].
    intros H%list_elem_of_singleton. vm_compute in H. discriminate H.
  - reflexivity.
Defined.

(** C4 as stated fails for an image that cannot be decoded.  In a run of two
    images, the OCR engine fails on the first one, whose original is written,
    and the second one cannot be decoded: it is appended to the skip log, but
    nothing is written for it under [translated_images], so the run ends
    normally with one output file for two input images.  When the torn image
    is the only one of the run, no run directory exists when the log is
    opened, and the run ends with a [FileNotFoundError] and no output at
    all. *)
Lemma unreadable_image_has_no_output :
  let mp := book [page 0; "/books/torn.png"] [] in
  let run := batch_process ocr_down_on_first mp true in
  let alone := batch_process ocr_down_on_first (book ["/books/torn.png"] []) true in
  length (image_files mp) = 2 /\
  imread ocr_down_on_first 1 "/books/torn.png" = None /\
  snd run = None /\
  append_skip_log "/books" "/books/torn.png" ∈ events (fst run) /\
  outputs (events (fst run))
  = [write_file translated_images (mkLoc "/books" "" "a" ".png") (Original (Pixels 1))] /\
  (locate ocr_down_on_first mp "/books/torn.png" ∉ output_locs (events (fst run))) /\
  (exists e, snd alone = Some e /\ exn_class_of e = FileNotFoundError) /\
  outputs (events (fst alone)) = [].
Proof.
  cbv zeta. split; [reflexivity|]. split; [reflexivity|]. split; [reflexivity|].
  split; [apply (list_elem_of_lookup_2 _ 7); vm_compute; reflexivity|].
  split; [vm_compute; reflexivity|]. split.
  - intros H%list_elem_of_In. vm_compute in H. destruct H as [H|[]]. discriminate H.
  - split; [eexists; split; vm_compute; reflexivity|vm_compute; reflexivity].
Qed.

End OutputFacts.

(** ** More on the translation batch *)

Module BatchMore.
Import Py Pipeline PipelineTrace Scenarios BatchFacts.

(** *** Handing the translations back *)

Lemma deref_set_blk_list_alter l (h : list image_data) i j :
  deref (alter (set_blk_list l) i h) j
  = if decide (i = j /\ j < length h) then set_blk_list l (deref h j) else deref h j.
Proof. apply deref_alter. Qed.

Lemma distribute_inside translated ranges (h : list image_data) entry :
  NoDup ranges.*2 -> entry ∈ ranges -> snd entry < length h ->
  deref (distribute translated ranges h) (snd entry)
  = set_blk_list (slice translated (fst (fst entry)) (snd (fst entry)))
                 (deref h (snd entry)).
Proof.
  unfold distribute. revert h.
  induction ranges as [|r ranges IH]; intros h Hnd Hin Hlt;
    [now apply elem_of_nil in Hin|].
  cbn [fmap list_fmap] in Hnd. apply NoDup_cons in Hnd as [Hfresh Hnd].
  cbn [fold_left]. apply elem_of_cons in Hin as [->|Hin].
  - fold (distribute translated ranges
            (alter (set_blk_list (slice translated (fst (fst r)) (snd (fst r))))
                   (snd r) h)).
    unfold deref at 1. rewrite distribute_outside.
    + fold (deref (alter (set_blk_list (slice translated (fst (fst r)) (snd (fst r))))
                         (snd r) h) (snd r)).
      rewrite deref_alter, decide_True; auto.
    + intros entry Hin Heq. apply Hfresh. rewrite <- Heq.
      now apply list_elem_of_fmap_2.
  - rewrite IH by (rewrite ?length_alter; auto).
    rewrite deref_alter, decide_False; [reflexivity|].
    intros [Heq _]. apply Hfresh. rewrite Heq. now apply list_elem_of_fmap_2.
Qed.

Lemma take_add {A} (u : list A) n m :
  take (n + m) u = take n u ++ take m (drop n u).
Proof.
  revert u. induction n as [|n IH]; intros u; [reflexivity|].
  destruct u as [|x u]; cbn; [now rewrite take_nil|]. now rewrite IH.
Qed.

(** Slices taken at ranges that follow one another add up to one slice. *)
Lemma slice_concat {A} (t : list A) a rs b :
  contiguous a rs b ->
  concat ((fun r => slice t (fst r) (snd r)) <$> rs) = slice t a b.
Proof.
  revert a. induction rs as [|r rs IH]; intros a; cbn.
  - intros ->. unfold slice. now rewrite Nat.sub_diag.
  - intros (H1 & H2 & H3). rewrite (IH _ H3). subst a.
    apply contiguous_bounds in H3 as [H3 _].
    unfold slice.
    replace (b - fst r) with ((snd r - fst r) + (b - snd r)) by lia.
    rewrite take_add, drop_drop.
    now replace (fst r + (snd r - fst r)) with (snd r) by lia.
Qed.

Lemma slice_all {A} (t : list A) : slice t 0 (length t) = t.
Proof. unfold slice. rewrite Nat.sub_0_r. cbn. apply take_ge. lia. Qed.

Lemma slice_length {A} (t : list A) s e :
  e <= length t -> length (slice t s e) = e - s.
Proof. intros He. unfold slice. rewrite length_take, length_drop. lia. Qed.

Lemma concat_by_entries (h : list image_data) (t : list TextBlock)
    (ranges : list ((nat * nat) * nat)) :
  (forall entry, entry ∈ ranges ->
     blk_list (deref h (snd entry)) = slice t (fst (fst entry)) (snd (fst entry))) ->
  concat ((fun ref => blk_list (deref h ref)) <$> ranges.*2)
  = concat ((fun r => slice t (fst r) (snd r)) <$> ranges.*1).
Proof.
  induction ranges as [|r ranges IH]; intros Hall; cbn; [reflexivity|].
  rewrite (Hall r) by (apply elem_of_cons; now left).
  f_equal. apply IH. intros entry Hin. apply Hall. apply elem_of_cons. now right.
Qed.

(** X1.  A flush whose call returns hands the result back by ranges: every
    record of the batch gets the slice of the returned list at its range and
    keeps its other fields.  When the returned list is as long as the combined
    list, the block lists of the batch, in batch order, add up to the returned
    list, and no record changes its number of blocks. *)
Theorem flush_hands_back_slices w mp total index st src tgt translated :
  let m := merge_batch (heap st) (translation_batches st) in
  let img := image (deref (heap st) (hd 0 (translation_batches st))) in
  combined_blk_list m <> [] -> translator m = Some (src, tgt) ->
  cancelled w st (at_stage index 6) = false ->
  translate w index src tgt (combined_blk_list m) img (extra_context mp)
  = Ok translated ->
  batch_refs_valid st -> NoDup (translation_batches st) ->
  Forall (fun ref => blk_list (deref (heap st) ref) <> []) (translation_batches st) ->
  exists st',
    flush w mp total index st = Next st' /\
    (forall entry, entry ∈ batch_indices_map m ->
       deref (heap st') (snd entry)
       = set_blk_list (slice translated (fst (fst entry)) (snd (fst entry)))
                      (deref (heap st) (snd entry))) /\
    (length translated = length (combined_blk_list m) ->
     concat ((fun ref => blk_list (deref (heap st') ref)) <$> translation_batches st)
     = translated /\
     forall ref, ref ∈ translation_batches st ->
       length (blk_list (deref (heap st') ref))
       = length (blk_list (deref (heap st) ref))).
Proof.
  intros m img Hne Ht Hc Hcall Hvalid Hnd Hfull.
  destruct (merge_batch_ok (heap st) (translation_batches st))
    as [Hcomb Hidx Hcont Hentries Horder].
  fold m in Hcomb, Hidx, Hcont, Hentries, Horder. specialize (Horder Hfull).
  eexists. split.
  { rewrite (flush_nonempty w mp total index st src tgt Hne Ht).
    rewrite Hc. fold m img. rewrite Hcall. reflexivity. }
  cbn [heap with_batch with_heap emit].
  assert (Hslices : forall entry, entry ∈ batch_indices_map m ->
            deref (distribute translated (batch_indices_map m) (heap st)) (snd entry)
            = set_blk_list (slice translated (fst (fst entry)) (snd (fst entry)))
                           (deref (heap st) (snd entry))).
  { intros entry Hin. apply distribute_inside; [now rewrite Horder|exact Hin|].
    unfold batch_refs_valid in Hvalid. rewrite Forall_forall in Hvalid.
    apply Hvalid. rewrite <- Horder. now apply list_elem_of_fmap_2. }
  split; [exact Hslices|]. intros Hlen. split.
  - rewrite <- Horder at 1.
    rewrite (concat_by_entries _ translated).
    + rewrite (slice_concat translated 0 _ _ Hcont), <- Hlen. apply slice_all.
    + intros entry Hin. now rewrite (Hslices entry Hin).
  - intros ref Hin. rewrite <- Horder in Hin.
    apply list_elem_of_fmap in Hin as (entry & -> & Hin).
    rewrite (Hslices entry Hin). cbn [blk_list set_blk_list].
    rewrite Forall_forall in Hentries. destruct (Hentries entry Hin) as [Hrange _].
    rewrite <- Hrange. apply slice_length.
    apply contiguous_bounds in Hcont as [_ Hbound]. rewrite Forall_forall in Hbound.
    rewrite Hlen. apply (Hbound (fst entry)). now apply list_elem_of_fmap_2.
Qed.

(** The statement above for the two waiting pages, whose three blocks come
    back translated. *)
Lemma translations_of_two_pages :
  exists st',
    flush quiet_studio (book [page 0; page 1] []) 2 1 pending = Next st' /\
    blk_list (deref (heap st') 0) = [say "hello" (speech 10); say "hello" (speech 20)] /\
    blk_list (deref (heap st') 1) = [say "hello" (speech 30)].
Proof.
  destruct (flush_hands_back_slices quiet_studio (book [page 0; page 1] []) 2 1 pending
              "Japanese" "English"
              [say "hello" (speech 10); say "hello" (speech 20); say "hello" (speech 30)]
              ltac:(discriminate) eq_refl eq_refl eq_refl
              ltac:(repeat constructor)
              ltac:(repeat constructor; intros H; repeat (apply elem_of_cons in H as [H|H]; [discriminate H|]); now apply elem_of_nil in H)
              ltac:(repeat constructor; discriminate))
    as (st' & Hflush & Hslices & _).
  exists st'. split; [exact Hflush|]. split.
  - pose proof (Hslices ((0, 2), 0) ltac:(apply elem_of_cons; now left)) as H0.
    cbn [fst snd] in H0. now rewrite H0.
  - pose proof (Hslices ((2, 3), 1)
                  ltac:(apply elem_of_cons; right; apply elem_of_cons; now left)) as H1.
    cbn [fst snd] in H1. now rewrite H1.
Defined.

(** X2.  However a flush ends, it leaves [image_batches_data] and the number
    of records as they are, and it does not touch a record outside its own
    batch: the results of a call, and the skip marks of a failed call, go to
    the images that were merged into that call and to no other. *)
Theorem flush_stays_in_its_batch w mp total index st :
  let st' := state_of (flush w mp total index st) in
  image_batches_data st' = image_batches_data st /\
  length (heap st') = length (heap st) /\
  forall ref, ref ∉ translation_batches st -> heap st' !! ref = heap st !! ref.
Proof.
  unfold flush.
  destruct (combined_blk_list _) as [|b bs] eqn:Hcomb; [now cbn|].
  destruct (translator _) as [[src tgt]|]; [|now cbn].
  destruct (cancelled _ _ _); [now cbn|].
  destruct (translate _ _ _ _ _ _ _) as [translated|e]; cbn.
  - split; [reflexivity|]. split; [apply distribute_length|].
    intros ref Hout. apply distribute_outside. intros entry Hin <-.
    apply Hout. now apply merge_batch_refs with (h := heap st).
  - split; [reflexivity|]. split; [apply mark_skipped_length|].
    intros ref Hout. now apply mark_skipped_outside.
Qed.

(** *** The size of the batch *)

Lemma batch_nodup_store d st :
  batch_refs_valid st -> NoDup (translation_batches st) ->
  NoDup (translation_batches (store_for_batch d st)).
Proof.
  unfold batch_refs_valid, store_for_batch. cbn. intros Hv Hnd.
  apply NoDup_app. split; [exact Hnd|]. split; [|apply NoDup_singleton].
  intros ref Hin ->%list_elem_of_singleton.
  rewrite Forall_forall in Hv. specialize (Hv _ Hin). cbn in Hv. lia.
Qed.

Lemma batch_nodup_flush w mp total index st :
  NoDup (translation_batches st) ->
  NoDup (translation_batches (state_of (flush w mp total index st))).
Proof.
  intros Hnd. unfold flush.
  destruct (combined_blk_list _) as [|b bs]; [constructor|].
  destruct (translator _) as [[src tgt]|]; [|constructor].
  destruct (cancelled _ _ _); [exact Hnd|].
  destruct (translate _ _ _ _ _ _ _); constructor.
Qed.

(** The references of the batch stay valid and distinct through the main
    loop. *)
Lemma batch_distinct_process_one w mp total index path st :
  batch_refs_valid st /\ NoDup (translation_batches st) ->
  let st' := state_of (process_one w mp total index path st) in
  batch_refs_valid st' /\ NoDup (translation_batches st').
Proof.
  intros [Hv Hnd]. split; [now apply batch_refs_valid_process_one|].
  unfold process_one.
  destruct (imread w index path) as [img|]; [|hold Hnd].
  destruct (cancelled _ _ _); [hold Hnd|].
  destruct (detect w index img) as [[|b bs]|e]; [| |hold Hnd];
    (destruct (cancelled _ _ _); [hold Hnd|]); [hold Hnd|].
  destruct (ocr_process _ _ _ _ _) as [blks|e]; [|hold Hnd].
  do 2 (destruct (cancelled _ _ _); [hold Hnd|]).
  destruct (inpaint _ _ _ _) as [cleaned|e]; [|hold Hnd].
  destruct (cancelled _ _ _); [destruct (export_inpainted_image mp); hold Hnd|].
  match goal with |- context [store_for_batch ?d ?s] =>
    assert (Hs : NoDup (translation_batches (store_for_batch d s)))
      by (apply batch_nodup_store; destruct (export_inpainted_image mp); assumption)
  end.
  destruct (_ || _); [now apply batch_nodup_flush|exact Hs].
Qed.

Lemma batch_distinct_main_loop w mp total paths index st :
  batch_refs_valid st /\ NoDup (translation_batches st) ->
  let st' := state_of (main_loop w mp total index paths st) in
  batch_refs_valid st' /\ NoDup (translation_batches st').
Proof.
  revert index st. induction paths as [|path rest IH]; intros index st Hok;
    cbn [main_loop]; [exact Hok|].
  assert (Hone := batch_distinct_process_one w mp total index path st Hok).
  destruct (process_one w mp total index path st); try exact Hone. now apply IH.
Qed.

Lemma flush_bound w mp total index st :
  length (translation_batches st) <= batch_size ->
  match flush w mp total index st with
  | Next st' => length (translation_batches st') < batch_size
  | Break st' | Raised _ st' => length (translation_batches st') <= batch_size
  end.
Proof.
  intros Hle. unfold flush, batch_size in *.
  destruct (combined_blk_list _) as [|b bs]; [cbn; lia|].
  destruct (translator _) as [[src tgt]|]; [|cbn; lia].
  destruct (cancelled _ _ _); [exact Hle|].
  destruct (translate _ _ _ _ _ _ _); cbn; lia.
Qed.

Lemma process_one_bound w mp total index path st :
  length (translation_batches st) < batch_size ->
  match process_one w mp total index path st with
  | Next st' => length (translation_batches st') < batch_size
  | Break st' | Raised _ st' => length (translation_batches st') <= batch_size
  end.
Proof.
  intros Hlt. assert (Hle : length (translation_batches st) <= batch_size) by lia.
  unfold process_one.
  destruct (imread w index path) as [img|];
    [|unfold log_skipped_image; destruct (run_dir_exists _ _ _); [exact Hlt|exact Hle]].
  destruct (cancelled _ _ _); [exact Hle|].
  destruct (detect w index img) as [[|b bs]|e]; [| |exact Hle];
    (destruct (cancelled _ _ _); [exact Hle|]);
    [rewrite log_after_skip_save; exact Hlt|].
  destruct (ocr_process _ _ _ _ _) as [blks|e];
    [|rewrite log_after_skip_save; exact Hlt].
  do 2 (destruct (cancelled _ _ _); [exact Hle|]).
  destruct (inpaint _ _ _ _) as [cleaned|e]; [|exact Hle].
  destruct (cancelled _ _ _); [destruct (export_inpainted_image mp); exact Hle|].
  match goal with |- context [store_for_batch ?d ?s] =>
    set (stored := store_for_batch d s) end.
  assert (Hstored : length (translation_batches stored)
                    = S (length (translation_batches st))).
  { subst stored. unfold store_for_batch. cbn [translation_batches].
    rewrite length_app. cbn [length].
    destruct (export_inpainted_image mp); cbn [translation_batches emit]; lia. }
  destruct (length (translation_batches stored) =? batch_size)%nat eqn:Hfull;
    cbn [orb].
  - apply flush_bound. unfold batch_size in *. lia.
  - apply Nat.eqb_neq in Hfull.
    destruct (index =? total - 1)%nat.
    + apply flush_bound. unfold batch_size in *. lia.
    + unfold batch_size in *. lia.
Qed.

Lemma translate_calls_emit e st :
  translate_calls (events (emit e st))
  = translate_calls (events st) ++ (if is_translate_call e then [e] else []).
Proof.
  unfold translate_calls. cbn [events emit]. rewrite filter_app. f_equal.
  destruct (is_translate_call e) eqn:E; cbn; rewrite E; reflexivity.
Qed.

(** A flush calls the translator at most once, for its whole batch. *)
Lemma flush_calls w mp total index st :
  let st' := state_of (flush w mp total index st) in
  translate_calls (events st') = translate_calls (events st) \/
  translate_calls (events st')
  = translate_calls (events st) ++ [merged_call mp (heap st) (translation_batches st)].
Proof.
  cbn zeta.
  destruct (combined_blk_list (merge_batch (heap st) (translation_batches st)))
    as [|b bs] eqn:Hcomb.
  { left. unfold flush. now rewrite Hcomb. }
  destruct (translation_batches st) as [|first rest] eqn:Hbatch; [discriminate Hcomb|].
  assert (Ht := translator_of_first (heap st) first rest).
  assert (Hne : combined_blk_list (merge_batch (heap st) (translation_batches st)) <> [])
    by (rewrite Hbatch, Hcomb; discriminate).
  rewrite <- Hbatch in Ht |- *.
  rewrite (flush_nonempty w mp total index st _ _ Hne Ht).
  destruct (cancelled _ _ _);
    [left; cbn [state_of]; rewrite translate_calls_emit; cbn; now rewrite app_nil_r|].
  right. unfold merged_call.
  rewrite <- (ok_combined _ _ _ (merge_batch_ok (heap st) (translation_batches st))).
  assert (Hfirst : hd 0 (translation_batches st) = first) by now rewrite Hbatch.
  rewrite !Hfirst.
  destruct (translate _ _ _ _ _ _ _); cbn [state_of];
    unfold with_batch, with_heap; cbn [events];
    rewrite !translate_calls_emit; cbn [is_translate_call];
    now rewrite app_nil_r.
Qed.

(** One iteration of the main loop calls the translator at most once, for
    the records that waited and the record of its own image. *)
Lemma process_one_calls w mp total index path st :
  length (translation_batches st) < batch_size ->
  let st' := state_of (process_one w mp total index path st) in
  let batch := translation_batches st ++ [length (heap st)] in
  translate_calls (events st') = translate_calls (events st) \/
  exists d,
    image_path d = path /\ original_index d = index /\
    length batch <= batch_size /\
    translate_calls (events st')
    = translate_calls (events st) ++ [merged_call mp (heap st ++ [d]) batch].
Proof.
  intros Hlt. cbn zeta. unfold process_one.
  destruct (imread w index path) as [img|].
  2:{ left. unfold log_skipped_image. destruct (run_dir_exists _ _ _);
        cbn [state_of]; rewrite !translate_calls_emit; cbn; now rewrite !app_nil_r. }
  destruct (cancelled _ _ _);
    [left; cbn [state_of]; rewrite !translate_calls_emit; cbn; now rewrite !app_nil_r|].
  destruct (detect w index img) as [detected|e];
    [|left; cbn [state_of]; rewrite !translate_calls_emit; cbn; now rewrite !app_nil_r].
  destruct (cancelled _ _ _);
    [left; cbn [state_of]; rewrite !translate_calls_emit; cbn; now rewrite !app_nil_r|].
  destruct detected as [|b bs];
    [left; rewrite log_after_skip_save; unfold skip_save; cbn [state_of];
     rewrite !translate_calls_emit; cbn; now rewrite !app_nil_r|].
  destruct (ocr_process _ _ _ _ _) as [blks|e];
    [|left; rewrite log_after_skip_save; unfold skip_save; cbn [state_of];
      rewrite !translate_calls_emit; cbn; now rewrite !app_nil_r].
  do 2 (destruct (cancelled _ _ _);
    [left; cbn [state_of]; rewrite !translate_calls_emit; cbn; now rewrite !app_nil_r|]).
  destruct (inpaint _ _ _ _) as [cleaned|e];
    [|left; cbn [state_of]; rewrite !translate_calls_emit; cbn; now rewrite !app_nil_r].
  match goal with |- context [emit (progress_update index total 5 10 false) ?s] =>
    set (s5 := emit (progress_update index total 5 10 false) s) end.
  assert (H5 : translate_calls (events s5) = translate_calls (events st)
               /\ heap s5 = heap st /\ translation_batches s5 = translation_batches st).
  { subst s5. destruct (export_inpainted_image mp); cbn [heap translation_batches emit];
      rewrite !translate_calls_emit; cbn; now rewrite !app_nil_r. }
  destruct H5 as (Hcalls & Hheap & Hbatch).
  destruct (cancelled _ _ _); [left; exact Hcalls|].
  match goal with |- context [store_for_batch ?x s5] =>
    set (d := x); set (stored := store_for_batch d s5) end.
  assert (Hstored : translate_calls (events stored) = translate_calls (events st)
                    /\ heap stored = heap st ++ [d]
                    /\ translation_batches stored
                       = translation_batches st ++ [length (heap st)]).
  { subst stored. unfold store_for_batch. cbn [events heap translation_batches].
    now rewrite Hcalls, Hheap, Hbatch. }
  destruct Hstored as (Hc & Hh & Hb).
  destruct (_ || _); [|left; exact Hc].
  destruct (flush_calls w mp total index stored) as [Hf|Hf]; cbn zeta in Hf.
  - left. now rewrite Hf.
  - right. exists d. split; [reflexivity|]. split; [reflexivity|]. split.
    + rewrite length_app. cbn. unfold batch_size in *. lia.
    + now rewrite Hf, Hc, Hh, Hb.
Qed.

(** X3.  The batch never outgrows its size.  When the main loop starts with
    fewer than 10 waiting records, it ends with fewer than 10 (a tenth record
    triggers the flush, which empties the batch), and at most 10 are waiting
    when the loop is left by cancellation or by an exception.  And an
    iteration that starts with fewer than 10 waiting records calls the
    translator at most once, with the languages and the image of the first
    record of its batch and with the block lists of the records that waited
    and of the record of its own image, which are at most 10 records: no call
    of the translator merges more than 10 images. *)
Theorem batch_never_outgrows_its_size w mp total :
  (forall paths index st,
     length (translation_batches st) < batch_size ->
     match main_loop w mp total index paths st with
     | Next st' => length (translation_batches st') < batch_size
     | Break st' | Raised _ st' => length (translation_batches st') <= batch_size
     end) /\
  (forall index path st,
     length (translation_batches st) < batch_size ->
     let st' := state_of (process_one w mp total index path st) in
     let batch := translation_batches st ++ [length (heap st)] in
     translate_calls (events st') = translate_calls (events st) \/
     exists d,
       image_path d = path /\ original_index d = index /\
       length batch <= batch_size /\
       translate_calls (events st')
       = translate_calls (events st) ++ [merged_call mp (heap st ++ [d]) batch]).
Proof.
  split.
  - induction paths as [|path rest IH]; intros index st Hlt;
      cbn [main_loop]; [exact Hlt|].
    assert (Hone := process_one_bound w mp total index path st Hlt).
    destruct (process_one w mp total index path st); try exact Hone. now apply IH.
  - intros index path st. apply process_one_calls.
Qed.

(** The statement above for a quiet run of 25 pages from the empty batch, and
    for the iteration of its tenth page, which starts with nine waiting
    records. *)
Lemma batch_bound_in_25_pages :
  let pages := page <$> seq 0 25 in
  let mp := book pages [] in
  let st9 := state_of (main_loop quiet_studio mp 25 0 (take 9 pages) (initial true)) in
  let st10 := state_of (process_one quiet_studio mp 25 9 (page 9) st9) in
  match main_loop quiet_studio mp 25 0 pages (initial true) with
  | Next st' => length (translation_batches st') < batch_size
  | Break st' | Raised _ st' => length (translation_batches st') <= batch_size
  end /\
  (translate_calls (events st10) = translate_calls (events st9) \/
   exists d,
     image_path d = page 9 /\ original_index d = 9 /\
     length (translation_batches st9 ++ [length (heap st9)]) <= batch_size /\
     translate_calls (events st10)
     = translate_calls (events st9)
       ++ [merged_call mp (heap st9 ++ [d])
             (translation_batches st9 ++ [length (heap st9)])]).
Proof.
  split.
  - apply (proj1 (batch_never_outgrows_its_size quiet_studio
                    (book (page <$> seq 0 25) []) 25)
             (page <$> seq 0 25) 0 (initial true)).
    unfold batch_size. cbn. lia.
  - apply (proj2 (batch_never_outgrows_its_size quiet_studio
                    (book (page <$> seq 0 25) []) 25) 9 (page 9)).
    vm_compute. lia.
Defined.

End BatchMore.

(** ** More on the traces of a run *)

Module TraceFacts.
Import Py Pipeline PipelineTrace Scenarios MoreScenarios BatchFacts LoopFacts OutputFacts.

(** *** The shape of a trace *)

Section Shape.
Variables (w : world) (mp : main_page) (renders : bool).

Lemma shaped_emit e st :
  quiet e = true -> shaped_state w mp renders st -> shaped_state w mp renders (emit e st).
Proof. intros Hq Hs. now apply shaped_quiet. Qed.

Lemma shaped_log dir path st :
  shaped_state w mp renders st ->
  shaped_state w mp renders (state_of (log_skipped_image w dir path st)).
Proof.
  intros Hs. unfold log_skipped_image.
  destruct (run_dir_exists w st dir); [now apply shaped_emit|exact Hs].
Qed.

Lemma shaped_report index path img stage msg st :
  decoded w mp index path img ->
  shaped_state w mp renders st ->
  shaped_state w mp renders
    (state_of (log_skipped_image w (directory (locate w mp path)) path
                 (emit (image_skipped path stage msg)
                    (skip_save (locate w mp path) img st)))).
Proof.
  intros Hd Hs. rewrite log_after_skip_save.
  unfold shaped_state, skip_save. cbn [state_of events emit].
  rewrite <- !app_assoc. cbn [app]. now apply shaped_skip with (index := index).
Qed.

(** Goes back through the quiet events emitted since a shaped state. *)
Ltac unwind H := repeat first [exact H | apply shaped_emit; [reflexivity|]].

Lemma shaped_flush total index st :
  shaped_state w mp renders st ->
  shaped_state w mp renders (state_of (flush w mp total index st)).
Proof.
  intros Hs. unfold flush.
  destruct (combined_blk_list _) as [|b bs]; [exact Hs|].
  destruct (translator _) as [[src tgt]|]; [|exact Hs].
  destruct (cancelled _ _ _); [unwind Hs|].
  destruct (translate _ _ _ _ _ _ _); cbn [state_of]; unfold shaped_state;
    cbn [events with_batch with_heap]; fold (shaped_state w mp renders
      (emit (translate_call src tgt (b :: bs)
               (image (deref (heap st) (hd 0 (translation_batches st))))
               (extra_context mp))
         (emit (progress_update index total 6 10 false) st))); unwind Hs.
Qed.

Lemma shaped_process_one total index path st :
  image_files mp !! index = Some path ->
  shaped_state w mp renders st ->
  shaped_state w mp renders (state_of (process_one w mp total index path st)).
Proof.
  intros Hfile Hs. unfold process_one.
  destruct (imread w index path) as [img|] eqn:Hread;
    [|apply shaped_log; unwind Hs].
  assert (Hd : decoded w mp index path img) by now split.
  destruct (cancelled _ _ _); [unwind Hs|].
  destruct (detect w index img) as [detected|e]; [|unwind Hs].
  destruct (cancelled _ _ _); [unwind Hs|].
  destruct detected as [|b bs];
    [apply shaped_report with (index := index); [exact Hd|unwind Hs]|].
  destruct (ocr_process _ _ _ _ _) as [blks|e];
    [|apply shaped_report with (index := index); [exact Hd|unwind Hs]].
  do 2 (destruct (cancelled _ _ _); [unwind Hs|]).
  destruct (inpaint _ _ _ _) as [cleaned|e]; [|unwind Hs].
  match goal with |- context [emit (progress_update index total 5 10 false) ?s] =>
    assert (H5 : shaped_state w mp renders (emit (progress_update index total 5 10 false) s))
      by (destruct (export_inpainted_image mp); unwind Hs) end.
  destruct (cancelled _ _ _); [exact H5|].
  destruct (_ || _); [apply shaped_flush|]; exact H5.
Qed.

Lemma shaped_main_loop total paths index st :
  (forall i path, paths !! i = Some path -> image_files mp !! (index + i) = Some path) ->
  shaped_state w mp renders st ->
  shaped_state w mp renders (state_of (main_loop w mp total index paths st)).
Proof.
  revert index st. induction paths as [|path rest IH]; intros index st Hfiles Hs;
    cbn [main_loop]; [exact Hs|].
  assert (Hone := shaped_process_one total index path st).
  rewrite <- (Nat.add_0_r index) in Hone at 1.
  specialize (Hone (Hfiles 0 path eq_refl) Hs).
  destruct (process_one w mp total index path st); try exact Hone.
  apply IH; [|exact Hone].
  intros i p Hp. replace (S index + i) with (index + S i) by lia. now apply Hfiles.
Qed.

Lemma shaped_archive_one total archive_index a st :
  shaped_state w mp renders st ->
  shaped_state w mp renders (state_of (archive_one w mp total archive_index a st)).
Proof.
  intros Hs. unfold archive_one.
  destruct (cancelled _ _ _); [cbn [state_of]; unwind Hs|].
  destruct (lookup_ext _ _) as [target|]; [|unwind Hs].
  destruct (cancelled _ _ _); [cbn [state_of]; unwind Hs|].
  destruct (make _ _ _ _ _ _); [|unwind Hs].
  destruct (cancelled _ _ _); [cbn [state_of]; unwind Hs|].
  destruct (save_dir_exists w archive_index), (is_directory_empty w archive_index);
    cbn [state_of]; unwind Hs.
Qed.

Lemma shaped_archive_loop total archives archive_index st :
  shaped_state w mp renders st ->
  shaped_state w mp renders (state_of (archive_loop w mp total archive_index archives st)).
Proof.
  revert archive_index st.
  induction archives as [|a rest IH]; intros archive_index st Hs;
    cbn [archive_loop]; [exact Hs|].
  assert (Hone := shaped_archive_one total archive_index a st Hs).
  destruct (archive_one w mp total archive_index a st); try exact Hone. now apply IH.
Qed.

End Shape.

Lemma shaped_weaken w mp evs : shaped w mp false evs -> shaped w mp true evs.
Proof.
  induction 1 as [|evs e _ IH Hq|evs index path img stage msg _ IH Hd|evs l c b _ _ Hr].
  - constructor.
  - now apply shaped_quiet.
  - now apply shaped_skip with (index := index).
  - discriminate.
Qed.

Section Post.
Variables (w : world) (mp : main_page).

Lemma shaped_finalize_one total entry st :
  entry ∈ image_batches_data st -> state_ok w mp st ->
  shaped_state w mp true st ->
  shaped_state w mp true (state_of (finalize_one w mp total entry st)).
Proof.
  intros Hin Hok Hs.
  destruct (ok_refs w mp st Hok entry Hin) as (d & Hd & Hpath).
  destruct (ok_heap w mp st Hok _ _ Hd) as [Hdec Hloc].
  unfold finalize_one. rewrite (deref_lookup _ _ _ Hd). cbn zeta.
  rewrite Hloc, <- Hpath.
  destruct (skipped d);
    [now apply shaped_report with (index := original_index d)|].
  destruct (json_loads _ _ _);
    [|now apply shaped_report with (index := original_index d)].
  match goal with |- context [emit (progress_update ?i total 7 10 false) ?s] =>
    assert (H7 : shaped_state w mp true (emit (progress_update i total 7 10 false) s))
  end.
  { apply shaped_emit; [reflexivity|].
    destruct (export_raw_text mp), (export_translated_text mp);
      repeat first [exact Hs | apply shaped_emit; [reflexivity|]]. }
  destruct (cancelled _ _ _); [exact H7|].
  match goal with |- context [emit (progress_update ?i total 8 10 false) ?s] =>
    assert (H8 : shaped_state w mp true (emit (progress_update i total 8 10 false) s))
      by now apply shaped_emit end.
  destruct (cancelled _ _ _); [exact H8|].
  match goal with |- context [emit (progress_update ?i total 9 10 false) ?s] =>
    assert (H9 : shaped_state w mp true (emit (progress_update i total 9 10 false) s))
  end.
  { apply shaped_emit; [reflexivity|]. now apply shaped_render. }
  destruct (cancelled _ _ _); exact H9.
Qed.

Lemma shaped_post_loop total entries st :
  (forall entry, entry ∈ entries -> entry ∈ image_batches_data st) ->
  state_ok w mp st ->
  shaped_state w mp true st ->
  shaped_state w mp true (state_of (post_loop w mp total entries st)).
Proof.
  revert st. induction entries as [|entry rest IH]; intros st Hsub Hok Hs;
    cbn [post_loop]; [exact Hs|].
  assert (Hin : entry ∈ image_batches_data st)
    by (apply Hsub, elem_of_cons; now left).
  assert (Hone := shaped_finalize_one total entry st Hin Hok Hs).
  assert (Hok1 := state_ok_finalize_one w mp total entry st Hin Hok).
  destruct (finalize_one_keeps w mp total entry st) as [_ Hkeep].
  destruct (finalize_one w mp total entry st) as [st'|st'|e st']; try exact Hone.
  cbn [state_of] in Hone, Hok1, Hkeep.
  apply IH; [|exact Hok1|exact Hone].
  intros x Hx. rewrite Hkeep. apply Hsub, elem_of_cons. now right.
Qed.

Lemma shaped_batch_process worker :
  shaped w mp true (events (fst (batch_process w mp worker))).
Proof.
  unfold batch_process.
  assert (Hmain := shaped_main_loop w mp true (length (image_files mp))
                     (image_files mp) 0 (initial worker) (fun i path H => H)
                     (shaped_nil w mp true)).
  assert (Hok := state_ok_main_loop w mp (length (image_files mp)) (image_files mp) 0
                   (initial worker) (fun i path H => H) (state_ok_initial w mp worker)).
  assert (Hrest : forall st, state_ok w mp st -> shaped_state w mp true st ->
            shaped w mp true (events
              (fst (match post_processing w mp (length (image_files mp)) st with
                    | Raised e st' => (st', Some e)
                    | Next st' | Break st' =>
                        after_loop
                          (archive_loop w mp (length (image_files mp)) 0
                             (archive_info mp) (after_post_processing w st'))
                    end)))).
  { intros st Hst Hs.
    assert (Hpost : shaped_state w mp true
                      (state_of (post_processing w mp (length (image_files mp)) st))).
    { unfold post_processing. destruct (cancelled _ _ _); [exact Hs|].
      now apply shaped_post_loop. }
    assert (Harch : forall st', shaped_state w mp true st' ->
              shaped w mp true (events (fst (after_loop
                (archive_loop w mp (length (image_files mp)) 0 (archive_info mp)
                   (after_post_processing w st')))))).
    { intros st' Hs'. rewrite state_of_after_loop. apply shaped_archive_loop.
      unfold after_post_processing. destruct (cancelled _ _ _); exact Hs'. }
    destruct (post_processing _ _ _ st); cbn [state_of] in Hpost;
      [now apply Harch|now apply Harch|exact Hpost]. }
  destruct (main_loop _ _ _ _ _ _); cbn [state_of] in Hmain, Hok;
    [now apply Hrest|now apply Hrest|exact Hmain].
Qed.

End Post.

(** *** Reading a shaped trace *)

Lemma shaped_skip_reported w mp renders evs path stage msg :
  shaped w mp renders evs ->
  image_skipped path stage msg ∈ evs ->
  exists before index img after,
    decoded w mp index path img /\
    evs = before ++ skip_report (locate w mp path) img path stage msg ++ after.
Proof.
  induction 1 as [|evs e _ IH Hq|evs index p img s m _ IH Hd|evs l c b _ IH Hr];
    intros Hin.
  - now apply elem_of_nil in Hin.
  - apply elem_of_app in Hin as [Hin|Hin%list_elem_of_singleton].
    + destruct (IH Hin) as (before & i & im & after & Hdec & ->).
      exists before, i, im, (after ++ [e]). split; [exact Hdec|].
      now rewrite <- !app_assoc.
    + subst e. discriminate Hq.
  - apply elem_of_app in Hin as [Hin|Hin].
    + destruct (IH Hin) as (before & i & im & after & Hdec & ->).
      exists before, i, im, (after ++ skip_report (locate w mp p) img p s m).
      split; [exact Hdec|]. now rewrite <- !app_assoc.
    + unfold skip_report in Hin.
      apply elem_of_cons in Hin as [Hin|Hin]; [discriminate Hin|].
      apply elem_of_cons in Hin as [Hin|Hin].
      * injection Hin as -> -> ->. exists evs, index, img, [].
        split; [exact Hd|]. now rewrite app_nil_r.
      * apply list_elem_of_singleton in Hin. discriminate Hin.
  - apply elem_of_app in Hin as [Hin|Hin%list_elem_of_singleton]; [|discriminate Hin].
    destruct (IH Hin) as (before & i & im & after & Hdec & ->).
    eexists before, i, im, (after ++ [_]). split; [exact Hdec|].
    now rewrite <- !app_assoc.
Qed.

Lemma shaped_never_renders w mp evs :
  shaped w mp false evs -> Forall (fun e => is_rendered e = false) evs.
Proof.
  induction 1 as [|evs e _ IH Hq|evs index p img s m _ IH Hd|evs l c b _ _ Hr].
  - constructor.
  - apply Forall_app. split; [exact IH|]. apply Forall_singleton.
    destruct e as [| | |k l c| | | |]; try reflexivity.
    destruct k; try reflexivity. discriminate Hq.
  - apply Forall_app. split; [exact IH|]. repeat constructor.
  - discriminate.
Qed.

(** X5.  Every skip signal of a run is part of a full report about a
    decoded image of the run: right before the signal the untouched original
    of that very image is written under [translated_images], at the output
    location of its path, and right after the signal the path is appended to
    the skip log of the directory the original was written for. *)
Theorem every_skip_is_saved_and_logged w mp worker path stage msg :
  let evs := events (fst (batch_process w mp worker)) in
  image_skipped path stage msg ∈ evs ->
  exists before index img after,
    decoded w mp index path img /\
    evs = before
          ++ [write_file translated_images (locate w mp path) (Original img);
              image_skipped path stage msg;
              append_skip_log (directory (locate w mp path)) path]
          ++ after.
Proof.
  intros evs Hin.
  apply (shaped_skip_reported w mp true evs path stage msg); [|exact Hin].
  apply shaped_batch_process.
Qed.

(** The statement above for the page whose OCR fails in a run of three. *)
Lemma ocr_skip_is_saved_and_logged :
  let mp := book [page 0; page 1; page 2] [] in
  exists before index img after,
    decoded ocr_down_on_second mp index (page 1) img /\
    events (fst (batch_process ocr_down_on_second mp true))
    = before
      ++ [write_file translated_images (locate ocr_down_on_second mp (page 1))
            (Original img);
          image_skipped (page 1) "OCR" "engine offline";
          append_skip_log (directory (locate ocr_down_on_second mp (page 1))) (page 1)]
      ++ after.
Proof.
  apply (every_skip_is_saved_and_logged ocr_down_on_second
           (book [page 0; page 1; page 2] []) true (page 1) "OCR" "engine offline").
  apply (list_elem_of_lookup_2 _ 11). vm_compute. reflexivity.
Defined.

(** X7.  When the cancellation flag is found set at the test that follows the
    main loop, the run renders nothing: the post-translation loop is not
    entered, so the only files under [translated_images] are the originals of
    skipped images, also for images whose translation had already come
    back. *)
Theorem cancelled_main_loop_renders_nothing w mp worker :
  let st1 := state_of (main_loop w mp (length (image_files mp)) 0 (image_files mp)
                         (initial worker)) in
  cancelled w st1 after_main_loop = true ->
  Forall (fun e => is_rendered e = false)
         (events (fst (batch_process w mp worker))).
Proof.
  intros st1 Hc. apply (shaped_never_renders w mp). unfold batch_process.
  assert (Hmain : shaped_state w mp false st1)
    by (apply shaped_main_loop; [exact (fun i path H => H)|apply shaped_nil]).
  assert (Hrest : forall st, st = st1 ->
            shaped w mp false (events
              (fst (match post_processing w mp (length (image_files mp)) st with
                    | Raised e st' => (st', Some e)
                    | Next st' | Break st' =>
                        after_loop
                          (archive_loop w mp (length (image_files mp)) 0
                             (archive_info mp) (after_post_processing w st'))
                    end)))).
  { intros st ->. unfold post_processing. rewrite Hc.
    rewrite state_of_after_loop. apply shaped_archive_loop.
    unfold after_post_processing. cbn. exact Hmain. }
  subst st1.
  destruct (main_loop _ _ _ _ _ _); cbn [state_of] in *;
    [now apply Hrest|now apply Hrest|exact Hmain].
Qed.

(** The statement above when the user cancels during the flush of the only
    page. *)
Lemma cancelled_single_page_renders_nothing :
  Forall (fun e => is_rendered e = false)
         (events (fst (batch_process cancel_before_translation (book [page 0] []) true))).
Proof.
  apply (cancelled_main_loop_renders_nothing cancel_before_translation
           (book [page 0] []) true).
  vm_compute. reflexivity.
Defined.

(** *** The archiving pass without a worker *)

Lemma make_calls_emit_all evs st :
  make_calls (events (emit_all evs st)) = make_calls (events st) ++ make_calls evs.
Proof. unfold make_calls. cbn. apply filter_app. Qed.

Lemma archive_loop_unguarded w mp total archives archive_index st :
  current_worker st = false ->
  (forall i a, archives !! i = Some a -> packable w mp (archive_index + i) a) ->
  exists st',
    archive_loop w mp total archive_index archives st = Next st' /\
    outputs (events st') = outputs (events st) /\
    make_calls (events st')
    = make_calls (events st) ++ concat (archive_call w mp <$> archives).
Proof.
  revert archive_index st.
  induction archives as [|a rest IH]; intros archive_index st Hw Hpack;
    cbn [archive_loop].
  { exists st. cbn. now rewrite app_nil_r. }
  destruct (Hpack 0 a eq_refl) as (target & Hext & Hmake).
  rewrite Nat.add_0_r in Hmake.
  rewrite (archive_one_packed w mp total archive_index a st target Hext Hmake).
  unfold cancelled. rewrite Hw. cbn [andb].
  match goal with |- context [emit_all ?evs st] => set (done := emit_all evs st) end.
  destruct (IH (S archive_index) done) as (st' & Hloop & Hout & Hcalls).
  { subst done. exact Hw. }
  { intros i b Hb. replace (S archive_index + i) with (archive_index + S i) by lia.
    now apply Hpack. }
  exists st'. split; [exact Hloop|]. split.
  - rewrite Hout. subst done. unfold outputs. cbn [events emit_all].
    rewrite filter_app.
    destruct (save_dir_exists w archive_index), (is_directory_empty w archive_index);
      cbn; now rewrite app_nil_r.
  - rewrite Hcalls. subst done. rewrite make_calls_emit_all.
    cbn [fmap list_fmap concat]. unfold archive_call at 2. rewrite Hext.
    rewrite <- app_assoc. f_equal.
    destruct (save_dir_exists w archive_index), (is_directory_empty w archive_index);
      reflexivity.
Qed.

(** X4.  Cancelling does not stop the archiving.  When the flag is found set
    at the test that follows the main loop, the worker is detached before the
    archiving pass, whose three tests then never see the flag: the
    post-translation loop writes nothing, and the packer is still called for
    every archive, in list order. *)
Theorem cancelled_run_still_packs w mp total st :
  let st1 := after_post_processing w (state_of (post_processing w mp total st)) in
  cancelled w st after_main_loop = true ->
  (forall i a, archive_info mp !! i = Some a -> packable w mp i a) ->
  events st1 = events st /\
  exists st',
    archive_loop w mp total 0 (archive_info mp) st1 = Next st' /\
    outputs (events st') = outputs (events st) /\
    make_calls (events st')
    = make_calls (events st) ++ concat (archive_call w mp <$> archive_info mp).
Proof.
  intros st1 Hc Hpack. subst st1. unfold post_processing. rewrite Hc.
  cbn [state_of]. unfold after_post_processing.
  change (cancelled w (drop_worker st) after_post_loop) with false. cbn iota.
  split; [reflexivity|].
  apply (archive_loop_unguarded w mp total (archive_info mp) 0 (drop_worker st));
    [reflexivity|exact Hpack].
Qed.

(** The statement above for two volumes, with the flag set after the main
    loop. *)
Lemma cancelled_run_packs_two_volumes :
  exists st',
    archive_loop cancel_before_translation (book [] two_volumes) 0 0 two_volumes
      (after_post_processing cancel_before_translation
         (state_of (post_processing cancel_before_translation (book [] two_volumes) 0
                      (initial true))))
    = Next st' /\
    make_calls (events st')
    = [make_call ".cbz" (save_dir "/books" "vol1") "/books" "vol1";
       make_call ".cbz" (save_dir "/books" "vol2") "/books" "vol2"].
Proof.
  assert (Hpack : forall i a, two_volumes !! i = Some a ->
                    packable cancel_before_translation (book [] two_volumes) i a).
  { intros [|[|i]] a H; cbn in H; [injection H as <-|injection H as <-|discriminate H];
      exists "cbz"; split; reflexivity. }
  destruct (proj2 (cancelled_run_still_packs cancel_before_translation
                     (book [] two_volumes) 0 (initial true) eq_refl Hpack))
    as (st' & Hloop & _ & Hcalls).
  exists st'. split; [exact Hloop|exact Hcalls].
Defined.

(** X6.  An archive whose extension (in lower case) has no entry in the
    [save_as] settings ends the pass with a [KeyError]: the packer is not
    called for it, and the archives after it are not looked at. *)
Theorem unknown_archive_format_ends_pass w mp total archive_index a rest st :
  let ext := lower (snd (splitext w (archive_path a))) in
  cancelled w st (at_archive archive_index 1) = false ->
  lookup_ext ext (save_as mp) = None ->
  archive_loop w mp total archive_index (a :: rest) st
  = Raised (raise_exn KeyError ext)
      (emit (progress_update (total + archive_index) total 1 3 true) st).
Proof.
  intros ext Hc Hext. cbn [archive_loop]. unfold archive_one.
  rewrite cancelled_emit, Hc. fold ext. now rewrite Hext.
Qed.

(** The statement above for a [.RAR] archive followed by a [.cbz] one. *)
Lemma rar_volume_ends_pass :
  archive_loop quiet_studio (book [] (rar_volume :: two_volumes)) 0 0
    (rar_volume :: two_volumes) (initial true)
  = Raised (raise_exn KeyError ".rar")
      (emit (progress_update 0 0 1 3 true) (initial true)).
Proof.
  exact (unknown_archive_format_ends_pass quiet_studio
           (book [] (rar_volume :: two_volumes)) 0 0 rar_volume two_volumes
           (initial true) eq_refl eq_refl).
Defined.

(** *** Exceptions of the unguarded stages *)

Lemma make_calls_emit e st :
  make_calls (events (emit e st))
  = make_calls (events st) ++ (if is_make_call e then [e] else []).
Proof.
  unfold make_calls. cbn [events emit]. rewrite filter_app. f_equal.
  destruct (is_make_call e) eqn:E; cbn; rewrite E; reflexivity.
Qed.

Lemma make_calls_flush w mp total index st :
  make_calls (events (state_of (flush w mp total index st))) = make_calls (events st).
Proof.
  unfold flush.
  destruct (combined_blk_list _) as [|b bs]; [reflexivity|].
  destruct (translator _) as [[src tgt]|]; [|reflexivity].
  destruct (cancelled _ _ _);
    [cbn [state_of]; rewrite make_calls_emit; cbn; now rewrite app_nil_r|].
  destruct (translate _ _ _ _ _ _ _); cbn [state_of];
    unfold make_calls; cbn; rewrite !filter_app; cbn; now rewrite !app_nil_r.
Qed.

Lemma make_calls_process_one w mp total index path st :
  make_calls (events (state_of (process_one w mp total index path st)))
  = make_calls (events st).
Proof.
  unfold process_one.
  destruct (imread w index path) as [img|];
    [|unfold log_skipped_image; destruct (run_dir_exists _ _ _);
      cbn [state_of]; rewrite !make_calls_emit; cbn; now rewrite !app_nil_r].
  destruct (cancelled _ _ _);
    [cbn [state_of]; rewrite !make_calls_emit; cbn; now rewrite !app_nil_r|].
  destruct (detect w index img) as [detected|e];
    [|cbn [state_of]; rewrite !make_calls_emit; cbn; now rewrite !app_nil_r].
  destruct (cancelled _ _ _);
    [cbn [state_of]; rewrite !make_calls_emit; cbn; now rewrite !app_nil_r|].
  destruct detected as [|b bs];
    [rewrite log_after_skip_save; unfold skip_save;
     cbn [state_of]; rewrite !make_calls_emit; cbn; now rewrite !app_nil_r|].
  destruct (ocr_process _ _ _ _ _) as [blks|e];
    [|rewrite log_after_skip_save; unfold skip_save;
      cbn [state_of]; rewrite !make_calls_emit; cbn; now rewrite !app_nil_r].
  do 2 (destruct (cancelled _ _ _);
    [cbn [state_of]; rewrite !make_calls_emit; cbn; now rewrite !app_nil_r|]).
  destruct (inpaint _ _ _ _) as [cleaned|e];
    [|cbn [state_of]; rewrite !make_calls_emit; cbn; now rewrite !app_nil_r].
  match goal with |- context [emit (progress_update index total 5 10 false) ?s] =>
    assert (H5 : make_calls (events (emit (progress_update index total 5 10 false) s))
                 = make_calls (events st))
      by (destruct (export_inpainted_image mp); rewrite !make_calls_emit; cbn;
          now rewrite !app_nil_r) end.
  destruct (cancelled _ _ _); [exact H5|].
  destruct (_ || _); [rewrite make_calls_flush|]; exact H5.
Qed.

Lemma make_calls_main_loop w mp total paths index st :
  make_calls (events (state_of (main_loop w mp total index paths st)))
  = make_calls (events st).
Proof.
  revert index st. induction paths as [|path rest IH]; intros index st;
    cbn [main_loop]; [reflexivity|].
  assert (Hone := make_calls_process_one w mp total index path st).
  destruct (process_one w mp total index path st); cbn [state_of] in *;
    try exact Hone.
  now rewrite IH.
Qed.

(** X8.  Detection and inpainting are not guarded.  An exception of the
    detector leaves the main loop in the iteration it is raised in, and an
    exception that leaves the main loop leaves [batch_process]: the
    post-translation loop and the archiving pass do not run, so no page is
    rendered, also not the pages translated before, and no archive is
    packed. *)
Theorem detector_exception_ends_run w mp worker :
  (forall total index path rest st img e,
     imread w index path = Some img ->
     cancelled w st (at_stage index 1) = false ->
     detect w index img = Raise e ->
     main_loop w mp total index (path :: rest) st
     = Raised e (emit_all [progress_update index total 0 10 true;
                           progress_update index total 1 10 false] st)) /\
  (forall e st1,
     main_loop w mp (length (image_files mp)) 0 (image_files mp) (initial worker)
     = Raised e st1 ->
     batch_process w mp worker = (st1, Some e) /\
     Forall (fun ev => is_rendered ev = false) (events st1) /\
     make_calls (events st1) = []).
Proof.
  split.
  - intros total index path rest st img e Hread Hc Hdet. cbn [main_loop].
    unfold process_one. rewrite Hread, !cancelled_emit, Hc, Hdet.
    now rewrite !emit_as_emit_all, emit_all_emit_all.
  - intros e st1 Hmain. split; [|split].
    + unfold batch_process. now rewrite Hmain.
    + apply (shaped_never_renders w mp).
      change (shaped_state w mp false (state_of (Raised e st1))). rewrite <- Hmain.
      apply shaped_main_loop; [exact (fun i path H => H)|apply shaped_nil].
    + change (make_calls (events (state_of (Raised e st1))) = []).
      rewrite <- Hmain. now rewrite make_calls_main_loop.
Qed.

(** The statement above in a run of three pages whose second page makes the
    detector fail, after the first page was stored for translation. *)
Lemma detector_failure_on_second_page :
  snd (batch_process detector_down_on_second (book [page 0; page 1; page 2] two_volumes)
         true)
  = Some (raise_exn RuntimeError "CUDA out of memory") /\
  make_calls (events (fst (batch_process detector_down_on_second
                             (book [page 0; page 1; page 2] two_volumes) true))) = [].
Proof.
  destruct (proj2 (detector_exception_ends_run detector_down_on_second
                     (book [page 0; page 1; page 2] two_volumes) true)
              (raise_exn RuntimeError "CUDA out of memory")
              (state_of (main_loop detector_down_on_second
                           (book [page 0; page 1; page 2] two_volumes) 3 0
                           [page 0; page 1; page 2] (initial true)))
              ltac:(vm_compute; reflexivity))
    as (Hrun & _ & Hcalls).
  rewrite Hrun. split; [reflexivity|exact Hcalls].
Defined.

End TraceFacts.

(** ** More on the OCR adapter *)

Module GPTOCRMore.
Import Py ChatCompletions GPTOCR GPTOCRCases Scenarios MoreScenarios GPTOCRFacts.

(** *** Newlines *)

Lemma contains_newline_cons c r :
  contains newline (String c r) = Ascii.eqb "010"%char c || contains newline r.
Proof.
  cbn [contains String.prefix newline].
  destruct (ascii_dec "010" c) as [<-|Hne].
  - cbn. now destruct r.
  - apply Ascii.eqb_neq in Hne. rewrite Hne. now destruct r.
Qed.

Lemma replace_newlines_clean s : contains newline (replace_newlines s) = false.
Proof.
  induction s as [|c r IH]; [reflexivity|].
  cbn [replace_newlines]. rewrite contains_newline_cons, IH, orb_false_r.
  destruct (Ascii.eqb c "010") eqn:E; [reflexivity|].
  rewrite Ascii.eqb_sym. exact E.
Qed.

Lemma replace_newlines_id s : contains newline s = false -> replace_newlines s = s.
Proof.
  induction s as [|c r IH]; [reflexivity|].
  rewrite contains_newline_cons. intros [Hc Hr]%orb_false_elim.
  cbn [replace_newlines]. rewrite Ascii.eqb_sym, Hc. f_equal. now apply IH.
Qed.

Lemma replace_newlines_app a b :
  replace_newlines (a +:+ b) = replace_newlines a +:+ replace_newlines b.
Proof.
  induction a as [|c a IH]; [reflexivity|].
  change (String c a +:+ b) with (String c (a +:+ b)).
  cbn [replace_newlines]. rewrite IH. reflexivity.
Qed.

Lemma prefix_app p x : String.prefix p (p +:+ x) = true.
Proof.
  induction p as [|c p IH]; [now destruct x|].
  change (String c p +:+ x) with (String c (p +:+ x)). cbn [String.prefix].
  destruct (ascii_dec c c); [exact IH|congruence].
Qed.

Section Formatting.
Variable py_str : json -> string.

(** The last step of [_get_gpt_ocr] on a string. *)
Lemma newline_step t :
  (let! has_newline := py_in newline (JStr t) in
   if has_newline then py_replace_newlines (JStr t) else Ok (JStr t))
  = Ok (JStr (replace_newlines t)).
Proof.
  cbn [py_in bind]. destruct (contains newline t) eqn:E; cbn [py_replace_newlines].
  - reflexivity.
  - now rewrite replace_newlines_id.
Qed.

(** X9.  A text that [_get_gpt_ocr] returns as a string never contains a
    newline: a recognised text is returned with its newlines replaced by
    spaces, and every failure inside the [try] gives the empty string. *)
Theorem recognised_text_has_no_newline self post image s :
  _get_gpt_ocr py_str self post image = Ok (JStr s) ->
  contains newline s = false.
Proof.
  unfold _get_gpt_ocr. destruct (key_missing self); [discriminate|].
  destruct (post image) as [r|e]; cbn [bind]; [|now intros [= <-]].
  destruct (status_code r =? 200)%Z; [|now intros [= <-]].
  destruct (response_json r) as [doc|e]; cbn [bind]; [|now intros [= <-]].
  destruct (_extract_text_from_response py_str doc) as [text|e]; cbn [bind];
    [|now intros [= <-]].
  destruct text as [|b|z|t|items|members]; cbn [py_in bind];
    try (now intros [= <-]).
  - destruct (contains newline t) eqn:E; cbn [py_replace_newlines].
    + intros [= <-]. apply replace_newlines_clean.
    + now intros [= <-].
  - destruct (existsb _ _); cbn; [now intros [= <-]|discriminate].
  - destruct (bool_decide _); cbn; [now intros [= <-]|discriminate].
Qed.

Lemma extract_openai_text doc t :
  openai_text doc t -> _extract_text_from_response py_str doc = Ok (JStr t).
Proof.
  intros (members & choice & more & message & -> & He & Hc & Hm & Ht).
  unfold _extract_text_from_response, from_choices. cbn [py_in py_getitem].
  rewrite He, Hc. cbn. rewrite Hm. cbn. rewrite Ht. reflexivity.
Qed.

Lemma extract_reported_error doc :
  reported_error doc ->
  exists msg,
    _extract_text_from_response py_str doc
    = Ok (JStr ("[OCR Error: " +:+ msg +:+ "]")).
Proof.
  intros (members & info & -> & Herr & Hmsg & Hmeta).
  unfold _extract_text_from_response. cbn [py_in py_getitem]. rewrite Herr.
  change (bool_decide (is_Some (Some (JObj info)))) with true. cbn [bind py_get].
  assert (Hlow : exists s, py_lower (default (JStr "Unknown API error")
                                       (dict_lookup "message" info)) = Ok s).
  { destruct (dict_lookup "message" info) as [m|] eqn:Hm; cbn [default].
    - destruct (Hmsg m eq_refl) as [s ->]. cbn. eauto.
    - cbn. eauto. }
  assert (Hprov : exists p,
            (let! metadata := Ok (default (JObj []) (dict_lookup "metadata" info)) in
             py_get metadata "provider_name" (JStr "API provider")) = Ok p).
  { cbn [bind]. destruct (dict_lookup "metadata" info) as [m|] eqn:Hm; cbn [default].
    - destruct (Hmeta m eq_refl) as [d ->]. cbn. eauto.
    - cbn. eauto. }
  destruct Hlow as [low Hlow]. destruct Hprov as [p Hprov]. cbn [bind] in Hprov.
  unfold is_rate_limit. rewrite Hlow.
  destruct (py_eq_429 _); cbn [bind].
  - rewrite Hprov. cbn [bind]. eauto.
  - destruct (contains "rate limit" low); cbn [bind]; [|eauto].
    rewrite Hprov. cbn [bind]. eauto.
Qed.

Lemma extract_unrecognized doc :
  unrecognized_object doc ->
  _extract_text_from_response py_str doc
  = Ok (JStr "[OCR Error: Unrecognized API response format]").
Proof.
  intros (members & -> & He & Hc & Hn & Hr).
  unfold _extract_text_from_response, from_choices. cbn [py_in].
  rewrite He, Hc, Hn, Hr. reflexivity.
Qed.

Lemma process_block_answered self w shape n blk doc t :
  answered self w shape n blk doc ->
  _extract_text_from_response py_str doc = Ok (JStr t) ->
  process_block py_str self w shape n blk = set_text blk (JStr (replace_newlines t)).
Proof.
  intros (c & image & r & Hc & Hv & He & Hk & Hp & Hs & Hj) Hex.
  unfold process_block. rewrite Hc. cbn [bind]. rewrite Hv, He. cbn [bind].
  unfold _get_gpt_ocr. rewrite Hk, Hp. cbn [bind]. rewrite Hs. cbn.
  unfold response_json. rewrite Hj. cbn [bind]. rewrite Hex. cbn [bind].
  now rewrite newline_step.
Qed.

(** X10.  When the request for a block is answered with status 200 and a
    document in the standard format, the block gets the content of the first
    choice's message with every newline replaced by a space, and keeps its
    geometry and its translation. *)
Theorem process_image_writes_recognised_text self w shape blk_list n blk doc t :
  blk_list !! n = Some blk ->
  answered self w shape n blk doc ->
  openai_text doc t ->
  process_image py_str self w shape blk_list !! n
  = Some (set_text blk (JStr (replace_newlines t))).
Proof.
  intros Hn Hans Hdoc. unfold process_image.
  rewrite process_blocks_lookup, Hn. cbn. f_equal.
  apply (process_block_answered self w shape n blk doc t Hans).
  now apply extract_openai_text.
Qed.

Lemma extract_malformed doc :
  malformed_error doc ->
  exists e, _extract_text_from_response py_str doc = Raise e.
Proof.
  intros (members & info & -> & Herr & Hcase).
  unfold _extract_text_from_response. cbn [py_in py_getitem]. rewrite Herr.
  change (bool_decide (is_Some (Some info))) with true. cbn [bind].
  destruct Hcase as [Hno|(d & m & -> & Hm & Hstr & Hcode)].
  - destruct info as [| | | | |d]; cbn; eauto. now destruct (Hno d).
  - cbn [py_get bind]. rewrite Hm. cbn [default]. unfold is_rate_limit.
    rewrite Hcode. destruct m as [| | |s| |]; cbn; eauto. now destruct (Hstr s).
Qed.

Lemma process_block_unreadable self w shape n blk doc e :
  answered self w shape n blk doc ->
  _extract_text_from_response py_str doc = Raise e ->
  process_block py_str self w shape n blk = set_text blk (JStr "").
Proof.
  intros (c & image & r & Hc & Hv & He & Hk & Hp & Hs & Hj) Hex.
  unfold process_block. rewrite Hc. cbn [bind]. rewrite Hv, He. cbn [bind].
  unfold _get_gpt_ocr. rewrite Hk, Hp. cbn [bind]. rewrite Hs. cbn.
  unfold response_json. rewrite Hj. cbn [bind]. rewrite Hex. reflexivity.
Qed.

(** X11.  What a block gets when the endpoint reports an error inside a
    200 answer.  When the error member is an object in the documented form
    (its message, when present, is a string and its metadata, when present,
    is an object), the block's text becomes a message in square brackets that
    starts with [OCR Error: ].  When the error member is not an object, or
    its message is not a string while its code is not 429, reading it raises
    inside the [try] and the block's text is emptied.  An object with none of
    the members the adapter looks for gives the fixed message of the
    unrecognised format. *)
Theorem process_image_writes_error_text self w shape blk_list n blk doc :
  blk_list !! n = Some blk ->
  answered self w shape n blk doc ->
  (reported_error doc ->
   exists blk' s,
     process_image py_str self w shape blk_list !! n = Some blk' /\
     text blk' = JStr s /\ String.prefix "[OCR Error: " s = true) /\
  (malformed_error doc ->
   process_image py_str self w shape blk_list !! n = Some (set_text blk (JStr ""))) /\
  (unrecognized_object doc ->
   process_image py_str self w shape blk_list !! n
   = Some (set_text blk (JStr "[OCR Error: Unrecognized API response format]"))).
Proof.
  intros Hn Hans. unfold process_image. rewrite process_blocks_lookup, Hn. cbn.
  split; [|split].
  - intros Herr. destruct (extract_reported_error doc Herr) as [msg Hmsg].
    eexists _, _. split; [reflexivity|].
    rewrite (process_block_answered self w shape n blk doc _ Hans Hmsg).
    split; [reflexivity|]. rewrite replace_newlines_app.
    change (replace_newlines "[OCR Error: ") with "[OCR Error: ".
    apply prefix_app.
  - intros Hbad. destruct (extract_malformed doc Hbad) as [e He]. f_equal.
    exact (process_block_unreadable self w shape n blk doc e Hans He).
  - intros Hun. f_equal.
    now rewrite (process_block_answered self w shape n blk doc _ Hans
                   (extract_unrecognized doc Hun)).
Qed.

End Formatting.

Lemma two_line_text_is_joined :
  contains newline "first second" = false.
Proof.
  apply (recognised_text_has_no_newline plain_str demo_engine
           (fun _ => Ok two_line_reply) "aW1n").
  reflexivity.
Defined.

Lemma answered_in_world reply doc :
  status_code reply = 200%Z -> json_of reply = JsonOk doc ->
  answered demo_engine
    (mkWorld (fun box _ _ => Ok box) (fun _ => Ok "aW1n") (fun _ _ => Ok reply))
    (100, 100)%Z 0 fresh_block doc.
Proof.
  intros Hs Hj. exists (0, 0, 10, 10)%Z, "aW1n", reply.
  repeat split; try reflexivity; assumption.
Qed.

Lemma two_lines_written_as_one :
  process_image plain_str demo_engine two_line_world (100, 100)%Z [fresh_block] !! 0
  = Some (set_text fresh_block (JStr "first second")).
Proof.
  refine (process_image_writes_recognised_text plain_str demo_engine two_line_world
            (100, 100)%Z [fresh_block] 0 fresh_block _ ("first" +:+ newline +:+ "second")
            eq_refl _ _).
  - apply (answered_in_world two_line_reply); reflexivity.
  - eexists _, _, _, _. repeat split; reflexivity.
Defined.

Lemma throttled_block_gets_error_text :
  (exists blk' s,
     process_image plain_str demo_engine throttled_world (100, 100)%Z [fresh_block] !! 0
     = Some blk' /\
     text blk' = JStr s /\ String.prefix "[OCR Error: " s = true) /\
  process_image plain_str demo_engine quota_world (100, 100)%Z [fresh_block] !! 0
  = Some (set_text fresh_block (JStr "")).
Proof.
  split.
  - refine (proj1 (process_image_writes_error_text plain_str demo_engine throttled_world
                     (100, 100)%Z [fresh_block] 0 fresh_block _ eq_refl _) _).
    + apply (answered_in_world rate_limited); reflexivity.
    + eexists _, _. split; [reflexivity|]. split; [reflexivity|].
      split; intros m [= <-]; eauto.
  - refine (proj1 (proj2 (process_image_writes_error_text plain_str demo_engine
                            quota_world (100, 100)%Z [fresh_block] 0 fresh_block _
                            eq_refl _)) _).
    + apply (answered_in_world quota_reply); reflexivity.
    + eexists _, _. split; [reflexivity|]. split; [reflexivity|].
      left. discriminate.
Defined.

End GPTOCRMore.

(** ** More on the translation adapter *)

Module GPTTranslationMore.
Import Py ChatCompletions GPTTranslation GPTTranslationCases Scenarios MoreScenarios.
Import GPTTranslationFacts.

(** *** The URL *)

Lemma length_append a b : String.length (a +:+ b) = String.length a + String.length b.
Proof.
  induction a as [|c a IH]; [reflexivity|].
  change (String c a +:+ b) with (String c (a +:+ b)). cbn. now rewrite IH.
Qed.

Lemma substring_whole s : String.substring 0 (String.length s) s = s.
Proof. induction s as [|c s IH]; [reflexivity|]. cbn. now rewrite IH. Qed.

Lemma substring_after a b :
  String.substring (String.length a) (String.length b) (a +:+ b) = b.
Proof.
  induction a as [|c a IH]; [apply substring_whole|].
  change (String c a +:+ b) with (String c (a +:+ b)). cbn. exact IH.
Qed.

Lemma endswith_app s suffix : endswith (s +:+ suffix) suffix = true.
Proof.
  unfold endswith. rewrite length_append.
  replace (String.length s + String.length suffix - String.length suffix)
    with (String.length s) by lia.
  rewrite substring_after, String.eqb_refl, andb_true_r.
  apply Nat.leb_le. lia.
Qed.

(** X12.  The request always goes to a chat-completions endpoint: the URL
    built from the base URL ends with [/chat/completions], and a base URL that
    already ends with it is used as it is, so building the URL twice changes
    nothing. *)
Theorem api_url_is_a_completions_endpoint base :
  endswith (api_url base) "/chat/completions" = true /\
  api_url (api_url base) = api_url base.
Proof.
  assert (H : endswith (api_url base) "/chat/completions" = true).
  { unfold api_url. destruct (endswith base "/chat/completions") eqn:E;
      [exact E|apply endswith_app]. }
  split; [exact H|]. unfold api_url at 1. now rewrite H.
Qed.

Section Formatting.
Variable py_str : json -> string.
Variable json_dumps : json -> string.

(** *** Recognised answers *)

Lemma from_choices_none members :
  no_choice members -> from_choices (JObj members) = Ok None.
Proof.
  unfold from_choices. cbn [py_in py_getitem].
  intros [H|H]; rewrite H; reflexivity.
Qed.

Lemma extract_recognised doc v :
  recognised doc v -> extract_translation py_str doc = Ok v.
Proof.
  intros [members choice more message -> He Hc Hm Ht
         |members choice more -> He Hc Hm Ht
         |members -> He Hc Ht
         |members -> He Hc Hn Ht]; unfold extract_translation; cbn [py_in];
    rewrite He; cbn [bool_decide bind].
  - unfold from_choices. cbn [py_in py_getitem]. rewrite Hc. cbn.
    rewrite Hm. cbn. rewrite Ht. reflexivity.
  - unfold from_choices. cbn [py_in py_getitem]. rewrite Hc. cbn.
    rewrite Hm. cbn. rewrite Ht. reflexivity.
  - change (bool_decide (is_Some None)) with false. cbn iota.
    rewrite (from_choices_none members Hc). cbn [bind py_in py_getitem].
    rewrite Ht. reflexivity.
  - change (bool_decide (is_Some None)) with false. cbn iota.
    rewrite (from_choices_none members Hc). cbn [bind py_in py_getitem].
    rewrite Hn, Ht. reflexivity.
Qed.

(** X13.  An answer without error status whose document has one of the four
    recognised formats is returned: the content of the first choice's message
    comes first, then the text of the first choice, then the top-level
    [content], then the top-level [response].  The value is returned as it
    is, also when it is empty or null. *)
Theorem make_api_request_returns_recognised base post r doc v :
  post (api_url base) = Ok r -> ~ http_error_status r ->
  json_of r = JsonOk doc -> recognised doc v ->
  _make_api_request py_str json_dumps base post = Ok v.
Proof.
  intros Hpost Hst Hjson Hrec. unfold _make_api_request.
  rewrite Hpost. cbn [bind]. apply raise_for_status_ok in Hst. rewrite Hst.
  cbn [bind]. unfold response_json. rewrite Hjson. cbn [bind].
  now rewrite (extract_recognised doc v Hrec).
Qed.

(** *** The message of the [RuntimeError] *)

(** X14.  What the [RuntimeError] for an HTTP error status says.  When the
    body is not JSON, it is the message of the HTTP error followed by the
    status code.  When the body reports an error object without a code, the
    status code stands in for the code: a 429 answer is reported as a rate
    limit, naming the provider of the metadata (or [API provider]) and the
    message of the error object. *)
Theorem http_error_message base post r :
  post (api_url base) = Ok r -> http_error_status r ->
  (forall cls msg,
     json_of r = JsonFails cls msg ->
     _make_api_request py_str json_dumps base post
     = Raise (raise_exn RuntimeError
                ("API request failed: " +:+ status_text r +:+ " - Status code: "
                 +:+ py_str (JNum (status_code r))))) /\
  (forall members info,
     json_of r = JsonOk (JObj members) ->
     dict_lookup "error" members = Some (JObj info) ->
     well_formed_error info ->
     dict_lookup "code" info = None ->
     status_code r = 429%Z ->
     _make_api_request py_str json_dumps base post
     = Raise (raise_exn RuntimeError
                ("Rate limit exceeded for " +:+ py_str (provider_of info) +:+ ": "
                 +:+ py_str (default (JStr "Unknown error")
                               (dict_lookup "message" info))))).
Proof.
  intros Hpost Hst. split.
  - intros cls msg Hjson.
    rewrite (make_api_request_http_error py_str json_dumps base post r Hpost Hst).
    unfold request_error_message. cbn [exn_response exn_msg].
    unfold response_json. now rewrite Hjson.
  - intros members info Hjson Herr [Hmsg Hmeta] Hcode H429.
    rewrite (make_api_request_http_error py_str json_dumps base post r Hpost Hst).
    unfold request_error_message. cbn [exn_response exn_msg].
    unfold response_json. rewrite Hjson. cbn [bind py_in py_getitem].
    rewrite Herr. change (bool_decide (is_Some (Some (JObj info)))) with true.
    cbn [bind py_get]. rewrite Hcode. cbn [default]. rewrite H429.
    unfold is_rate_limit. cbn [py_eq_429 Z.eqb Pos.eqb bind].
    unfold provider_of.
    destruct (dict_lookup "metadata" info) as [m|] eqn:Hm; cbn [default].
    + destruct (Hmeta m eq_refl) as [d ->]. reflexivity.
    + reflexivity.
Qed.

End Formatting.

Lemma top_level_content_is_returned :
  _make_api_request plain_str plain_str "https://api.openai.com/v1"
    (fun _ => Ok content_reply) = Ok (JStr "hello").
Proof.
  refine (make_api_request_returns_recognised plain_str plain_str _ _ content_reply
            _ (JStr "hello") eq_refl _ eq_refl _).
  - unfold http_error_status. cbn. lia.
  - eapply top_content; [reflexivity|reflexivity|right; reflexivity|reflexivity].
Defined.

Lemma too_many_requests_message :
  _make_api_request plain_str plain_str "https://api.openai.com/v1"
    (fun _ => Ok too_many_requests)
  = Raise (raise_exn RuntimeError "Rate limit exceeded for OpenAI: slow down").
Proof.
  refine (proj2 (http_error_message plain_str plain_str "https://api.openai.com/v1"
                   (fun _ => Ok too_many_requests) too_many_requests eq_refl _)
            _ _ eq_refl eq_refl _ eq_refl eq_refl).
  - unfold http_error_status. cbn. lia.
  - split; intros m [= <-]; eauto.
Defined.

End GPTTranslationMore.

(** ** The entry point *)

Module ComicFacts.
Import Py Comic.

(** *** Splitting and joining *)

Lemma split_on_cons sep s : exists piece pieces, split_on sep s = piece :: pieces.
Proof.
  induction s as [|c s (piece & pieces & IH)]; cbn; [eauto|].
  destruct (Ascii.eqb c sep); [eauto|]. rewrite IH. eauto.
Qed.

Lemma split_on_app sep a b :
  split_on sep (a +:+ String sep b) = split_on sep a ++ split_on sep b.
Proof.
  induction a as [|c a IH].
  - change (EmptyString +:+ String sep b) with (String sep b). cbn.
    now rewrite Ascii.eqb_refl.
  - change (String c a +:+ String sep b) with (String c (a +:+ String sep b)).
    cbn [split_on]. rewrite IH.
    destruct (Ascii.eqb c sep); [reflexivity|].
    destruct (split_on_cons sep a) as (piece & pieces & ->). reflexivity.
Qed.

Lemma split_on_clean sep s : has_char sep s = false -> split_on sep s = [s].
Proof.
  induction s as [|c s IH]; cbn; [reflexivity|].
  intros [Hc Hs]%orb_false_elim. rewrite Hc, (IH Hs). reflexivity.
Qed.

Lemma split_join sep l :
  Forall (fun p => has_char sep p = false) l -> l <> [] ->
  split_on sep (join_with sep l) = l.
Proof.
  induction l as [|x [|y r] IH]; intros Hl Hne; [congruence| |].
  - cbn. apply split_on_clean. now inversion Hl.
  - change (join_with sep (x :: y :: r))
      with (x +:+ String sep (join_with sep (y :: r))).
    inversion Hl as [|? ? Hx Hr]; subst.
    rewrite split_on_app, (split_on_clean sep x Hx), (IH Hr); [reflexivity|discriminate].
Qed.

Lemma filter_none {A} (f : A -> bool) (l : list A) :
  (forall x, x ∈ l -> f x = false) -> List.filter f l = [].
Proof.
  induction l as [|x l IH]; intros H; [reflexivity|]. cbn.
  rewrite (H x (list_elem_of_here x l)). apply IH.
  intros y Hy. apply H. now apply list_elem_of_further.
Qed.

(** *** [adjust_nvidia_paths] *)

Section Platform.
Variable pathsep : ascii.
Variable path_join : string -> string -> string.
Variable isdir : string -> bool.

Lemma collect_targets_filter current targets acc :
  collect_targets isdir current targets acc
  = acc ++ List.filter (wanted isdir current) targets.*2.
Proof.
  revert acc. induction targets as [|[name path] rest IH]; intros acc; cbn.
  - now rewrite app_nil_r.
  - rewrite IH. unfold wanted at 2.
    destruct (isdir path); cbn; [|reflexivity].
    destruct (bool_decide (path ∈ current)); cbn; [reflexivity|].
    now rewrite <- app_assoc.
Qed.

Lemma paths_to_prepend_filter current_path :
  paths_to_prepend pathsep path_join isdir current_path
  = List.filter (wanted isdir (split_on pathsep current_path)) (candidates path_join).
Proof.
  unfold paths_to_prepend, candidates. rewrite collect_targets_filter, List.filter_app.
  cbn [app List.filter]. unfold wanted.
  destruct (isdir nvidia_smi_path && _); [reflexivity|now rewrite app_nil_r].
Qed.

Lemma entries_adjusted environ_path :
  entries pathsep (adjust_nvidia_paths pathsep path_join isdir environ_path)
  = match paths_to_prepend pathsep path_join isdir (default EmptyString environ_path) with
    | [] => []
    | prepend => split_on pathsep (join_with pathsep prepend)
    end ++ entries pathsep environ_path.
Proof.
  unfold adjust_nvidia_paths, entries.
  destruct (paths_to_prepend _ _ _ _) as [|p prepend]; [reflexivity|].
  cbn [default]. apply split_on_app.
Qed.

(** X15.  The old [PATH] is never lost or reordered: its entries are the
    last entries of the new [PATH], in the same order, whatever the platform
    and whatever directories exist. *)
Theorem adjust_nvidia_paths_keeps_old_entries environ_path :
  exists added,
    entries pathsep (adjust_nvidia_paths pathsep path_join isdir environ_path)
    = added ++ entries pathsep environ_path.
Proof. rewrite entries_adjusted. eauto. Qed.

Lemma prepended_entries environ_path :
  Forall (fun p => has_char pathsep p = false) (candidates path_join) ->
  entries pathsep (adjust_nvidia_paths pathsep path_join isdir environ_path)
  = paths_to_prepend pathsep path_join isdir (default EmptyString environ_path)
    ++ entries pathsep environ_path.
Proof.
  intros Hclean. rewrite entries_adjusted. f_equal.
  destruct (paths_to_prepend _ _ _ _) as [|p prepend] eqn:E; [reflexivity|].
  apply split_join; [|discriminate]. rewrite <- E, paths_to_prepend_filter.
  rewrite Forall_forall in Hclean. apply Forall_forall.
  intros x [Hx _]%list_elem_of_In%List.filter_In. apply Hclean. now apply list_elem_of_In.
Qed.

Lemma existing_candidates_listed environ_path p :
  Forall (fun p => has_char pathsep p = false) (candidates path_join) ->
  p ∈ candidates path_join -> isdir p = true ->
  p ∈ entries pathsep (adjust_nvidia_paths pathsep path_join isdir environ_path).
Proof.
  intros Hclean Hp Hdir. rewrite (prepended_entries _ Hclean).
  apply elem_of_app.
  destruct (bool_decide (p ∈ entries pathsep environ_path)) eqn:E.
  - right. now apply bool_decide_eq_true in E.
  - left. rewrite paths_to_prepend_filter. apply list_elem_of_In, List.filter_In.
    split; [now apply list_elem_of_In|]. unfold wanted. rewrite Hdir.
    unfold entries in E. now rewrite E.
Qed.

(** X16.  Where the separator of [PATH] does not occur in the three
    directories the function looks for (as on Windows), the function does its
    job and is idempotent: afterwards every one of the three that exists is an
    entry of [PATH], the entries put in front exist and were not entries
    before, and a second run changes nothing. *)
Theorem adjust_nvidia_paths_settles environ_path :
  Forall (fun p => has_char pathsep p = false) (candidates path_join) ->
  let adjusted := adjust_nvidia_paths pathsep path_join isdir environ_path in
  (forall p, p ∈ candidates path_join -> isdir p = true ->
             p ∈ entries pathsep adjusted) /\
  (exists added,
     entries pathsep adjusted = added ++ entries pathsep environ_path /\
     Forall (fun p => p ∈ candidates path_join /\ isdir p = true /\
                      p ∉ entries pathsep environ_path) added) /\
  adjust_nvidia_paths pathsep path_join isdir adjusted = adjusted.
Proof.
  intros Hclean adjusted. split; [|split].
  - intros p. now apply existing_candidates_listed.
  - eexists. split; [now apply prepended_entries|].
    rewrite paths_to_prepend_filter. apply Forall_forall.
    intros p [Hp Hw]%list_elem_of_In%List.filter_In. unfold wanted in Hw.
    apply andb_true_iff in Hw as [Hdir Hnew]. apply negb_true_iff in Hnew.
    apply bool_decide_eq_false in Hnew.
    split; [now apply list_elem_of_In|]. now split.
  - unfold adjust_nvidia_paths at 1.
    replace (paths_to_prepend pathsep path_join isdir (default EmptyString adjusted))
      with (@nil string); [reflexivity|].
    symmetry. rewrite paths_to_prepend_filter.
    change (split_on pathsep (default EmptyString adjusted))
      with (entries pathsep adjusted).
    apply filter_none. intros p Hp. unfold wanted.
    destruct (isdir p) eqn:Hdir; [|reflexivity]. unfold adjusted.
    rewrite (bool_decide_eq_true_2 _ (existing_candidates_listed _ p Hclean Hp Hdir)).
    reflexivity.
Qed.

End Platform.

(** On Windows, with the CUDA directories present and a [PATH] without
    them. *)
Lemma windows_path_settles :
  let sep := ";"%char in
  let join := fun a b => a +:+ "\" +:+ b in
  let adjusted := adjust_nvidia_paths sep join (fun _ => true)
                    (Some "C:\Windows;C:\Windows\System32") in
  (forall p, p ∈ candidates join -> (fun _ : string => true) p = true ->
             p ∈ entries sep adjusted) /\
  (exists added,
     entries sep adjusted
     = added ++ entries sep (Some "C:\Windows;C:\Windows\System32") /\
     Forall (fun p => p ∈ candidates join /\ (fun _ : string => true) p = true /\
                      p ∉ entries sep (Some "C:\Windows;C:\Windows\System32")) added) /\
  adjust_nvidia_paths sep join (fun _ => true) adjusted = adjusted.
Proof.
  apply (adjust_nvidia_paths_settles ";"%char (fun a b => a +:+ "\" +:+ b)
           (fun _ => true) (Some "C:\Windows;C:\Windows\System32")).
  repeat constructor.
Defined.

(** *** The language of the user interface *)

Lemma str_get_cases key d dflt :
  str_get key d dflt = dflt \/ (key, str_get key d dflt) ∈ d.
Proof.
  induction d as [|[k v] d IH]; cbn; [now left|].
  destruct (String.eqb key k) eqn:E.
  - right. apply String.eqb_eq in E as ->. apply list_elem_of_here.
  - destruct IH as [IH|IH]; [now left|right]. now apply list_elem_of_further.
Qed.

Lemma chinese_lang_code locale :
  String.prefix "zh_" locale = true -> lang_code_of locale = "zh".
Proof.
  destruct locale as [|a [|b [|c r]]]; cbn [String.prefix]; try discriminate;
    repeat (destruct (ascii_dec _ _); try discriminate).
  subst. intros _. reflexivity.
Qed.

Lemma known_languages :
  Forall (fun entry => entry.2 ∈ language_codes.*1) lang_map.
Proof. repeat constructor. Qed.

(** X17.  [get_system_language] only ever names a language that
    [load_translation] has a resource for: its result is a key of the table
    of [load_translation], whatever the locale. *)
Theorem system_language_is_known locale :
  get_system_language locale ∈ language_codes.*1.
Proof.
  unfold get_system_language.
  destruct (String.prefix "zh_" locale);
    [destruct (bool_decide (locale ∈ ["zh_CN"; "zh_SG"]));
       [cbn; repeat constructor|];
     destruct (bool_decide (locale ∈ ["zh_TW"; "zh_HK"]));
       [cbn; repeat constructor|]|];
    (destruct (str_get_cases (lang_code_of locale) lang_map "English") as [->|Hin];
     [cbn; repeat constructor|];
     pose proof known_languages as Hk; rewrite Forall_forall in Hk;
     exact (Hk _ Hin)).
Qed.

Lemma requested_main win32 argv stored locale load exists_ :
  requested (main win32 argv stored locale load exists_)
  = let selected_language := default (get_system_language locale) stored in
    if String.eqb selected_language "English" then []
    else [":/translations/ct_" +:+ str_get selected_language language_codes "en"
          +:+ ".qm"].
Proof.
  unfold main, requested. rewrite !omap_app. cbn zeta.
  assert (Hicon : omap (fun a => match a with load_qm r => Some r | _ => None end)
                    (if win32 then [set_app_user_model_id "ComicLabs.ComicTranslate"]
                     else []) = []) by now destruct win32.
  assert (Hargv : omap (fun a => match a with load_qm r => Some r | _ => None end)
                    (match argv with
                     | _ :: project_file :: _ =>
                         if exists_ project_file
                            && GPTTranslation.endswith project_file ".ctpr"
                         then [thread_load_project project_file] else []
                     | _ => []
                     end) = []).
  { destruct argv as [|? [|project_file ?]]; try reflexivity.
    now destruct (exists_ project_file && _). }
  rewrite Hicon, Hargv. cbn [omap app]. rewrite app_nil_r.
  destruct (String.eqb _ "English"); [reflexivity|].
  unfold load_translation. now destruct (load _).
Qed.

(** X18.  With no language stored in the settings, [main] asks Qt for the
    translation of the system language: for a locale whose language code is
    one of the ten codes of [get_system_language] other than [en], the one
    resource it loads is [:/translations/ct_<code>.qm], whether or not the
    load succeeds. *)
Theorem startup_requests_system_language win32 argv locale load exists_ code :
  code ∈ lang_map.*1 -> code <> "en" -> lang_code_of locale = code ->
  requested (main win32 argv None locale load exists_)
  = [":/translations/ct_" +:+ code +:+ ".qm"].
Proof.
  intros Hin Hne Hcode. rewrite requested_main. cbn [default].
  assert (Hlang : get_system_language locale = str_get code lang_map "English").
  { unfold get_system_language.
    destruct (String.prefix "zh_" locale) eqn:Hzh; [|now rewrite Hcode].
    apply chinese_lang_code in Hzh. rewrite Hzh in Hcode. subst code.
    exfalso. revert Hin. cbn. rewrite !elem_of_cons, elem_of_nil.
    intros H; repeat (destruct H as [H|H]; [discriminate|]); exact H. }
  rewrite Hlang. clear Hlang Hcode. revert Hin. cbn [fmap list_fmap lang_map fst].
  rewrite !elem_of_cons, elem_of_nil.
  intros H; repeat (destruct H as [->|H]; [try reflexivity; congruence|]).
  destruct H.
Qed.

Lemma georgian_startup :
  requested (main true ["comic.py"] None "ka_GE" (fun _ => true) (fun _ => false))
  = [":/translations/ct_ka.qm"].
Proof.
  apply (startup_requests_system_language true ["comic.py"] "ka_GE"
           (fun _ => true) (fun _ => false) "ka").
  - cbn. repeat constructor.
  - discriminate.
  - reflexivity.
Defined.

(** X19.  A Chinese locale gets a Chinese user interface only when it is
    one of the four listed ones: every other locale whose name starts with
    [zh_] (Macau's [zh_MO], say) gets English, and so does every locale whose
    language code is not in the table. *)
Theorem unlisted_locale_gets_english locale :
  locale ∉ ["zh_CN"; "zh_SG"; "zh_TW"; "zh_HK"] ->
  String.prefix "zh_" locale = true \/ lang_code_of locale ∉ lang_map.*1 ->
  get_system_language locale = "English".
Proof.
  intros Hnot Hcase.
  assert (Hcode : lang_code_of locale ∉ lang_map.*1).
  { destruct Hcase as [Hzh|H]; [|exact H].
    rewrite (chinese_lang_code locale Hzh). cbn.
    rewrite !not_elem_of_cons. repeat split; try discriminate. apply not_elem_of_nil. }
  unfold get_system_language.
  rewrite !not_elem_of_cons in Hnot. destruct Hnot as (H1 & H2 & H3 & H4 & _).
  rewrite (bool_decide_eq_false_2 (locale ∈ ["zh_CN"; "zh_SG"])),
          (bool_decide_eq_false_2 (locale ∈ ["zh_TW"; "zh_HK"]));
    try (rewrite !not_elem_of_cons; repeat split; try assumption; apply not_elem_of_nil).
  assert (Hget : str_get (lang_code_of locale) lang_map "English" = "English").
  { destruct (str_get_cases (lang_code_of locale) lang_map "English") as [H|H];
      [exact H|].
    exfalso. apply Hcode. apply (list_elem_of_fmap_2 fst) in H. exact H. }
  rewrite Hget. now destruct (String.prefix "zh_" locale).
Qed.

Lemma macau_gets_english : get_system_language "zh_MO" = "English".
Proof.
  apply unlisted_locale_gets_english.
  - rewrite !not_elem_of_cons. repeat split; try discriminate. apply not_elem_of_nil.
  - left. reflexivity.
Defined.

End ComicFacts.

(** ** The cached inpainter *)

Module WorkbenchFacts.
Import Py Workbench MoreScenarios.

Lemma manual_inpaint_cached w rq c i :
  holds c (tool rq) i ->
  exists r, manual_inpaint w rq c = (c, [ran i], r).
Proof.
  intros [Hc Hk]. unfold manual_inpaint, ensure_inpainter.
  rewrite Hc, Hk, bool_decide_eq_true_2 by reflexivity. cbn. eauto.
Qed.

Lemma manual_inpaint_cases w rq c :
  exists c' evs r,
    manual_inpaint w rq c = (c', evs, r) /\
    ((c' = c /\ evs = []) \/
     (exists i, holds c (tool rq) i /\ c' = c /\ evs = [ran i]) \/
     (exists i, holds c' (tool rq) i /\ evs = [built i; ran i] /\
                device i = if gpu_enabled rq then "cuda" else "cpu")).
Proof.
  assert (Hrebuild :
    forall rebuild,
      rebuild
      = (if registered w (tool rq) then
           match construct w (tool rq) (if gpu_enabled rq then "cuda" else "cpu") with
           | Ok _ =>
               let made := mkInpainter (tool rq)
                             (if gpu_enabled rq then "cuda" else "cpu") in
               (mkCaches (Some made) (Some (tool rq)), [built made], Ok made)
           | Raise e => (c, [], Raise e)
           end
         else (c, [], Raise (raise_exn KeyError (tool rq)))) ->
      exists c' evs r,
        match rebuild with
        | (c', evs, Ok i) => (c', evs ++ [ran i], run w i (image rq) (mask rq))
        | (c', evs, Raise e) => (c', evs, Raise e)
        end = (c', evs, r) /\
        ((c' = c /\ evs = []) \/
         (exists i, holds c (tool rq) i /\ c' = c /\ evs = [ran i]) \/
         (exists i, holds c' (tool rq) i /\ evs = [built i; ran i] /\
                    device i = if gpu_enabled rq then "cuda" else "cpu"))).
  { intros rebuild ->. destruct (registered w (tool rq)); [|eauto 10].
    destruct (construct w _ _); [|eauto 10].
    eexists _, _, _. split; [reflexivity|]. right. right.
    eexists. repeat split. }
  unfold manual_inpaint, ensure_inpainter.
  destruct (inpainter_cache c) as [cached|] eqn:Hc; [|now apply Hrebuild].
  destruct (bool_decide (cached_inpainter_key c = Some (tool rq))) eqn:Hk;
    [|now apply Hrebuild].
  apply bool_decide_eq_true in Hk.
  eexists _, _, _. split; [reflexivity|]. right. left. exists cached.
  repeat split; assumption.
Qed.

Lemma session_cached w rqs c k i :
  Forall (fun rq => tool rq = k) rqs -> holds c k i ->
  exists evs, session w rqs c = (c, evs) /\ Forall (fun e => e = ran i) evs.
Proof.
  induction 1 as [|rq rest Hrq Hrest IH]; intros Hc; cbn [session]; [eauto|].
  subst k. destruct (manual_inpaint_cached w rq c i Hc) as [r ->].
  destruct (IH Hc) as (evs & -> & Hevs). eexists. split; [reflexivity|].
  constructor; [reflexivity|exact Hevs].
Qed.

Lemma session_one_inpainter w rqs c k :
  Forall (fun rq => tool rq = k) rqs -> one_inpainter (session w rqs c).2.
Proof.
  induction 1 as [|rq rest Hrq Hrest IH] in c |- *; cbn [session].
  - left. exists (mkInpainter "" ""). constructor.
  - destruct (manual_inpaint_cases w rq c) as (c' & evs & r & -> & Hcase).
    destruct Hcase as [[-> ->]|[(i & Hh & -> & ->)|(i & Hh & -> & _)]].
    + specialize (IH c). destruct (session w rest c) as [c'' evs']. exact IH.
    + rewrite Hrq in Hh.
      destruct (session_cached w rest c k i Hrest Hh) as (evs' & -> & Hevs).
      left. exists i. constructor; [reflexivity|exact Hevs].
    + rewrite Hrq in Hh.
      destruct (session_cached w rest c' k i Hrest Hh) as (evs' & -> & Hevs).
      right. exists i, (ran i :: evs'). split; [reflexivity|].
      constructor; [reflexivity|exact Hevs].
Qed.

Lemma filter_ran i evs :
  Forall (fun e => e = ran i) evs -> List.filter is_built evs = [].
Proof. induction 1 as [|e evs -> _ IH]; [reflexivity|exact IH]. Qed.

(** X20.  The inpainter is cached by the key of the tool only.  In any
    sequence of calls of [manual_inpaint] on one pipeline object in which the
    selected inpainter stays the same, at most one inpainter is built, and
    every inpainting is done by one and the same object, the built one if
    one was built: a change of the GPU setting between two calls does not
    reach the inpainter. *)
Theorem inpainter_rebuilt_only_for_another_tool w rqs c k :
  Forall (fun rq => tool rq = k) rqs ->
  let evs := (session w rqs c).2 in
  length (List.filter is_built evs) <= 1 /\
  (forall i j, ran i ∈ evs -> ran j ∈ evs -> i = j) /\
  (forall i j, built i ∈ evs -> ran j ∈ evs -> j = i).
Proof.
  intros Hk evs.
  destruct (session_one_inpainter w rqs c k Hk) as [(o & Ho)|(o & rest & Hevs & Ho)];
    fold evs in Ho || fold evs in Hevs.
  - rewrite (filter_ran o evs Ho). rewrite Forall_forall in Ho.
    split; [cbn; lia|]. split.
    + intros i j Hi Hj. apply Ho in Hi, Hj. congruence.
    + intros i j Hi. apply Ho in Hi. discriminate.
  - rewrite Hevs. cbn [List.filter is_built]. rewrite (filter_ran o rest Ho).
    rewrite Forall_forall in Ho. split; [cbn; lia|]. split.
    + intros i j [Hi|Hi]%elem_of_cons [Hj|Hj]%elem_of_cons; try discriminate.
      apply Ho in Hi, Hj. congruence.
    + intros i j [Hi|Hi]%elem_of_cons [Hj|Hj]%elem_of_cons; try discriminate.
      * apply Ho in Hj. congruence.
      * apply Ho in Hi. discriminate.
Qed.

Lemma gpu_switch_is_not_seen :
  let evs := (session workshop two_strokes fresh).2 in
  length (List.filter is_built evs) <= 1 /\
  (forall i j, ran i ∈ evs -> ran j ∈ evs -> i = j) /\
  (forall i j, built i ∈ evs -> ran j ∈ evs -> j = i).
Proof.
  apply (inpainter_rebuilt_only_for_another_tool workshop two_strokes fresh "LaMa").
  repeat constructor.
Defined.

End WorkbenchFacts.

(** ** The maintenance scripts *)

Module ScriptsFacts.
Import Py Scripts MoreScenarios.

Ltac no_entry :=
  cbn [fst snd]; intros; match goal with H : _ ∈ [] |- _ => now apply elem_of_nil in H end.

Lemma choose_lrelease_exists h l :
  choose_lrelease h = Ok l -> l = "lrelease" \/ path_exists h l = true.
Proof.
  unfold choose_lrelease. destruct (qt h) as [|e|dir]; [intros [= <-]; now left|discriminate|].
  cbv zeta.
  set (lrelease_path := if negb (path_exists h (dir +:+ "/lrelease")) && win32 h
                        then _ else _).
  destruct (path_exists h lrelease_path) eqn:E; cbn; intros [= <-]; [now right|now left].
Qed.

(** X21.  [compile_ka_translation.main] runs at most one command, and only
    when the Georgian source file exists: [lrelease] with the source file,
    [-qm] and the target file, where the [lrelease] called is a file that
    exists or the bare name [lrelease] for the system's search path.  It
    returns 0 only when that command ran and exited with code 0. *)
Theorem compile_main_runs_lrelease h :
  (forall cmd, cmd ∈ (compile_main h).1 ->
     (compile_main h).1 = [cmd] /\ ts_exists h = true /\
     exists l, cmd = [l; ka_ts_file h; "-qm"; ka_qm_file h] /\
               (l = "lrelease" \/ path_exists h l = true)) /\
  ((compile_main h).2 = 0%Z ->
   exists cmd, (compile_main h).1 = [cmd] /\ run h cmd = Ok 0%Z).
Proof.
  unfold compile_main. destruct (ts_exists h); cbn [negb];
    [|split; [no_entry|discriminate]].
  destruct (choose_lrelease h) as [l|e] eqn:Hl;
    [|split; [no_entry|discriminate]].
  apply choose_lrelease_exists in Hl.
  destruct (run h _) as [returncode|e] eqn:Hrun;
    [destruct (returncode =? 0)%Z eqn:Hz|]; cbn [negb fst snd];
    (split; [intros cmd ->%list_elem_of_singleton; eauto 10|]);
    try discriminate.
  intros _. apply Z.eqb_eq in Hz as ->. eauto.
Qed.

Lemma build_host_compiles :
  exists cmd, (compile_main build_host).1 = [cmd] /\ run build_host cmd = Ok 0%Z.
Proof. apply (proj2 (compile_main_runs_lrelease build_host)). reflexivity. Defined.

Lemma backup_is_another_file : backup_file <> translations_py.
Proof. discriminate. Qed.

(** X22.  [update_translations_resource.main] never writes to
    [ct_translations.py]: the one write it can make goes to
    [ct_translations.py.bak] beside it, with exactly the text it read, and it
    makes it only when the first [qt_resource_name] section of that text does
    not mention [ct_ka.qm]. *)
Theorem update_main_only_writes_backup fs p text :
  (p, text) ∈ (update_main fs).1 ->
  p = ["app"; "translations"; "ct_translations.py.bak"] /\
  p <> translations_py /\
  (update_main fs).1 = [(p, text)] /\
  read_text fs translations_py = Ok text /\
  exists names, resource_names text = Some names /\ contains "ct_ka.qm" names = false.
Proof.
  unfold update_main. destruct (exists_ fs translations_py); cbn [negb];
    [|no_entry].
  destruct (read_text fs translations_py) as [content|e]; [|no_entry].
  destruct (resource_names content) as [names|] eqn:Hn; [|no_entry].
  destruct (contains "ct_ka.qm" names) eqn:Hc; [no_entry|].
  destruct (write_text fs backup_file content); cbn [fst snd];
    intros [= -> ->]%list_elem_of_singleton;
    (split; [reflexivity|]); (split; [apply backup_is_another_file|]); eauto.
Qed.

Lemma old_resource_file_is_backed_up :
  let p := ["app"; "translations"; "ct_translations.py.bak"] in
  p = ["app"; "translations"; "ct_translations.py.bak"] /\
  p <> translations_py /\
  (update_main old_disk).1 = [(p, old_resource_text)] /\
  read_text old_disk translations_py = Ok old_resource_text /\
  exists names, resource_names old_resource_text = Some names /\
                contains "ct_ka.qm" names = false.
Proof.
  apply (update_main_only_writes_backup old_disk).
  apply list_elem_of_here.
Defined.

End ScriptsFacts.
